(** * Chapter partitioning and line classification of the e-book generator

    A shallow embedding of [build/generate_epub.py] (the full-text pipeline:
    [parse_full_text], [process_text] and the page loop of [main]) and of the
    older [generate_epub.py] ([parse_toc] and its [process_text]).

    Python [str] values are sequences of Unicode code points, so a string is
    a [list N] here; [len], slicing, [strip], [split] and the regular
    expressions of the scripts all work on code points. *)

From Stdlib Require Import Strings.String Strings.Ascii.
From Stdlib Require Import NArith Arith Bool Lia DecimalNat.
From Stdlib Require Import Lists.List Sorting.Sorted.
Import ListNotations.

Set Implicit Arguments.

(** ** Text *)

Definition codepoint := N.
Definition str := list codepoint.

(** The scripts are UTF-8 files; a literal of the script is written here as
    the same UTF-8 literal and decoded to its code points. *)
Module Utf8.

Definition is_continuation (b : N) : bool := (128 <=? b)%N && (b <? 192)%N.

Definition lead_bits (b : N) : N :=
  if (b <? 128)%N then b
  else if (b <? 224)%N then (b mod 32)%N
  else if (b <? 240)%N then (b mod 16)%N
  else (b mod 8)%N.

Definition flush (cur : option N) : list N :=
  match cur with Some c => [c] | None => [] end.

Fixpoint decode_from (cur : option N) (s : string) : list N :=
  match s with
  | EmptyString => flush cur
  | String a t =>
      let b := N_of_ascii a in
      if is_continuation b
      then decode_from (option_map (fun c => (c * 64 + b mod 64)%N) cur) t
      else flush cur ++ decode_from (Some (lead_bits b)) t
  end.

Definition decode (s : string) : str := decode_from None s.

End Utf8.

Definition utf8 (s : string) : str := Utf8.decode s.
Arguments utf8 s%_string.

(** A literal that contains double quotes in the script is written with
    single quotes here, and [html] turns them back into double quotes (none
    of the script's markup literals contains a single quote). *)
Definition html (s : string) : str :=
  map (fun c => if (c =? 39)%N then 34%N else c) (utf8 s).
Arguments html s%_string.

(** The one character of a one-character literal. *)
Definition chr (s : string) : codepoint := hd 0%N (utf8 s).
Arguments chr s%_string.

Definition nl : codepoint := 10%N.

(** [str.isspace] of one character, which is also what [\s] matches in a
    [str] pattern: the code points CPython's [_PyUnicode_IsWhitespace]
    accepts. *)
Definition isspace (c : codepoint) : bool :=
  ((9 <=? c) && (c <=? 13) || (28 <=? c) && (c <=? 32)
   || (c =? 133) || (c =? 160) || (c =? 5760)
   || (8192 <=? c) && (c <=? 8202)
   || (c =? 8232) || (c =? 8233) || (c =? 8239) || (c =? 8287)
   || (c =? 12288))%N.

Module Str.

Fixpoint eqb (a b : str) : bool :=
  match a, b with
  | [], [] => true
  | x :: a', y :: b' => (x =? y)%N && eqb a' b'
  | _, _ => false
  end.

(** [s.startswith(p)] *)
Fixpoint startswith (p s : str) : bool :=
  match p, s with
  | [], _ => true
  | x :: p', y :: s' => (x =? y)%N && startswith p' s'
  | _ :: _, [] => false
  end.

(** [s.endswith(p)] *)
Definition endswith (p s : str) : bool := startswith (rev p) (rev s).

(** [s.find(p)]: the lowest index where [p] occurs, [None] for -1. *)
Fixpoint find_from (p s : str) (i : nat) : option nat :=
  if startswith p s then Some i
  else match s with
       | [] => None
       | _ :: t => find_from p t (S i)
       end.

Definition find (p s : str) : option nat := find_from p s 0.

(** [p in s] *)
Definition contains (p s : str) : bool :=
  match find p s with Some _ => true | None => false end.

(** The number of positions of [s] at which [p] occurs. *)
Fixpoint occurrences (p s : str) : nat :=
  (if startswith p s then 1 else 0) +
  match s with
  | [] => 0
  | _ :: t => occurrences p t
  end.

(** [s.split(p, 1)] when [p] occurs in [s]: the text before the first
    occurrence and the text after it. *)
Definition split_once (p s : str) : option (str * str) :=
  match find p s with
  | Some i => Some (firstn i s, skipn (i + length p) s)
  | None => None
  end.

(** [s[a:b]] for [0 <= a], [0 <= b]. *)
Definition slice (s : str) (a b : nat) : str := firstn (b - a) (skipn a s).

Fixpoint lstrip (s : str) : str :=
  match s with
  | c :: t => if isspace c then lstrip t else s
  | [] => []
  end.

Definition rstrip (s : str) : str := rev (lstrip (rev s)).

(** [s.strip()] *)
Definition strip (s : str) : str := rstrip (lstrip s).

(** [s.split(c)] for a one-character separator: never empty. *)
Fixpoint split (c : codepoint) (s : str) : list str :=
  match s with
  | [] => [[]]
  | x :: t =>
      if (x =? c)%N then [] :: split c t
      else match split c t with
           | l :: ls => (x :: l) :: ls
           | [] => [[x]]
           end
  end.

(** [sep.join(parts)] *)
Fixpoint join (sep : str) (parts : list str) : str :=
  match parts with
  | [] => []
  | [p] => p
  | p :: ps => p ++ sep ++ join sep ps
  end.

(** [s.replace(old, new)] for a one-character [old]. *)
Definition replace (old : codepoint) (new : str) (s : str) : str :=
  flat_map (fun c => if (c =? old)%N then new else [c]) s.

Definition digit (d : nat) : codepoint := (48 + N.of_nat d)%N.

Fixpoint of_uint (u : Decimal.uint) : str :=
  match u with
  | Decimal.Nil => []
  | Decimal.D0 u => digit 0 :: of_uint u
  | Decimal.D1 u => digit 1 :: of_uint u
  | Decimal.D2 u => digit 2 :: of_uint u
  | Decimal.D3 u => digit 3 :: of_uint u
  | Decimal.D4 u => digit 4 :: of_uint u
  | Decimal.D5 u => digit 5 :: of_uint u
  | Decimal.D6 u => digit 6 :: of_uint u
  | Decimal.D7 u => digit 7 :: of_uint u
  | Decimal.D8 u => digit 8 :: of_uint u
  | Decimal.D9 u => digit 9 :: of_uint u
  end.

(** [str(n)], as an f-string renders an [int]. *)
Definition of_nat (n : nat) : str := of_uint (Nat.to_uint n).

End Str.

(** ** Regular expressions

    The fragment of Python's [re] the scripts use, with the engine's
    backtracking order: [rmatch r st] lists the states in which a match of
    [r] begun in [st] can end, in the order the backtracking engine tries
    them, so that the match it reports is the head of the list.  Every
    repetition in the scripts is over a single character class, which is what
    [Star] (greedy) and [LazyStar] (non-greedy) repeat. *)
Module Re.

Record mstate := MState {
  m_pos : nat;                        (* absolute position in the text *)
  m_rest : str;                       (* the text from that position on *)
  m_groups : list (nat * (nat * nat)) (* group number, span *)
}.

Inductive regex :=
| Eps
| Lit (c : codepoint)
| Cls (p : codepoint -> bool)
| Bol                                 (* ^ without re.MULTILINE *)
| Eol                                 (* $ without re.MULTILINE *)
| Seq (r1 r2 : regex)
| Alt (r1 r2 : regex)
| Star (p : codepoint -> bool)        (* [p]*  *)
| LazyStar (p : codepoint -> bool)    (* [p]*? *)
| Grp (n : nat) (r : regex).

Declare Scope re_scope.
Delimit Scope re_scope with re.
Bind Scope re_scope with regex.
Infix ";;" := Seq (at level 61, right associativity) : re_scope.
Infix "<|>" := Alt (at level 62, right associativity) : re_scope.

(** [p]+ *)
Definition Plus (p : codepoint -> bool) : regex := Seq (Cls p) (Star p).
(** r? *)
Definition Opt (r : regex) : regex := Alt r Eps.

(** [.] without re.DOTALL *)
Definition dot (c : codepoint) : bool := negb (c =? nl)%N.
(** [\s] *)
Definition ws : codepoint -> bool := isspace.

Fixpoint greedy (p : codepoint -> bool) (pos : nat) (rest : str)
    (g : list (nat * (nat * nat))) : list mstate :=
  match rest with
  | c :: t =>
      if p c then greedy p (S pos) t g ++ [MState pos rest g]
      else [MState pos rest g]
  | [] => [MState pos rest g]
  end.

Fixpoint lazy (p : codepoint -> bool) (pos : nat) (rest : str)
    (g : list (nat * (nat * nat))) : list mstate :=
  MState pos rest g ::
  match rest with
  | c :: t => if p c then lazy p (S pos) t g else []
  | [] => []
  end.

Definition step (p : codepoint -> bool) (st : mstate) : list mstate :=
  match m_rest st with
  | c :: t => if p c then [MState (S (m_pos st)) t (m_groups st)] else []
  | [] => []
  end.

Definition close_group (n start : nat) (st : mstate) : mstate :=
  MState (m_pos st) (m_rest st) ((n, (start, m_pos st)) :: m_groups st).

Fixpoint rmatch (r : regex) (st : mstate) : list mstate :=
  match r with
  | Eps => [st]
  | Lit c => step (N.eqb c) st
  | Cls p => step p st
  | Bol => if m_pos st =? 0 then [st] else []
  | Eol => match m_rest st with
           | [] => [st]
           | [c] => if (c =? nl)%N then [st] else []
           | _ => []
           end
  | Seq r1 r2 => flat_map (rmatch r2) (rmatch r1 st)
  | Alt r1 r2 => rmatch r1 st ++ rmatch r2 st
  | Star p => greedy p (m_pos st) (m_rest st) (m_groups st)
  | LazyStar p => lazy p (m_pos st) (m_rest st) (m_groups st)
  | Grp n r1 => map (close_group n (m_pos st)) (rmatch r1 st)
  end.

(** A match object: where it starts and the state it ends in. *)
Record rmatch_obj := MatchObj { mo_start : nat; mo_final : mstate }.

Definition mo_end (m : rmatch_obj) : nat := m_pos (mo_final m).

(** The span of group [n], [None] when the group took no part. *)
Fixpoint span_of (n : nat) (g : list (nat * (nat * nat))) : option (nat * nat) :=
  match g with
  | [] => None
  | (k, sp) :: g' => if k =? n then Some sp else span_of n g'
  end.

(** [m.group(n)] on the text [text] ([None] for Python's [None]). *)
Definition group (text : str) (m : rmatch_obj) (n : nat) : option str :=
  match span_of n (m_groups (mo_final m)) with
  | Some (a, b) => Some (Str.slice text a b)
  | None => None
  end.

(** The match of [r] that starts at position [pos], where the text
    continues with [rest]. *)
Definition match_at (r : regex) (pos : nat) (rest : str) : option rmatch_obj :=
  match rmatch r (MState pos rest []) with
  | st :: _ => Some (MatchObj pos st)
  | [] => None
  end.

(** [re.match(r, text)] *)
Definition re_match (r : regex) (text : str) : option rmatch_obj :=
  match_at r 0 text.

Fixpoint search_from (r : regex) (pos : nat) (rest : str) : option rmatch_obj :=
  match match_at r pos rest with
  | Some m => Some m
  | None => match rest with
            | [] => None
            | _ :: t => search_from r (S pos) t
            end
  end.

(** [re.search(r, text)] *)
Definition search (r : regex) (text : str) : option rmatch_obj :=
  search_from r 0 text.

(** The scan of [finditer] and [sub]: leftmost matches, the next one
    sought from the end of the previous one.  [skip] counts the characters
    of the current match still to pass.  No pattern of the scripts matches
    the empty string; after an empty match the scan moves one character
    on. *)
Fixpoint finditer_from (r : regex) (skip pos : nat) (rest : str)
    : list rmatch_obj :=
  match skip with
  | S k => match rest with
           | [] => []
           | _ :: t => finditer_from r k (S pos) t
           end
  | O =>
      match match_at r pos rest with
      | Some m =>
          m :: match rest with
               | [] => []
               | _ :: t => finditer_from r (mo_end m - pos - 1) (S pos) t
               end
      | None => match rest with
                | [] => []
                | _ :: t => finditer_from r 0 (S pos) t
                end
      end
  end.

(** [list(r.finditer(text))] *)
Definition finditer (r : regex) (text : str) : list rmatch_obj :=
  finditer_from r 0 0 text.

(** A replacement template: literal text and group references. *)
Inductive tpl_item := TLit (s : str) | TGroup (n : nat).

Definition expand (tpl : list tpl_item) (text : str) (m : rmatch_obj) : str :=
  flat_map (fun it => match it with
                      | TLit s => s
                      | TGroup n => match group text m n with
                                    | Some s => s
                                    | None => []
                                    end
                      end) tpl.

Fixpoint sub_from (r : regex) (tpl : list tpl_item) (text : str)
    (skip pos : nat) (rest : str) : str :=
  match skip with
  | S k => match rest with
           | [] => []
           | _ :: t => sub_from r tpl text k (S pos) t
           end
  | O =>
      match match_at r pos rest with
      | Some m =>
          expand tpl text m ++
          match rest with
          | [] => []
          | c :: t =>
              if mo_end m =? pos then c :: sub_from r tpl text 0 (S pos) t
              else sub_from r tpl text (mo_end m - pos - 1) (S pos) t
          end
      | None => match rest with
                | [] => []
                | c :: t => c :: sub_from r tpl text 0 (S pos) t
                end
      end
  end.

(** [re.sub(r, tpl, text)] *)
Definition sub (r : regex) (tpl : list tpl_item) (text : str) : str :=
  sub_from r tpl text 0 0 text.

End Re.

(** [\d] in a [str] pattern: the decimal digits (category Nd) of the Unicode
    database of CPython 3.11 (Unicode 14.0): sixty-one blocks of ten, given
    by their zero digit, and the mathematical digits U+1D7CE to U+1D7FF. *)
Definition decimal_zeros : list N :=
  [48; 1632; 1776; 1984; 2406; 2534; 2662; 2790; 2918; 3046; 3174; 3302;
   3430; 3558; 3664; 3792; 3872; 4160; 4240; 6112; 6160; 6470; 6608; 6784;
   6800; 6992; 7088; 7232; 7248; 42528; 43216; 43264; 43472; 43504; 43600;
   44016; 65296; 66720; 68912; 69734; 69872; 69942; 70096; 70384; 70736;
   70864; 71248; 71360; 71472; 71904; 72016; 72784; 73040; 73120; 92768;
   92864; 93008; 123200; 123632; 125264; 130032]%N.

Definition isdecimal (c : codepoint) : bool :=
  existsb (fun z => (z <=? c) && (c <=? z + 9))%N decimal_zeros
  || (120782 <=? c)%N && (c <=? 120831)%N.

(** ** build/generate_epub.py: the full-text pipeline *)
Module FullText.
Import Re.
Local Open Scope re_scope.

Definition split_marker : str := utf8 "扉页题诗：".

(** The class "[一二三四五六七八九十百]" *)
Definition numeral (c : codepoint) : bool :=
  existsb (N.eqb c) (utf8 "一二三四五六七八九十百").

(** r"第\s*[一二三四五六七八九十百]+\s*回" *)
Definition numeral_token : regex :=
  Lit (chr "第") ;; Star ws ;; Plus numeral ;; Star ws ;; Lit (chr "回").

(** r"(^|\n)第\s*一\s*回" *)
Definition first_chapter_re : regex :=
  Grp 1 (Bol <|> Lit nl) ;;
  Lit (chr "第") ;; Star ws ;; Lit (chr "一") ;; Star ws ;; Lit (chr "回").

(** r"(第\s*[一二三四五六七八九十百]+\s*回)\s+(.*?)\s*(\d+)?$" *)
Definition toc_pattern : regex :=
  Grp 1 numeral_token ;; Plus ws ;; Grp 2 (LazyStar dot) ;; Star ws ;;
  Opt (Grp 3 (Plus isdecimal)) ;; Eol.

(** r"(^|\n)(第\s*[一二三四五六七八九十百]+\s*回\s+.*?)(\n|$)" *)
Definition chap_header_pattern : regex :=
  Grp 1 (Bol <|> Lit nl) ;;
  Grp 2 (numeral_token ;; Plus ws ;; LazyStar dot) ;;
  Grp 3 (Lit nl <|> Eol).

(** r"(第\s*[一二三四五六七八九十百]+\s*回)\s+" followed by group 2, a
    greedy ".*" *)
Definition header_re : regex :=
  Grp 1 numeral_token ;; Plus ws ;; Grp 2 (Star dot).

(** r"(【.*?】)" *)
Definition comment_re : regex :=
  Grp 1 (Lit (chr "【") ;; LazyStar dot ;; Lit (chr "】")).

(** r'<span class=[dq]comment[dq]>\1</span>', [dq] the double quote *)
Definition comment_tpl : list tpl_item :=
  [TLit (html "<span class='comment'>"); TGroup 1; TLit (utf8 "</span>")].

(** [m.group(n)] for a group that takes part in every match of its
    pattern. *)
Definition group_str (text : str) (m : rmatch_obj) (n : nat) : str :=
  match group text m n with Some s => s | None => [] end.

(** An entry of the [chapters] list (the table of contents). *)
Record toc_entry := TocEntry {
  toc_id : str;
  toc_num_str : str;
  toc_title : str;
  toc_filename : str
}.

(** An entry of [parsed_body]: the dict with ['type': 'intro'] or
    ['type': 'chapter']. *)
Inductive body_item :=
| Intro (title content filename : str)
| Chapter (num_str title content original_header : str).

(** The lines printed by [parse_full_text]. *)
Definition msg_not_found : str := utf8 "Error: full.txt not found.".
Definition msg_no_marker : str :=
  utf8 "Warning: '扉页题诗：' marker not found. Trying to split by first chapter.".
Definition msg_no_split : str := utf8 "Error: Could not split TOC and Body.".
Definition msg_no_headers : str :=
  utf8 "Warning: No chapter headers found in body.".

(** "Split into TOC and Body": what is printed, and [toc_text] and
    [body_text] unless the function returns early. *)
Definition split_toc_body (content : str) : list str * option (str * str) :=
  match Str.split_once split_marker content with
  | Some (before, after) => ([], Some (before, split_marker ++ after))
  | None =>
      match search first_chapter_re content with
      | Some m => ([msg_no_marker],
                   Some (firstn (mo_start m) content,
                         skipn (mo_start m) content))
      | None => ([msg_no_marker; msg_no_split], None)
      end
  end.

(** One round of the "Parse TOC" loop. *)
Definition toc_step (chapters : list toc_entry) (line : str) : list toc_entry :=
  let line := Str.strip line in
  match line with
  | [] => chapters
  | _ =>
      match re_match toc_pattern line with
      | Some m =>
          let chap_num_str := Str.replace (chr " ") [] (group_str line m 1) in
          let title := Str.strip (group_str line m 2) in
          chapters ++
          [TocEntry (utf8 "chap" ++ Str.of_nat (length chapters + 1))
                    chap_num_str title
                    (utf8 "chapter" ++ Str.of_nat (length chapters + 1)
                       ++ utf8 ".html")]
      | None => chapters
      end
  end.

Definition parse_toc_text (toc_text : str) : list toc_entry :=
  fold_left toc_step (Str.split nl toc_text) [].

(** The body of the [for i, match in enumerate(matches)] loop, on
    [body_text[start:end]]. *)
Definition chapter_item (chunk : str) : body_item :=
  let full_chunk := Str.strip chunk in
  let lines := Str.split nl full_chunk in
  let header := Str.strip (hd [] lines) in
  let content := Str.strip (Str.join [nl] (tl lines)) in
  match re_match header_re header with
  | Some m =>
      Chapter (Str.replace (chr " ") [] (group_str header m 1))
              (Str.strip (group_str header m 2))
              content header
  | None => Chapter (firstn 4 header) header content header
  end.

(** The loop over the matches, given where each starts. *)
Fixpoint chapter_items (body_text : str) (starts : list nat) : list body_item :=
  match starts with
  | [] => []
  | start :: rest =>
      let stop := match rest with
                  | next :: _ => next
                  | [] => length body_text
                  end in
      chapter_item (Str.slice body_text start stop)
      :: chapter_items body_text rest
  end.

(** "Parse Body" *)
Definition parse_body (body_text : str) : list str * list body_item :=
  let matches := finditer chap_header_pattern body_text in
  match matches with
  | m0 :: _ =>
      let intro_text := Str.strip (firstn (mo_start m0) body_text) in
      ([],
       match intro_text with
       | [] => []
       | _ => [Intro (utf8 "扉页") intro_text (utf8 "intro.html")]
       end ++ chapter_items body_text (map mo_start matches))
  | [] =>
      ([msg_no_headers],
       [Intro (utf8 "全文") body_text (utf8 "full.html")])
  end.

(** [parse_full_text()]: [file] is the text read from [raw_data/full.txt],
    [None] when the file does not exist.  The result is what the call prints
    and the pair [(chapters, parsed_body)] it returns. *)
Definition parse_full_text (file : option str)
    : list str * (list toc_entry * list body_item) :=
  match file with
  | None => ([msg_not_found], ([], []))
  | Some content =>
      match split_toc_body content with
      | (out, None) => (out, ([], []))
      | (out, Some (toc_text, body_text)) =>
          let chapters := parse_toc_text toc_text in
          let (out', parsed_body) := parse_body body_text in
          (out ++ out', (chapters, parsed_body))
      end
  end.

(** *** [process_text] *)

(** "Escape HTML" *)
Definition escape (text : str) : str :=
  Str.replace (chr ">") (utf8 "&gt;")
    (Str.replace (chr "<") (utf8 "&lt;")
       (Str.replace (chr "&") (utf8 "&amp;") text)).

(** "Wrap comments" *)
Definition wrap_comments (text : str) : str := sub comment_re comment_tpl text.

Inductive kind := PoemIntro | PoemLine | Paragraph.

Definition is_poem_intro (line : str) : bool :=
  Str.startswith (utf8 "诗曰") line || Str.endswith (utf8 "云：") line
  || Str.endswith (utf8 "道是：") line || Str.endswith (utf8 "曰：") line.

Definition is_short_verse (line : str) : bool :=
  (length line <? 40)
  && (Str.endswith (utf8 "。") line || Str.endswith (utf8 "，") line
      || Str.endswith (utf8 "？") line || Str.endswith (utf8 "！") line).

(** The [if]/[elif]/[else] of the loop. *)
Definition classify_line (line : str) : kind :=
  if is_poem_intro line then PoemIntro
  else if is_short_verse line then PoemLine
  else Paragraph.

(** What each branch appends to [html_lines]. *)
Definition render (k : kind) (line : str) : str :=
  match k with
  | PoemIntro => html "<p class='poem-intro'>" ++ line ++ utf8 "</p>"
  | PoemLine =>
      html "<p class='poem-line' style='text-align:center;'>" ++ line
      ++ utf8 "</p>"
  | Paragraph => utf8 "<p>" ++ line ++ utf8 "</p>"
  end.

(** One round of the [for line in lines] loop. *)
Definition line_step (line : str) : list (kind * str) :=
  let line := Str.strip line in
  match line with
  | [] => []
  | _ => [(classify_line line, line)]
  end.

(** The lines the loop emits, each with the branch that emitted it. *)
Definition typed_lines (text : str) : list (kind * str) :=
  flat_map line_step (Str.split nl (wrap_comments (escape text))).

Definition process_text (text : str) : str :=
  Str.join [nl] (map (fun kl => render (fst kl) (snd kl)) (typed_lines text)).

(** *** The page loop of [main] *)

(** What one round of [for item in parsed_body] makes: the page written
    by [create_html_file] and the identifiers the manifest, spine and
    navigation entries of that round are templated from. *)
Record page := Page {
  pg_chapter_index : option nat;   (* [chapter_index], for a chapter *)
  pg_id : str;
  pg_filename : str;
  pg_title : str;
  pg_html : str;
  pg_play_order : nat
}.

Record loop_state := LoopState {
  play_order : nat;
  chapter_index : nat;
  pages : list page
}.

Definition page_step (st : loop_state) (item : body_item) : loop_state :=
  match item with
  | Intro title content filename =>
      LoopState (play_order st + 1) (chapter_index st)
        (pages st ++
         [Page None (utf8 "intro") filename title (process_text content)
               (play_order st)])
  | Chapter num_str title content _ =>
      let chapter_index := chapter_index st + 1 in
      let filename :=
        utf8 "chapter_" ++ Str.of_nat chapter_index ++ utf8 ".html" in
      let full_title := num_str ++ utf8 " " ++ title in
      let chap_id := utf8 "chap_" ++ Str.of_nat chapter_index in
      LoopState (play_order st + 1) chapter_index
        (pages st ++
         [Page (Some chapter_index) chap_id filename full_title
               (process_text content) (play_order st)])
  end.

Definition main_pages (parsed_body : list body_item) : list page :=
  pages (fold_left page_step parsed_body (LoopState 2 0 [])).

(** [manifest_items] and [spine_items] entries of a page. *)
Definition manifest_item (p : page) : str :=
  html "<item id='" ++ pg_id p ++ html "' href='" ++ pg_filename p
  ++ html "' media-type='application/xhtml+xml'/>".

Definition spine_item (p : page) : str :=
  html "<itemref idref='" ++ pg_id p ++ html "'/>".

End FullText.

(** ** generate_epub.py: the older per-chapter script *)
Module PerChapter.
Import Re.
Local Open Scope re_scope.

(** r"(第\s*[一二三四五六七八九十百]+\s*回)\s+(.*?)(\d+)?$" *)
Definition toc_line_re : regex :=
  Grp 1 FullText.numeral_token ;; Plus ws ;; Grp 2 (LazyStar dot) ;;
  Opt (Grp 3 (Plus isdecimal)) ;; Eol.

Definition msg_no_toc : str := utf8 "Warning: TOC file not found.".

(** One round of [for line in f]. *)
Definition toc_step (chapters : list FullText.toc_entry) (line : str)
    : list FullText.toc_entry :=
  let line := Str.strip line in
  match line with
  | [] => chapters
  | _ =>
      match re_match toc_line_re line with
      | Some m =>
          let chap_num_str :=
            Str.replace (chr " ") [] (FullText.group_str line m 1) in
          let title := Str.strip (FullText.group_str line m 2) in
          chapters ++
          [FullText.TocEntry
             (utf8 "chap" ++ Str.of_nat (length chapters + 1))
             chap_num_str title
             (utf8 "chapter" ++ Str.of_nat (length chapters + 1)
                ++ utf8 ".html")]
      | None => chapters
      end
  end.

(** [parse_toc()]: [file] is the text read from [raw_data/toc.txt], [None]
    when the file does not exist; the lines of the file are its text split
    at line breaks (the line ends go with [strip]). *)
Definition parse_toc (file : option str) : list str * list FullText.toc_entry :=
  match file with
  | None => ([msg_no_toc], [])
  | Some content => ([], fold_left toc_step (Str.split nl content) [])
  end.

Definition is_poem_intro (line : str) : bool :=
  Str.startswith (utf8 "诗曰") line || Str.endswith (utf8 "云：") line
  || Str.endswith (utf8 "道是：") line.

Definition is_short_verse (line : str) : bool :=
  (length line <? 20)
  && (Str.endswith (utf8 "。") line || Str.endswith (utf8 "，") line).

(** One round of the [for line in lines] loop: the paragraph appended. *)
Definition line_step (line : str) : list str :=
  let line := Str.strip line in
  match line with
  | [] => []
  | _ =>
      if is_poem_intro line then [utf8 "<p>" ++ line ++ utf8 "</p>"]
      else if is_short_verse line then
        [html "<p class='poem-line' style='text-align:center;'>" ++ line
         ++ utf8 "</p>"]
      else [utf8 "<p>" ++ line ++ utf8 "</p>"]
  end.

Definition process_text (text : str) : str :=
  Str.join [nl]
    (flat_map line_step
       (Str.split nl (FullText.wrap_comments (FullText.escape text)))).

End PerChapter.

(** ** generate_epub.py: the pages and the listings of the older script *)
Module OlderBook.

(** The [OEBPS] directory of the build, as the names of the files in it:
    [os.path.exists] of a file of that directory. *)
Definition exists_in (dir : list str) (name : str) : bool :=
  existsb (Str.eqb name) dir.

(** An entry of [items] in [create_toc_html]. *)
Definition toc_item (dir : list str) (chap : FullText.toc_entry) : str :=
  if exists_in dir (FullText.toc_filename chap)
  then html "<li><a href='" ++ FullText.toc_filename chap ++ html "'>"
       ++ FullText.toc_num_str chap ++ utf8 " " ++ FullText.toc_title chap
       ++ utf8 "</a></li>"
  else utf8 "<li>" ++ FullText.toc_num_str chap ++ utf8 " "
       ++ FullText.toc_title chap ++ utf8 " (待补)</li>".

Definition toc_items (dir : list str) (chapters : list FullText.toc_entry)
    : list str :=
  map (toc_item dir) chapters.

(** What [create_content_opf] appends for a chapter whose page exists. *)
Definition manifest_item_of (chap : FullText.toc_entry) : str :=
  html "<item id='" ++ FullText.toc_id chap ++ html "' href='"
  ++ FullText.toc_filename chap
  ++ html "' media-type='application/xhtml+xml'/>".

Definition spine_item_of (chap : FullText.toc_entry) : str :=
  html "<itemref idref='" ++ FullText.toc_id chap ++ html "'/>".

Definition present (dir : list str) (chapters : list FullText.toc_entry)
    : list FullText.toc_entry :=
  filter (fun chap => exists_in dir (FullText.toc_filename chap)) chapters.

(** [manifest_items] and [spine_items] of [create_content_opf]. *)
Definition manifest_items (dir : list str) (chapters : list FullText.toc_entry)
    : list str :=
  [html "<item id='style' href='style.css' media-type='text/css'/>";
   html "<item id='toc' href='toc.html' media-type='application/xhtml+xml'/>"]
  ++ map manifest_item_of (present dir chapters).

Definition spine_items (dir : list str) (chapters : list FullText.toc_entry)
    : list str :=
  [html "<itemref idref='toc'/>"] ++ map spine_item_of (present dir chapters).

(** The values a navPoint of [create_toc_ncx] is templated from: its play
    order (also in its id), its label and its source file. *)
Record nav_point := NavPoint {
  np_order : nat;
  np_label : str;
  np_src : str
}.

Definition nav_point_of (play_order : nat) (chap : FullText.toc_entry)
    : nav_point :=
  NavPoint play_order
    (FullText.toc_num_str chap ++ utf8 " " ++ FullText.toc_title chap)
    (FullText.toc_filename chap).

(** The loop of [create_toc_ncx], from the play order it has reached. *)
Fixpoint chapter_nav_points (dir : list str) (play_order : nat)
    (chapters : list FullText.toc_entry) : list nav_point :=
  match chapters with
  | [] => []
  | chap :: rest =>
      if exists_in dir (FullText.toc_filename chap)
      then nav_point_of play_order chap
           :: chapter_nav_points dir (play_order + 1) rest
      else chapter_nav_points dir play_order rest
  end.

Definition nav_points (dir : list str) (chapters : list FullText.toc_entry)
    : list nav_point :=
  NavPoint 1 (utf8 "目录") (utf8 "toc.html") :: chapter_nav_points dir 2 chapters.

(** One round of [for i in [1, 2]] in [main]: [texts i] is the text read
    from [raw_data/chapter{i}.txt], [None] when the file does not exist.
    The result is what [create_chapter_html] is called with, if it is
    called; it writes the page to the file [chapter_info['filename']]. *)
Definition chapter_round (chapters : list FullText.toc_entry)
    (texts : nat -> option str) (i : nat) : list (FullText.toc_entry * str) :=
  match texts i with
  | Some content =>
      let html_content := PerChapter.process_text content in
      if i <=? length chapters then
        match nth_error chapters (i - 1) with
        | Some chap_info => [(chap_info, html_content)]
        | None => []
        end
      else []
  | None => []
  end.

Record book := Book {
  chapter_files : list (FullText.toc_entry * str);
  toc_html_items : list str;
  manifest : list str;
  spine : list str;
  nav : list nav_point
}.

(** The line [zip_epub] prints once the archive is written. *)
Definition msg_generated (epub_path : str) : str :=
  utf8 "EPUB generated at: " ++ epub_path.

(** [main()], the style sheet taken to be there: what it prints, the
    chapter pages it writes and the listings it makes.  The build
    directory is made anew, so [OEBPS] holds the style sheet, then the
    chapter pages, then [toc.html], then [content.opf].  [epub_path] is
    [os.path.join(DIST_DIR, EPUB_NAME)], the path of the archive, which
    goes with the place of the script. *)
Definition main (epub_path : str) (toc : option str)
    (texts : nat -> option str) : list str * book :=
  let (out, chapters) := PerChapter.parse_toc toc in
  let written := flat_map (chapter_round chapters texts) [1; 2] in
  let dir1 :=
    utf8 "style.css" :: map (fun w => FullText.toc_filename (fst w)) written in
  let dir2 := dir1 ++ [utf8 "toc.html"] in
  let dir3 := dir2 ++ [utf8 "content.opf"] in
  (out ++ [msg_generated epub_path],
   Book written (toc_items dir1 chapters) (manifest_items dir2 chapters)
        (spine_items dir2 chapters) (nav_points dir3 chapters)).

End OlderBook.

(** ** The detected chapter boundaries and the chapter pages

    Names for what the statements below speak of. *)

(** The matches of the chapter header pattern in the body region of a
    file: the chapter boundaries a parse detects (none when the function
    returns before it scans). *)
Definition boundaries (file : option str) : list Re.rmatch_obj :=
  match file with
  | Some content =>
      match FullText.split_toc_body content with
      | (_, Some (_, body_text)) =>
          Re.finditer FullText.chap_header_pattern body_text
      | (_, None) => []
      end
  | None => []
  end.

Definition is_chapter (item : FullText.body_item) : bool :=
  match item with
  | FullText.Chapter _ _ _ _ => true
  | FullText.Intro _ _ _ => false
  end.

Definition is_chapter_page (p : FullText.page) : bool :=
  match FullText.pg_chapter_index p with Some _ => true | None => false end.

Definition chapter_pages (ps : list FullText.page) : list FullText.page :=
  filter is_chapter_page ps.

Definition chapter_ordinals (ps : list FullText.page) : list nat :=
  flat_map (fun p => match FullText.pg_chapter_index p with
                     | Some k => [k]
                     | None => []
                     end) ps.

Definition chap_id (k : nat) : str := utf8 "chap_" ++ Str.of_nat k.
Definition chap_filename (k : nat) : str :=
  utf8 "chapter_" ++ Str.of_nat k ++ utf8 ".html".

(** What a chapter page is made of, besides its text. *)
Definition page_key (p : FullText.page) : option nat * str * str :=
  (FullText.pg_chapter_index p, FullText.pg_id p, FullText.pg_filename p).

Definition key_of (k : nat) : option nat * str * str :=
  (Some k, chap_id k, chap_filename k).

(** The sentence-final glyphs of the short-verse rule. *)
Definition sentence_final : list codepoint :=
  [chr "。"; chr "，"; chr "？"; chr "！"].

(** [line] ends with one of the glyphs [gs]. *)
Definition ends_with_one_of (gs : list codepoint) (line : str) : Prop :=
  exists pre g, In g gs /\ line = pre ++ [g].

(** The bracket glyphs of an annotation and the two halves of the comment
    marker. *)
Definition open_glyph : codepoint := chr "【".
Definition close_glyph : codepoint := chr "】".
Definition span_open : str := html "<span class='comment'>".
Definition span_close : str := utf8 "</span>".

(** The text between an opening glyph and the nearest closing glyph on the
    same line, and the text after that closing glyph; [None] when the line
    or the text ends first. *)
Fixpoint find_close (s : str) : option (str * str) :=
  match s with
  | [] => None
  | c :: t =>
      if (close_glyph =? c)%N then Some ([], t)
      else if (c =? nl)%N then None
      else match find_close t with
           | Some (inner, rest) => Some (c :: inner, rest)
           | None => None
           end
  end.

(** The comment wrapping scan at position [pos] of [text]. *)
Definition wrap_at (text : str) (pos : nat) : str :=
  Re.sub_from FullText.comment_re FullText.comment_tpl text 0 pos
    (skipn pos text).

(** The three characters [escape] replaces. *)
Definition reserved (c : codepoint) : bool :=
  ((c =? chr "&") || (c =? chr "<") || (c =? chr ">"))%N.

(** The part of [first_chapter_re] after its group. *)
Definition chapter_one_re : Re.regex :=
  Re.Seq (Re.Lit (chr "第"))
    (Re.Seq (Re.Star Re.ws)
       (Re.Seq (Re.Lit (chr "一")) (Re.Seq (Re.Star Re.ws) (Re.Lit (chr "回"))))).

(** The text [s] opens chapter one: 第, whitespace, 一, whitespace, 回. *)
Definition opens_chapter_one (s : str) : bool :=
  match s with
  | c :: t =>
      (chr "第" =? c)%N &&
      match Str.lstrip t with
      | c1 :: t1 =>
          (chr "一" =? c1)%N &&
          match Str.lstrip t1 with
          | c2 :: _ => (chr "回" =? c2)%N
          | [] => false
          end
      | [] => false
      end
  | [] => false
  end.

(** Position [pos], from which the text goes on with [rest], is where a
    chapter-one opening starts: the start of the text or a line break, and
    then the opening. *)
Definition chapter_one_start (pos : nat) (rest : str) : bool :=
  (pos =? 0) && opens_chapter_one rest
  || match rest with
     | c :: t => (nl =? c)%N && opens_chapter_one t
     | [] => false
     end.

Definition nonempty (A : Type) (l : list A) : bool :=
  match l with [] => false | _ :: _ => true end.

Definition is_some (A : Type) (o : option A) : bool :=
  match o with Some _ => true | None => false end.

(** The patterns without [^]: what they match at a position depends on the
    text from that position on only. *)
Fixpoint bol_free (r : Re.regex) : bool :=
  match r with
  | Re.Bol => false
  | Re.Seq r1 r2 | Re.Alt r1 r2 => bol_free r1 && bol_free r2
  | Re.Grp _ r1 => bol_free r1
  | _ => true
  end.

(** The part of [chap_header_pattern] after its first group. *)
Definition header_tail : Re.regex :=
  Re.Seq
    (Re.Grp 2 (Re.Seq FullText.numeral_token
                 (Re.Seq (Re.Plus Re.ws) (Re.LazyStar Re.dot))))
    (Re.Grp 3 (Re.Alt (Re.Lit nl) Re.Eol)).

(** The text [s] goes on with a chapter header line. *)
Definition header_here (s : str) : bool :=
  nonempty (Re.rmatch header_tail (Re.MState 0 s [])).

(** A line is blank when [strip] leaves nothing of it. *)
Definition blank (line : str) : bool :=
  match Str.strip line with [] => true | _ => false end.

(** A text with no whitespace at either end (the empty text included). *)
Definition trimmed (s : str) : bool :=
  match s, rev s with
  | c :: _, d :: _ => negb (isspace c) && negb (isspace d)
  | _, _ => true
  end.

(** The reading back of escaped text: the three entities give their
    character, everything else stands for itself. *)
Fixpoint unescape (s : str) : str :=
  match s with
  | [] => []
  | c :: t =>
      match t with
      | c1 :: c2 :: c3 :: c4 :: t4 =>
          if Str.eqb [c; c1; c2; c3; c4] (utf8 "&amp;")
          then chr "&" :: unescape t4
          else match t with
               | d1 :: d2 :: d3 :: t3 =>
                   if Str.eqb [c; d1; d2; d3] (utf8 "&lt;")
                   then chr "<" :: unescape t3
                   else if Str.eqb [c; d1; d2; d3] (utf8 "&gt;")
                        then chr ">" :: unescape t3
                        else c :: unescape t
               | _ => c :: unescape t
               end
      | c1 :: c2 :: c3 :: t3 =>
          if Str.eqb [c; c1; c2; c3] (utf8 "&lt;")
          then chr "<" :: unescape t3
          else if Str.eqb [c; c1; c2; c3] (utf8 "&gt;")
               then chr ">" :: unescape t3
               else c :: unescape t
      | _ => c :: unescape t
      end
  end.

(** The id and the file name of the [k]-th table of contents entry. *)
Definition toc_id_of (k : nat) : str := utf8 "chap" ++ Str.of_nat k.
Definition toc_filename_of (k : nat) : str :=
  utf8 "chapter" ++ Str.of_nat k ++ utf8 ".html".

(** The ids the manifest template of [create_content_opf] has of its own. *)
Definition static_manifest_ids : list str :=
  [utf8 "ncx"; utf8 "style"; utf8 "cover"; utf8 "cover-image"; utf8 "toc"].

(** The text of a parsed item: [item['content']]. *)
Definition item_content (item : FullText.body_item) : str :=
  match item with
  | FullText.Intro _ content _ => content
  | FullText.Chapter _ _ content _ => content
  end.

(** The patterns without a group. *)
Fixpoint grp_free (r : Re.regex) : bool :=
  match r with
  | Re.Grp _ _ => false
  | Re.Seq r1 r2 | Re.Alt r1 r2 => grp_free r1 && grp_free r2
  | _ => true
  end.

(** The entries are numbered from 1 in the order they were made. *)
Definition numbered (es : list FullText.toc_entry) : Prop :=
  map FullText.toc_id es = map toc_id_of (seq 1 (length es))
  /\ map FullText.toc_filename es = map toc_filename_of (seq 1 (length es))
  /\ forall e, In e es ->
       trimmed (FullText.toc_title e) = true /\ ~ In (chr " ") (FullText.toc_num_str e).

(** What one round of either table of contents loop does. *)
Definition appends_one (step : list FullText.toc_entry -> str -> list FullText.toc_entry) : Prop :=
  forall acc line,
    step acc line = acc
    \/ (forallb isspace line = false
        /\ exists num title,
             trimmed title = true /\ ~ In (chr " ") num
             /\ step acc line =
                acc ++ [FullText.TocEntry (toc_id_of (length acc + 1)) num title
                                 (toc_filename_of (length acc + 1))]).

(** The chunks of the body the chapter loop works on: [body_text[start:end]]
    for each boundary, [end] being the next boundary or the end of the
    body. *)
Fixpoint chunks (body_text : str) (starts : list nat) : list str :=
  match starts with
  | [] => []
  | start :: rest =>
      let stop := match rest with
                  | next :: _ => next
                  | [] => length body_text
                  end in
      Str.slice body_text start stop :: chunks body_text rest
  end.

(** The body region of a file: [body_text], where the chapter boundaries
    are looked for (empty when the function returns before it scans). *)
Definition body_region (file : option str) : str :=
  match file with
  | Some content =>
      match FullText.split_toc_body content with
      | (_, Some (_, body_text)) => body_text
      | (_, None) => []
      end
  | None => []
  end.

(** The title [main] gives the page of a parsed item: [item['title']] for
    the front matter, [full_title] for a chapter. *)
Definition item_title (item : FullText.body_item) : str :=
  match item with
  | FullText.Intro title _ _ => title
  | FullText.Chapter num_str title _ _ => num_str ++ utf8 " " ++ title
  end.

(** The sentence-final glyphs of the short-verse rule of the older
    script. *)
Definition older_sentence_final : list codepoint := [chr "。"; chr "，"].

(** The branch of the loop of the older [process_text] a line takes, named
    by the markup it appends: the one of a poem line, or the plain
    paragraph of the two other branches. *)
Definition older_kind (line : str) : FullText.kind :=
  if PerChapter.is_poem_intro line then FullText.Paragraph
  else if PerChapter.is_short_verse line then FullText.PoemLine
  else FullText.Paragraph.

(** The opening tag of the paragraph of each kind; the closing tag is the
    same for all. *)
Definition open_tag (k : FullText.kind) : str :=
  match k with
  | FullText.PoemIntro => html "<p class='poem-intro'>"
  | FullText.PoemLine => html "<p class='poem-line' style='text-align:center;'>"
  | FullText.Paragraph => utf8 "<p>"
  end.

(** What a line of a table of contents gives when its trimmed form matches
    the pattern [r] of the loop: the numeral token without its spaces and
    the trimmed title; nothing for any other line. *)
Definition toc_fields (r : Re.regex) (raw : str) : list (str * str) :=
  let line := Str.strip raw in
  match line with
  | [] => []
  | _ =>
      match Re.re_match r line with
      | Some m =>
          [(Str.replace (chr " ") [] (FullText.group_str line m 1),
            Str.strip (FullText.group_str line m 2))]
      | None => []
      end
  end.

(** The text of scenario A. *)
Definition scenario_A : str :=
  utf8 "扉页题诗：前言文字" ++ [nl] ++ utf8 "第一回　开篇之题　　这是正文。".

(** * Properties *)

Import FullText.

(** ** Scenario A (C1) *)

(** C1, as the scenario states it, does not hold: the parse of scenario A
    is not a front matter record with body "前言文字" followed by one chapter
    "第一回" titled "开篇之题" with body "这是正文。". *)
Lemma scenario_A_not_as_stated :
  ~ (exists title filename header,
        snd (snd (parse_full_text (Some scenario_A))) =
        [Intro title (utf8 "前言文字") filename;
         Chapter (utf8 "第一回") (utf8 "开篇之题") (utf8 "这是正文。") header]).
Proof.
  intros (title & filename & header & H).
  vm_compute in H. discriminate H.
Qed.

(** C1 (amended): on scenario A the parse prints nothing, finds no table of
    contents entry, and returns a front matter record whose body keeps the
    marker, "扉页题诗：前言文字", and exactly one chapter record with numeral
    token "第一回", whose title is the whole rest of the header line and whose
    body is empty; no line is emitted for that empty body, and the text
    "这是正文。" on its own is emitted as exactly one poem line. *)
Theorem scenario_A_parse :
  parse_full_text (Some scenario_A) =
    ([], ([], [Intro (utf8 "扉页") (utf8 "扉页题诗：前言文字") (utf8 "intro.html");
               Chapter (utf8 "第一回") (utf8 "开篇之题　　这是正文。") []
                       (utf8 "第一回　开篇之题　　这是正文。")]))
  /\ typed_lines [] = []
  /\ typed_lines (utf8 "这是正文。") = [(PoemLine, utf8 "这是正文。")].
Proof. repeat split; vm_compute; reflexivity. Qed.

(** ** The bracketed span scenario (C9) *)

(** C9: for the line "贾雨村【批注】风尘怀闺秀。" exactly one line is emitted; in
    it the span 【批注】 stands, brackets included, inside the comment marker,
    and the text before and after it is unchanged.  (With the marker the line
    is 42 characters long, so it is emitted as a plain paragraph.) *)
Theorem bracketed_span_scenario :
  typed_lines (utf8 "贾雨村【批注】风尘怀闺秀。") =
    [(Paragraph,
      utf8 "贾雨村" ++ html "<span class='comment'>" ++ utf8 "【批注】"
      ++ utf8 "</span>" ++ utf8 "风尘怀闺秀。")]
  /\ process_text (utf8 "贾雨村【批注】风尘怀闺秀。") =
       utf8 "<p>" ++ utf8 "贾雨村" ++ html "<span class='comment'>"
       ++ utf8 "【批注】" ++ utf8 "</span>" ++ utf8 "风尘怀闺秀。" ++ utf8 "</p>".
Proof. split; vm_compute; reflexivity. Qed.

(** ** Whitespace in the numeral token (C5) *)

(** C5 fails on the code: the header line "第　一　回　甄士隐梦幻识通灵", with
    full-width spaces (U+3000) between the glyphs, matches the header
    pattern, and the stored numeral token is "第　一　回", which still holds
    whitespace: only U+0020 is removed.  The table of contents parsers of
    both scripts do the same. *)
Theorem numeral_token_keeps_wide_spaces :
  let header := utf8 "第　一　回　甄士隐梦幻识通灵" in
  Re.re_match header_re header <> None
  /\ chapter_item (header ++ [nl] ++ utf8 "正文。") =
       Chapter (utf8 "第　一　回") (utf8 "甄士隐梦幻识通灵") (utf8 "正文。") header
  /\ existsb isspace (utf8 "第　一　回") = true
  /\ snd (snd (parse_full_text
                 (Some (utf8 "扉页题诗：序" ++ [nl] ++ header ++ [nl]
                          ++ utf8 "正文。")))) =
       [Intro (utf8 "扉页") (utf8 "扉页题诗：序") (utf8 "intro.html");
        Chapter (utf8 "第　一　回") (utf8 "甄士隐梦幻识通灵") (utf8 "正文。") header]
  /\ map toc_num_str (parse_toc_text (header ++ utf8 " 1")) = [utf8 "第　一　回"]
  /\ map toc_num_str (snd (PerChapter.parse_toc (Some (header ++ utf8 " 1")))) =
       [utf8 "第　一　回"].
Proof. cbv zeta. repeat split; try (vm_compute; reflexivity). vm_compute. discriminate. Qed.

(** ** Facts about text *)
Section TextFacts.

Lemma startswith_app (p s : str) : Str.startswith p (p ++ s) = true.
Proof.
  induction p as [|x p IH]; simpl; [reflexivity|].
  now rewrite N.eqb_refl.
Qed.

Lemma startswith_iff (p s : str) :
  Str.startswith p s = true <-> exists t, s = p ++ t.
Proof.
  split.
  - revert s. induction p as [|x p IH]; intros s H.
    + now exists s.
    + destruct s as [|y s]; simpl in H; [discriminate|].
      apply andb_true_iff in H as [Hxy Hp].
      apply N.eqb_eq in Hxy. subst y.
      destruct (IH _ Hp) as [t ->]. now exists t.
  - intros [t ->]. apply startswith_app.
Qed.

Lemma occurrences_app_ge (p b a : str) :
  1 <= Str.occurrences p (b ++ p ++ a).
Proof.
  induction b as [|c b IH].
  - simpl app. destruct (p ++ a) eqn:E; simpl.
    + rewrite <- E, startswith_app. simpl. lia.
    + rewrite <- E, startswith_app. lia.
  - simpl. lia.
Qed.

(** When the text holds [p] once only, [find] gives the offset of that
    occurrence. *)
Lemma find_from_unique (p b a : str) (i : nat) :
  Str.occurrences p (b ++ p ++ a) = 1 ->
  Str.find_from p (b ++ p ++ a) i = Some (i + length b).
Proof.
  revert i. induction b as [|c b IH]; intros i H.
  - simpl app. simpl length. rewrite Nat.add_0_r.
    destruct (p ++ a) eqn:E; simpl; rewrite <- E, startswith_app; reflexivity.
  - pose proof (occurrences_app_ge p b a) as Hge.
    simpl app in *. simpl in H.
    destruct (Str.startswith p (c :: b ++ p ++ a)) eqn:E.
    + simpl in H. lia.
    + simpl. rewrite E. rewrite IH by (simpl in H; lia).
      f_equal. simpl. lia.
Qed.

Lemma split_once_unique (p b a : str) :
  Str.occurrences p (b ++ p ++ a) = 1 ->
  Str.split_once p (b ++ p ++ a) = Some (b, a).
Proof.
  intros H. unfold Str.split_once, Str.find.
  rewrite (find_from_unique _ _ _ 0 H). simpl Nat.add.
  f_equal. f_equal.
  - rewrite firstn_app, Nat.sub_diag, firstn_all. simpl. apply app_nil_r.
  - rewrite app_assoc, skipn_app, <- length_app, skipn_all, Nat.sub_diag.
    reflexivity.
Qed.

End TextFacts.

(** ** The marker split (C2) *)

(** C2: when the marker occurs exactly once in the file, at the end of
    [before], the table of contents region is [before], the body region is
    the marker and all that follows it, nothing is printed by the split, and
    the records returned are those of the scan of that body region alone:
    [before] takes no part in them. *)
Theorem marker_split (before after : str) :
  Str.occurrences split_marker (before ++ split_marker ++ after) = 1 ->
  let content := before ++ split_marker ++ after in
  let body_text := split_marker ++ after in
  split_toc_body content = ([], Some (before, body_text))
  /\ boundaries (Some content) = Re.finditer chap_header_pattern body_text
  /\ parse_full_text (Some content) =
       (fst (parse_body body_text),
        (parse_toc_text before, snd (parse_body body_text))).
Proof.
  intros H content body_text.
  assert (Hs : split_toc_body content = ([], Some (before, body_text))).
  { unfold split_toc_body, content. now rewrite (split_once_unique _ _ _ H). }
  split; [exact Hs|]. split.
  - unfold boundaries. now rewrite Hs.
  - unfold parse_full_text. rewrite Hs.
    destruct (parse_body body_text) as [out items]. reflexivity.
Qed.

Lemma marker_split_witness :
  let before := utf8 "目录" ++ [nl] ++ utf8 "第一回　开篇之题 1" ++ [nl] in
  let after := utf8 "前言文字" ++ [nl] ++ utf8 "第一回　开篇之题" ++ [nl]
               ++ utf8 "这是正文。" in
  Str.occurrences split_marker (before ++ split_marker ++ after) = 1
  /\ split_toc_body (before ++ split_marker ++ after) =
       ([], Some (before, split_marker ++ after)).
Proof.
  intros before after.
  assert (H : Str.occurrences split_marker (before ++ split_marker ++ after) = 1)
    by (vm_compute; reflexivity).
  split; [exact H|].
  exact (proj1 (marker_split before after H)).
Defined.

(** ** Chapter ordinals (C6) *)
Section Ordinals.

Lemma of_uint_inj (u v : Decimal.uint) :
  Str.of_uint u = Str.of_uint v -> u = v.
Proof.
  revert v. induction u; intros v H; destruct v; simpl in H;
    try discriminate H; try reflexivity;
    injection H as H; f_equal; auto.
Qed.

Lemma of_nat_inj (n m : nat) : Str.of_nat n = Str.of_nat m -> n = m.
Proof.
  unfold Str.of_nat. intros H. apply of_uint_inj in H.
  rewrite <- (DecimalNat.Unsigned.of_to n), <- (DecimalNat.Unsigned.of_to m).
  now rewrite H.
Qed.

Lemma chap_id_inj (n m : nat) : chap_id n = chap_id m -> n = m.
Proof.
  unfold chap_id. intros H. apply app_inv_head in H. now apply of_nat_inj.
Qed.

Lemma chap_filename_inj (n m : nat) :
  chap_filename n = chap_filename m -> n = m.
Proof.
  unfold chap_filename. intros H.
  apply app_inv_head, app_inv_tail in H. now apply of_nat_inj.
Qed.

Lemma chapter_pages_app (ps qs : list page) :
  chapter_pages (ps ++ qs) = chapter_pages ps ++ chapter_pages qs.
Proof. apply filter_app. Qed.

(** The loop numbers the chapter items it meets from [chapter_index + 1]
    on, one after the other. *)
Lemma page_loop_keys (items : list body_item) (st : loop_state) :
  map page_key (chapter_pages (pages (fold_left page_step items st))) =
  map page_key (chapter_pages (pages st))
  ++ map key_of (seq (chapter_index st + 1) (length (filter is_chapter items))).
Proof.
  revert st. induction items as [|item items IH]; intros st.
  - simpl. now rewrite app_nil_r.
  - simpl fold_left. rewrite IH. destruct item; simpl.
    + rewrite chapter_pages_app, map_app. simpl. now rewrite app_nil_r.
    + rewrite chapter_pages_app, map_app, <- app_assoc. simpl.
      repeat f_equal. lia.
Qed.

Lemma main_pages_keys (items : list body_item) :
  map page_key (chapter_pages (main_pages items)) =
  map key_of (seq 1 (length (filter is_chapter items))).
Proof. unfold main_pages. now rewrite page_loop_keys. Qed.

Lemma chapter_ordinals_keys (ps : list page) :
  map Some (chapter_ordinals ps) =
  map (fun p => fst (fst (page_key p))) (chapter_pages ps).
Proof.
  induction ps as [|p ps IH]; [reflexivity|].
  unfold chapter_ordinals, chapter_pages, is_chapter_page in *. simpl.
  destruct (pg_chapter_index p) eqn:E; simpl; rewrite ?E; now f_equal.
Qed.

Lemma chapter_items_chapters (body_text : str) (starts : list nat) :
  filter is_chapter (chapter_items body_text starts)
  = chapter_items body_text starts
  /\ length (chapter_items body_text starts) = length starts.
Proof.
  induction starts as [|s starts [IH1 IH2]]; [now split|].
  simpl. split; [|now rewrite IH2].
  unfold chapter_item at 1.
  destruct (Re.re_match header_re _); simpl; now rewrite IH1.
Qed.

(** As many chapter records as the scan finds matches. *)
Lemma parse_body_chapters (body_text : str) :
  length (filter is_chapter (snd (parse_body body_text))) =
  length (Re.finditer chap_header_pattern body_text).
Proof.
  unfold parse_body.
  destruct (Re.finditer chap_header_pattern body_text) as [|m0 ms] eqn:E;
    [reflexivity|].
  cbn [snd]. rewrite filter_app.
  destruct (chapter_items_chapters body_text (map Re.mo_start (m0 :: ms)))
    as [H1 H2].
  rewrite H1, length_app, H2, length_map.
  destruct (Str.strip _); reflexivity.
Qed.

Lemma parsed_chapters_boundaries (file : option str) :
  length (filter is_chapter (snd (snd (parse_full_text file)))) =
  length (boundaries file).
Proof.
  destruct file as [content|]; [|reflexivity].
  unfold parse_full_text, boundaries.
  destruct (split_toc_body content) as [out [[toc_text body_text]|]];
    [|reflexivity].
  pose proof (parse_body_chapters body_text) as H.
  destruct (parse_body body_text) as [out' items]. exact H.
Qed.

(** The matches of a scan start at strictly increasing positions. *)
Lemma finditer_from_starts (r : Re.regex) (rest : str) :
  forall skip pos,
    Forall (fun m => pos <= Re.mo_start m) (Re.finditer_from r skip pos rest)
    /\ StronglySorted lt (map Re.mo_start (Re.finditer_from r skip pos rest)).
Proof.
  induction rest as [|c rest IH]; intros skip pos.
  - destruct skip; simpl; [|split; constructor].
    unfold Re.match_at. destruct (Re.rmatch r _); simpl;
      split; repeat constructor.
  - destruct skip as [|k]; simpl.
    + unfold Re.match_at. destruct (Re.rmatch r _) as [|st sts]; simpl.
      * destruct (IH 0 (S pos)) as [H1 H2]. split; [|exact H2].
        eapply Forall_impl; [|exact H1]. simpl. intros; lia.
      * match goal with |- context [Re.finditer_from r ?k (S pos) rest] =>
          destruct (IH k (S pos)) as [H1 H2] end.
        split.
        -- constructor; [simpl; lia|].
           eapply Forall_impl; [|exact H1]. simpl. intros; lia.
        -- constructor; [exact H2|].
           apply Forall_map. eapply Forall_impl; [|exact H1].
           simpl. intros; lia.
    + destruct (IH k (S pos)) as [H1 H2]. split; [|exact H2].
      eapply Forall_impl; [|exact H1]. simpl. intros; lia.
Qed.

Lemma seq_sorted (s n : nat) : StronglySorted lt (seq s n).
Proof.
  revert s. induction n as [|n IH]; intros s; simpl; constructor.
  - apply IH.
  - apply Forall_forall. intros x Hx. apply in_seq in Hx. lia.
Qed.

Lemma NoDup_map_injective (A B : Type) (f : A -> B) (l : list A) :
  (forall x y, f x = f y -> x = y) -> NoDup l -> NoDup (map f l).
Proof.
  intros Hf Hl. induction Hl as [|x l Hx Hl IH]; simpl; constructor; auto.
  intros Hin. apply in_map_iff in Hin as (y & Hy & Hin).
  apply Hf in Hy. subst y. contradiction.
Qed.

(** The chapter records of a parse are those the chapter loop makes at
    the boundaries of the body region. *)
Lemma parsed_records (file : option str) :
  filter is_chapter (snd (snd (parse_full_text file))) =
  chapter_items (body_region file) (map Re.mo_start (boundaries file)).
Proof.
  destruct file as [content|]; [|reflexivity].
  unfold parse_full_text, boundaries, body_region.
  destruct (split_toc_body content) as [out [[toc_text body_text]|]];
    [|reflexivity].
  unfold parse_body.
  destruct (Re.finditer chap_header_pattern body_text) as [|m0 ms] eqn:E;
    [reflexivity|].
  cbn [snd]. rewrite filter_app.
  destruct (chapter_items_chapters body_text (map Re.mo_start (m0 :: ms)))
    as [H1 _].
  rewrite H1. destruct (Str.strip _); reflexivity.
Qed.

(** The [k]-th record of the chapter loop is made from the text between
    the [k]-th start and the next one, or the end of the body. *)
Lemma chapter_items_nth (body_text : str) (starts : list nat) :
  forall k start,
    nth_error starts k = Some start ->
    nth_error (chapter_items body_text starts) k =
    Some (chapter_item
            (Str.slice body_text start
               match nth_error starts (S k) with
               | Some next => next
               | None => length body_text
               end)).
Proof.
  induction starts as [|s0 rest IH]; intros [|k] start H;
    try discriminate H.
  - injection H as <-. destruct rest; reflexivity.
  - cbn [nth_error] in H. cbn [chapter_items nth_error]. now apply IH.
Qed.

(** The loop gives each chapter page the title and the text of the
    chapter item it meets, one after the other. *)
Lemma page_loop_texts (items : list body_item) (st : loop_state) :
  map (fun p => (pg_title p, pg_html p))
      (chapter_pages (pages (fold_left page_step items st))) =
  map (fun p => (pg_title p, pg_html p)) (chapter_pages (pages st))
  ++ map (fun i => (item_title i, process_text (item_content i)))
         (filter is_chapter items).
Proof.
  revert st. induction items as [|item items IH]; intros st.
  - simpl. now rewrite app_nil_r.
  - simpl fold_left. rewrite IH. destruct item; simpl.
    + rewrite chapter_pages_app, map_app. simpl. now rewrite app_nil_r.
    + rewrite chapter_pages_app, map_app, <- app_assoc. reflexivity.
Qed.

End Ordinals.

(** C6: the chapter pages of a parse carry the ordinals 1, ..., N in
    document order, N being the number of chapter boundaries detected.  The
    boundaries lie at strictly increasing positions of the body; the k-th
    chapter record is made from the text between the k-th boundary and the
    next one (or the end of the body); the chapter pages have, in this
    order, the titles and the texts of the chapter records; the ids of the
    pages are chap_1, ..., chap_N and their files chapter_1.html, ...,
    chapter_N.html; ordinals, ids and file names are without repetition and
    the ordinals strictly increase. *)
Theorem ordinals_one_to_N (file : option str) :
  let parsed_body := snd (snd (parse_full_text file)) in
  let N := length (boundaries file) in
  let ps := main_pages parsed_body in
  length (filter is_chapter parsed_body) = N
  /\ StronglySorted lt (map Re.mo_start (boundaries file))
  /\ (forall k m,
        nth_error (boundaries file) k = Some m ->
        nth_error (filter is_chapter parsed_body) k =
        Some (chapter_item
                (Str.slice (body_region file) (Re.mo_start m)
                   match nth_error (boundaries file) (S k) with
                   | Some next => Re.mo_start next
                   | None => length (body_region file)
                   end)))
  /\ map pg_title (chapter_pages ps) =
     map item_title (filter is_chapter parsed_body)
  /\ map pg_html (chapter_pages ps) =
     map (fun i => process_text (item_content i))
         (filter is_chapter parsed_body)
  /\ chapter_ordinals ps = seq 1 N
  /\ map pg_id (chapter_pages ps) = map chap_id (seq 1 N)
  /\ map pg_filename (chapter_pages ps) = map chap_filename (seq 1 N)
  /\ StronglySorted lt (chapter_ordinals ps)
  /\ NoDup (chapter_ordinals ps)
  /\ NoDup (map pg_id (chapter_pages ps))
  /\ NoDup (map pg_filename (chapter_pages ps)).
Proof.
  intros parsed_body N ps.
  pose proof (parsed_chapters_boundaries file) as HN.
  pose proof (main_pages_keys parsed_body) as HK.
  fold parsed_body in HN. fold N in HN. fold ps in HK. rewrite HN in HK.
  assert (Hord : chapter_ordinals ps = seq 1 N).
  { apply (f_equal (map (fun k => fst (fst k)))) in HK.
    rewrite !map_map in HK. simpl in HK.
    pose proof (chapter_ordinals_keys ps) as HO. simpl in HO.
    rewrite <- HO in HK.
    revert HK. generalize (chapter_ordinals ps) (seq 1 N).
    induction l as [|x l IH]; intros [|y l'] H; simpl in H;
      try discriminate H; [reflexivity|].
    injection H as -> H. f_equal. now apply IH. }
  assert (Hid : map pg_id (chapter_pages ps) = map chap_id (seq 1 N)).
  { apply (f_equal (map (fun k => snd (fst k)))) in HK.
    now rewrite !map_map in HK. }
  assert (Hfn : map pg_filename (chapter_pages ps) = map chap_filename (seq 1 N)).
  { apply (f_equal (map (fun k => snd k))) in HK.
    now rewrite !map_map in HK. }
  assert (HT : map (fun p => (pg_title p, pg_html p)) (chapter_pages ps) =
               map (fun i => (item_title i, process_text (item_content i)))
                   (filter is_chapter parsed_body)).
  { unfold ps, main_pages. now rewrite page_loop_texts. }
  pose proof (seq_sorted 1 N) as Hsorted.
  split; [exact HN|]. split.
  { unfold boundaries. destruct file as [content|]; [|constructor].
    destruct (split_toc_body content) as [out [[toc_text body_text]|]];
      [|constructor].
    apply finditer_from_starts. }
  split.
  { intros k m Hm. unfold parsed_body. rewrite parsed_records.
    rewrite (chapter_items_nth (body_region file)
               (map Re.mo_start (boundaries file)) k
               (map_nth_error Re.mo_start k (boundaries file) Hm)).
    rewrite nth_error_map.
    destruct (nth_error (boundaries file) (S k)); reflexivity. }
  split.
  { apply (f_equal (map fst)) in HT. now rewrite !map_map in HT. }
  split.
  { apply (f_equal (map snd)) in HT. now rewrite !map_map in HT. }
  repeat split.
  - exact Hord.
  - exact Hid.
  - exact Hfn.
  - now rewrite Hord.
  - rewrite Hord. apply seq_NoDup.
  - rewrite Hid. apply NoDup_map_injective; [|apply seq_NoDup].
    intros n m. apply chap_id_inj.
  - rewrite Hfn. apply NoDup_map_injective; [|apply seq_NoDup].
    intros n m. apply chap_filename_inj.
Qed.


(** A file with two chapters: their pages are chap_1 and chap_2, after the
    front matter page. *)
Example two_chapter_pages :
  let content := utf8 "扉页题诗：序" ++ [nl] ++ utf8 "第一回　甲" ++ [nl]
                 ++ utf8 "正文一。" ++ [nl] ++ utf8 "第二回　乙" ++ [nl]
                 ++ utf8 "正文二。" in
  let ps := main_pages (snd (snd (parse_full_text (Some content)))) in
  length (boundaries (Some content)) = 2
  /\ map pg_id ps = [utf8 "intro"; utf8 "chap_1"; utf8 "chap_2"]
  /\ map pg_filename ps =
       [utf8 "intro.html"; utf8 "chapter_1.html"; utf8 "chapter_2.html"]
  /\ map pg_title ps = [utf8 "扉页"; utf8 "第一回 甲"; utf8 "第二回 乙"]
  /\ chapter_ordinals ps = [1; 2].
Proof. cbv zeta. repeat split; vm_compute; reflexivity. Qed.

(** ** The classification rules (C8) *)
Section Classification.

Lemma endswith_iff (p s : str) :
  Str.endswith p s = true <-> exists pre, s = pre ++ p.
Proof.
  unfold Str.endswith. rewrite startswith_iff. split.
  - intros [t H]. exists (rev t).
    rewrite <- (rev_involutive s), H, rev_app_distr, rev_involutive.
    reflexivity.
  - intros [pre ->]. exists (rev pre). apply rev_app_distr.
Qed.

Lemma short_verse_iff (line : str) :
  is_short_verse line = true <->
  length line < 40 /\ ends_with_one_of sentence_final line.
Proof.
  unfold is_short_verse. rewrite andb_true_iff, Nat.ltb_lt.
  rewrite !orb_true_iff, !endswith_iff.
  change (utf8 "。") with [chr "。"]. change (utf8 "，") with [chr "，"].
  change (utf8 "？") with [chr "？"]. change (utf8 "！") with [chr "！"].
  unfold ends_with_one_of, sentence_final. split.
  - intros [Hlen H]. split; [exact Hlen|].
    destruct H as [[[[pre H]|[pre H]]|[pre H]]|[pre H]];
      exists pre; eexists; (split; [|exact H]); simpl; auto.
  - intros [Hlen (pre & g & Hg & H)]. split; [exact Hlen|].
    simpl in Hg.
    destruct Hg as [<-|[<-|[<-|[<-|[]]]]]; [left; left; left|left; left; right|left; right|right];
      now exists pre.
Qed.

Lemma typed_lines_in (text : str) (k : kind) (line : str) :
  In (k, line) (typed_lines text) ->
  exists raw, In raw (Str.split nl (wrap_comments (escape text)))
              /\ line = Str.strip raw /\ line <> [] /\ k = classify_line line.
Proof.
  unfold typed_lines. rewrite in_flat_map. intros (raw & Hraw & Hin).
  exists raw. split; [exact Hraw|].
  unfold line_step in Hin. destruct (Str.strip raw) as [|c l] eqn:E.
  - destruct Hin.
  - destruct Hin as [Hin|[]]. injection Hin as <- <-.
    repeat split; congruence.
Qed.

(** The short-verse rule of the older script. *)
Lemma older_short_verse_iff (line : str) :
  PerChapter.is_short_verse line = true <->
  length line < 20 /\ ends_with_one_of older_sentence_final line.
Proof.
  unfold PerChapter.is_short_verse. rewrite andb_true_iff, Nat.ltb_lt.
  rewrite !orb_true_iff, !endswith_iff.
  change (utf8 "。") with [chr "。"]. change (utf8 "，") with [chr "，"].
  unfold ends_with_one_of, older_sentence_final. split.
  - intros [Hlen H]. split; [exact Hlen|].
    destruct H as [[pre H]|[pre H]];
      exists pre; eexists; (split; [|exact H]); simpl; auto.
  - intros [Hlen (pre & g & Hg & H)]. split; [exact Hlen|].
    simpl in Hg. destruct Hg as [<-|[<-|[]]]; [left|right]; now exists pre.
Qed.

(** The markup of a poem line is not the one of a plain paragraph. *)
Lemma poem_line_not_plain (line : str) :
  [render Paragraph line] = [render PoemLine line] -> False.
Proof. unfold render. intros H. vm_compute in H. discriminate H. Qed.

(** A round of the older loop, by the trimmed form of its line. *)
Lemma older_line_step (raw : str) :
  Str.strip raw <> [] ->
  PerChapter.line_step raw =
  [render (older_kind (Str.strip raw)) (Str.strip raw)].
Proof.
  intros Hne. unfold PerChapter.line_step, older_kind. cbv zeta.
  destruct (Str.strip raw) as [|c l] eqn:E; [now destruct Hne|].
  generalize (PerChapter.is_poem_intro (c :: l))
             (PerChapter.is_short_verse (c :: l)).
  intros [|] [|]; unfold render; cbv beta iota; reflexivity.
Qed.

End Classification.

(** C8, as stated, does not hold of the older script [generate_epub.py]:
    the line "谁解其中味？" is not empty, is trimmed, satisfies the poem-intro
    rule of neither script, is shorter than 40 characters and ends with ？;
    [build/generate_epub.py] emits it as a poem line, but the older script
    emits it as a plain paragraph. *)
Lemma older_script_question_line :
  let line := utf8 "谁解其中味？" in
  line <> [] /\ Str.strip line = line
  /\ is_poem_intro line = false /\ PerChapter.is_poem_intro line = false
  /\ (length line < 40 /\ ends_with_one_of sentence_final line)
  /\ process_text line = render PoemLine line
  /\ PerChapter.process_text line <> render PoemLine line
  /\ PerChapter.process_text line = render Paragraph line.
Proof.
  cbv zeta. split; [discriminate|].
  split; [vm_compute; reflexivity|].
  split; [vm_compute; reflexivity|].
  split; [vm_compute; reflexivity|].
  split; [apply short_verse_iff; vm_compute; reflexivity|].
  split; [vm_compute; reflexivity|].
  split; [vm_compute; discriminate|].
  vm_compute; reflexivity.
Qed.

(** C8 (amended): every emitted line is the trimmed, non-empty form of a
    line of the text.  In [build/generate_epub.py], when it does not satisfy
    the poem-intro rule, it is a poem line exactly when it is shorter than 40
    characters and ends with one of 。，？！, and a paragraph otherwise; when
    it satisfies the poem-intro rule it is a poem introduction whatever its
    length and ending, so only the first rule that matches applies.  In the
    older [generate_epub.py] the round of the loop on a line with this
    trimmed form appends the markup of a poem line exactly when the line
    does not satisfy the poem-intro rule of that script, is shorter than 20
    characters and ends with 。 or ，; in every other case it appends a plain
    paragraph. *)
Theorem short_verse_rule (text : str) (k : kind) (line : str) :
  In (k, line) (typed_lines text) ->
  (exists raw, In raw (Str.split nl (wrap_comments (escape text)))
               /\ line = Str.strip raw /\ line <> [])
  /\ (is_poem_intro line = true -> k = PoemIntro)
  /\ (is_poem_intro line = false ->
      (k = PoemLine <->
       length line < 40 /\ ends_with_one_of sentence_final line)
      /\ (k <> PoemLine -> k = Paragraph))
  /\ (forall raw, Str.strip raw = line ->
      (PerChapter.line_step raw = [render PoemLine line] <->
       PerChapter.is_poem_intro line = false
       /\ length line < 20 /\ ends_with_one_of older_sentence_final line)
      /\ (PerChapter.line_step raw <> [render PoemLine line] ->
          PerChapter.line_step raw = [render Paragraph line])).
Proof.
  intros Hin.
  destruct (typed_lines_in _ _ _ Hin) as (raw & Hraw & Hline & Hne & Hk).
  split; [now exists raw|].
  unfold classify_line in Hk. split; [|split].
  - intros Hi. now rewrite Hi in Hk.
  - intros Hi. rewrite Hi in Hk. rewrite <- short_verse_iff.
    destruct (is_short_verse line); subst k; split;
      try (split; congruence); congruence.
  - intros raw' Hraw'. rewrite older_line_step by (now rewrite Hraw').
    rewrite Hraw', <- older_short_verse_iff. unfold older_kind.
    pose proof (@poem_line_not_plain line) as Hdiff.
    destruct (PerChapter.is_poem_intro line).
    + cbv beta iota. split.
      * split; [intros H; destruct (Hdiff H)|intros [H _]; discriminate H].
      * intros _. reflexivity.
    + destruct (PerChapter.is_short_verse line); cbv beta iota.
      * split; [|intros H; now destruct H].
        split; [intros _; split; reflexivity|intros _; reflexivity].
      * split; [|intros _; reflexivity].
        split; [intros H; destruct (Hdiff H)|intros [_ H]; discriminate H].
Qed.

Lemma short_verse_rule_witness :
  In (PoemLine, utf8 "这是正文。") (typed_lines (utf8 "这是正文。"))
  /\ (PoemLine = PoemLine <->
      length (utf8 "这是正文。") < 40
      /\ ends_with_one_of sentence_final (utf8 "这是正文。"))
  /\ (PerChapter.line_step (utf8 "  这是正文。") =
        [render PoemLine (utf8 "这是正文。")] <->
      PerChapter.is_poem_intro (utf8 "这是正文。") = false
      /\ length (utf8 "这是正文。") < 20
      /\ ends_with_one_of older_sentence_final (utf8 "这是正文。")).
Proof.
  assert (H : In (PoemLine, utf8 "这是正文。") (typed_lines (utf8 "这是正文。")))
    by (vm_compute; left; reflexivity).
  split; [exact H|]. split.
  - apply (short_verse_rule _ _ _ H). vm_compute; reflexivity.
  - apply (short_verse_rule _ _ _ H). vm_compute; reflexivity.
Defined.


(** The older script has its own rule: a line of 25 characters that ends
    with a full stop, and a short line that ends with a question mark, are
    poem lines for [build/generate_epub.py] and plain paragraphs for
    [generate_epub.py]. *)
Example older_script_rule :
  let long := utf8 "一二三四五六七八九十一二三四五六七八九十一二三四。" in
  let asks := utf8 "谁解其中味？" in
  map fst (typed_lines (long ++ [nl] ++ asks)) = [PoemLine; PoemLine]
  /\ PerChapter.process_text (long ++ [nl] ++ asks) =
       utf8 "<p>" ++ long ++ utf8 "</p>" ++ [nl]
       ++ utf8 "<p>" ++ asks ++ utf8 "</p>".
Proof. cbv zeta. split; vm_compute; reflexivity. Qed.

(** ** The comment wrapping scan *)
Section CommentScan.

Lemma lazy_close_head (rest : str) :
  forall pos g,
    hd_error (flat_map (Re.rmatch (Re.Lit close_glyph))
                (Re.lazy Re.dot pos rest g)) =
    match find_close rest with
    | Some (inner, rest') =>
        Some (Re.MState (pos + length inner + 1) rest' g)
    | None => None
    end.
Proof.
  induction rest as [|c t IH]; intros pos g; [reflexivity|].
  cbn [Re.lazy flat_map Re.rmatch Re.step Re.m_rest Re.m_pos Re.m_groups
       find_close].
  destruct (close_glyph =? c)%N eqn:Ec.
  - cbn. f_equal. f_equal. lia.
  - cbn [app]. unfold Re.dot. destruct (c =? nl)%N eqn:En; cbn [negb].
    + reflexivity.
    + rewrite IH. destruct (find_close t) as [[inner rest']|];
        [|reflexivity].
      cbn [length]. f_equal. f_equal. lia.
Qed.

Lemma rmatch_seq (r1 r2 : Re.regex) (st : Re.mstate) :
  Re.rmatch (Re.Seq r1 r2) st = flat_map (Re.rmatch r2) (Re.rmatch r1 st).
Proof. reflexivity. Qed.

Lemma rmatch_grp (n : nat) (r : Re.regex) (st : Re.mstate) :
  Re.rmatch (Re.Grp n r) st =
  map (Re.close_group n (Re.m_pos st)) (Re.rmatch r st).
Proof. reflexivity. Qed.

Lemma match_at_head (r : Re.regex) (pos : nat) (rest : str) :
  Re.match_at r pos rest =
  option_map (Re.MatchObj pos) (hd_error (Re.rmatch r (Re.MState pos rest []))).
Proof. unfold Re.match_at. now destruct (Re.rmatch r _). Qed.

Lemma hd_error_map (A B : Type) (f : A -> B) (l : list A) :
  hd_error (map f l) = option_map f (hd_error l).
Proof. now destruct l. Qed.

(** The match of the comment pattern at a position: from an opening glyph
    to the nearest closing glyph of the line. *)
Lemma comment_match_at (pos : nat) (s : str) :
  Re.match_at comment_re pos s =
  match s with
  | c :: t =>
      if (open_glyph =? c)%N then
        match find_close t with
        | Some (inner, rest') =>
            Some (Re.MatchObj pos
                    (Re.MState (pos + length inner + 2) rest'
                       [(1, (pos, pos + length inner + 2))]))
        | None => None
        end
      else None
  | [] => None
  end.
Proof.
  rewrite match_at_head.
  change comment_re with
    (Re.Grp 1 (Re.Seq (Re.Lit open_glyph)
                 (Re.Seq (Re.LazyStar Re.dot) (Re.Lit close_glyph)))).
  rewrite rmatch_grp, hd_error_map, rmatch_seq.
  change (Re.rmatch (Re.Lit open_glyph) (Re.MState pos s []))
    with (Re.step (N.eqb open_glyph) (Re.MState pos s [])).
  unfold Re.step. cbn [Re.m_rest Re.m_pos Re.m_groups].
  destruct s as [|c t]; [reflexivity|].
  destruct (open_glyph =? c)%N; [|reflexivity].
  cbn [flat_map]. rewrite app_nil_r, rmatch_seq.
  change (Re.rmatch (Re.LazyStar Re.dot) (Re.MState (S pos) t []))
    with (Re.lazy Re.dot (S pos) t []).
  rewrite lazy_close_head.
  destruct (find_close t) as [[inner rest']|]; [|reflexivity].
  cbn. unfold Re.close_group. cbn. repeat f_equal; lia.
Qed.

Lemma close_not_nl : (close_glyph =? nl)%N = false.
Proof. reflexivity. Qed.

Lemma open_not_close : (open_glyph =? close_glyph)%N = false.
Proof. reflexivity. Qed.

Lemma open_not_nl : (open_glyph =? nl)%N = false.
Proof. reflexivity. Qed.

Lemma find_close_some (t inner rest' : str) :
  find_close t = Some (inner, rest') ->
  t = inner ++ close_glyph :: rest'
  /\ ~ In nl inner /\ ~ In close_glyph inner.
Proof.
  revert inner. induction t as [|c t IH]; intros inner H; [discriminate|].
  cbn [find_close] in H.
  destruct (close_glyph =? c)%N eqn:Ec.
  - injection H as <- <-. apply N.eqb_eq in Ec. subst c. now repeat split.
  - destruct (c =? nl)%N eqn:En; [discriminate|].
    destruct (find_close t) as [[i r]|]; [|discriminate].
    injection H as <- <-. destruct (IH i eq_refl) as (-> & Hnl & Hcl).
    apply N.eqb_neq in Ec, En.
    repeat split; simpl; intros [?|?]; congruence || auto.
Qed.

Lemma find_close_intro (inner rest' : str) :
  ~ In nl inner -> ~ In close_glyph inner ->
  find_close (inner ++ close_glyph :: rest') = Some (inner, rest').
Proof.
  induction inner as [|c inner IH]; intros Hnl Hcl; cbn [app find_close].
  - now rewrite N.eqb_refl.
  - simpl in Hnl, Hcl.
    replace (close_glyph =? c)%N with false
      by (symmetry; apply N.eqb_neq; intuition congruence).
    replace (c =? nl)%N with false
      by (symmetry; apply N.eqb_neq; intuition congruence).
    rewrite IH by intuition. reflexivity.
Qed.

(** A span never runs over a line break. *)
Lemma find_close_app_nl (t w : str) :
  find_close (t ++ nl :: w) =
  match find_close t with
  | Some (inner, rest') => Some (inner, rest' ++ nl :: w)
  | None => None
  end.
Proof.
  induction t as [|c t IH]; cbn [app find_close].
  - now rewrite close_not_nl, N.eqb_refl.
  - destruct (close_glyph =? c)%N; [reflexivity|].
    destruct (c =? nl)%N; [reflexivity|].
    rewrite IH. now destruct (find_close t) as [[i r]|].
Qed.

Lemma find_close_none (m : str) :
  ~ In close_glyph m -> find_close m = None.
Proof.
  induction m as [|c m IH]; intros H; [reflexivity|].
  cbn [find_close]. simpl in H.
  replace (close_glyph =? c)%N with false
    by (symmetry; apply N.eqb_neq; intuition congruence).
  destruct (c =? nl)%N; [reflexivity|].
  rewrite IH by intuition. reflexivity.
Qed.

Lemma sub_from_skip (r : Re.regex) (tpl : list Re.tpl_item) (text : str)
    (k : nat) :
  forall pos rest,
    k <= length rest ->
    Re.sub_from r tpl text k pos rest =
    Re.sub_from r tpl text 0 (pos + k) (skipn k rest).
Proof.
  induction k as [|k IH]; intros pos rest Hk.
  - now rewrite Nat.add_0_r.
  - destruct rest as [|c t]; [simpl in Hk; lia|].
    cbn [Re.sub_from skipn]. rewrite IH by (simpl in Hk; lia).
    f_equal. lia.
Qed.

Lemma expand_comment (text : str) (pos e : nat) (rest' : str) :
  Re.expand comment_tpl text
    (Re.MatchObj pos (Re.MState e rest' [(1, (pos, e))])) =
  span_open ++ firstn (e - pos) (skipn pos text) ++ span_close.
Proof.
  unfold Re.expand, comment_tpl, Re.group, Str.slice.
  cbn [flat_map Re.mo_final Re.m_groups Re.span_of Nat.eqb].
  now rewrite app_nil_r.
Qed.

Lemma skipn_cons_next (text : str) (pos : nat) (c : codepoint) (t : str) :
  skipn pos text = c :: t -> skipn (S pos) text = t.
Proof.
  intros H. change (S pos) with (1 + pos).
  now rewrite <- skipn_skipn, H.
Qed.

(** One step of the comment wrapping scan. *)
Lemma wrap_at_eq (text : str) (pos : nat) :
  wrap_at text pos =
  match skipn pos text with
  | [] => []
  | c :: t =>
      if (open_glyph =? c)%N then
        match find_close t with
        | Some (inner, _) =>
            span_open ++ c :: inner ++ close_glyph :: span_close
            ++ wrap_at text (pos + length inner + 2)
        | None => c :: wrap_at text (S pos)
        end
      else c :: wrap_at text (S pos)
  end.
Proof.
  unfold wrap_at. destruct (skipn pos text) as [|c t] eqn:E.
  - cbn [Re.sub_from]. now rewrite comment_match_at.
  - cbn [Re.sub_from]. rewrite comment_match_at.
    rewrite (skipn_cons_next _ _ E).
    destruct (open_glyph =? c)%N; [|reflexivity].
    destruct (find_close t) as [[inner rest']|] eqn:F; [|reflexivity].
    destruct (find_close_some _ F) as (Ht & _ & _).
    unfold Re.mo_end. cbn [Re.mo_final Re.m_pos].
    replace (pos + length inner + 2 =? pos) with false
      by (symmetry; apply Nat.eqb_neq; lia).
    replace (pos + length inner + 2 - pos - 1) with (length inner + 1) by lia.
    rewrite sub_from_skip by (subst t; rewrite length_app; simpl; lia).
    rewrite expand_comment, E.
    replace (S pos + (length inner + 1)) with (pos + length inner + 2) by lia.
    replace (skipn (pos + length inner + 2) text)
      with (skipn (length inner + 1) t).
    2:{ replace (pos + length inner + 2) with (S (length inner + 1) + pos)
          by lia.
        now rewrite <- (skipn_skipn (S (length inner + 1)) pos text), E. }
    subst t.
    replace (pos + length inner + 2 - pos) with (S (length inner + 1)) by lia.
    cbn [firstn].
    rewrite firstn_app, firstn_all2 by lia.
    replace (length inner + 1 - length inner) with 1 by lia.
    cbn [firstn]. rewrite <- !app_assoc. cbn [app].
    rewrite <- !app_assoc. reflexivity.
Qed.

Lemma skipn_past_span (text : str) (pos : nat) (c : codepoint)
    (inner rest' : str) :
  skipn pos text = c :: inner ++ close_glyph :: rest' ->
  skipn (pos + length inner + 2) text = rest'.
Proof.
  intros H.
  replace (pos + length inner + 2) with (S (length inner + 1) + pos) by lia.
  rewrite <- (skipn_skipn (S (length inner + 1)) pos text), H.
  cbn [skipn]. rewrite skipn_app, skipn_all2 by lia.
  replace (length inner + 1 - length inner) with 1 by lia. reflexivity.
Qed.

(** The scan from a position depends on the text from that position on
    only. *)
Lemma wrap_at_suffix (n : nat) :
  forall text pos text' pos',
    skipn pos text = skipn pos' text' ->
    length (skipn pos text) <= n ->
    wrap_at text pos = wrap_at text' pos'.
Proof.
  induction n as [|n IH]; intros text pos text' pos' H Hn;
    rewrite (wrap_at_eq text pos), (wrap_at_eq text' pos'), <- H;
    destruct (skipn pos text) as [|c t] eqn:E; try reflexivity;
    [simpl in Hn; lia|].
  symmetry in H.
  assert (Ht : forall text0 pos0, skipn pos0 text0 = c :: t ->
                 skipn (S pos0) text0 = t)
    by (intros; eapply skipn_cons_next; eassumption).
  assert (Hnext : wrap_at text (S pos) = wrap_at text' (S pos')).
  { apply IH; rewrite (Ht _ _ E); [now rewrite (Ht _ _ H)|].
    simpl in Hn. lia. }
  destruct (open_glyph =? c)%N; [|now rewrite Hnext].
  destruct (find_close t) as [[inner rest']|] eqn:F; [|now rewrite Hnext].
  destruct (find_close_some _ F) as (-> & _ & _).
  do 5 f_equal.
  apply IH; rewrite (@skipn_past_span _ _ _ _ _ E);
    [now rewrite (@skipn_past_span _ _ _ _ _ H)|].
  simpl in Hn. rewrite length_app in Hn. simpl in Hn. lia.
Qed.

Lemma wrap_at_comments (text : str) (pos : nat) :
  wrap_at text pos = wrap_comments (skipn pos text).
Proof.
  change (wrap_comments (skipn pos text)) with (wrap_at (skipn pos text) 0).
  now apply (wrap_at_suffix (n := length (skipn pos text))).
Qed.

(** The comment wrapping of a text, one span or one character at a time. *)
Lemma wrap_comments_eq (s : str) :
  wrap_comments s =
  match s with
  | [] => []
  | c :: t =>
      if (open_glyph =? c)%N then
        match find_close t with
        | Some (inner, rest') =>
            span_open ++ c :: inner ++ close_glyph :: span_close
            ++ wrap_comments rest'
        | None => c :: wrap_comments t
        end
      else c :: wrap_comments t
  end.
Proof.
  change (wrap_comments s) with (wrap_at s 0).
  rewrite wrap_at_eq. cbn [skipn]. destruct s as [|c t]; [reflexivity|].
  rewrite !wrap_at_comments. cbn [skipn].
  destruct (open_glyph =? c)%N; [|reflexivity].
  destruct (find_close t) as [[inner rest']|] eqn:F; [|reflexivity].
  destruct (find_close_some _ F) as (-> & _ & _).
  rewrite wrap_at_comments. do 6 f_equal.
  apply (@skipn_past_span (c :: inner ++ close_glyph :: rest') 0 c inner rest'
           eq_refl).
Qed.

Lemma wrap_nil : wrap_comments [] = [].
Proof. now rewrite wrap_comments_eq. Qed.

Lemma wrap_other (c : codepoint) (t : str) :
  (open_glyph =? c)%N = false ->
  wrap_comments (c :: t) = c :: wrap_comments t.
Proof. intros H. now rewrite wrap_comments_eq, H. Qed.

Lemma wrap_open_none (t : str) :
  find_close t = None ->
  wrap_comments (open_glyph :: t) = open_glyph :: wrap_comments t.
Proof. intros H. now rewrite wrap_comments_eq, N.eqb_refl, H. Qed.

Lemma wrap_open_some (t inner rest' : str) :
  find_close t = Some (inner, rest') ->
  wrap_comments (open_glyph :: t) =
  span_open ++ open_glyph :: inner ++ close_glyph :: span_close
  ++ wrap_comments rest'.
Proof. intros H. now rewrite wrap_comments_eq, N.eqb_refl, H. Qed.

Lemma length_ind (P : str -> Prop) :
  (forall s, (forall t, length t < length s -> P t) -> P s) ->
  forall s, P s.
Proof.
  intros H s. remember (length s) as n eqn:E. revert s E.
  induction n as [n IH] using lt_wf_ind. intros s ->.
  apply H. intros t Ht. now apply (IH (length t)).
Qed.

Ltac list_nf := repeat first [rewrite <- app_assoc | progress cbn [app]].

(** Wrapping goes line by line: no span runs over a line break. *)
Lemma wrap_app_nl (u w : str) :
  wrap_comments (u ++ nl :: w) = wrap_comments u ++ nl :: wrap_comments w.
Proof.
  induction u as [u IH] using length_ind. destruct u as [|c t].
  - cbn [app]. rewrite wrap_other by exact open_not_nl. now rewrite wrap_nil.
  - cbn [app].
    rewrite (wrap_comments_eq (c :: t ++ nl :: w)), (wrap_comments_eq (c :: t)).
    rewrite find_close_app_nl.
    assert (Ht : wrap_comments (t ++ nl :: w) =
                 wrap_comments t ++ nl :: wrap_comments w)
      by (apply IH; simpl; lia).
    destruct (open_glyph =? c)%N; [|now rewrite Ht].
    destruct (find_close t) as [[inner r]|] eqn:F; [|now rewrite Ht].
    destruct (find_close_some _ F) as (-> & _ & _).
    rewrite IH by (simpl; rewrite length_app; simpl; lia).
    list_nf. reflexivity.
Qed.

(** Text without an opening glyph is left as it is. *)
Lemma wrap_no_open (m v : str) :
  ~ In open_glyph m -> wrap_comments (m ++ v) = m ++ wrap_comments v.
Proof.
  induction m as [|c m IH]; intros H; [reflexivity|].
  simpl in H. cbn [app].
  rewrite wrap_other by (apply N.eqb_neq; intuition congruence).
  rewrite IH by intuition. reflexivity.
Qed.

(** Text without a closing glyph is left as it is. *)
Lemma wrap_no_close (s : str) :
  ~ In close_glyph s -> wrap_comments s = s.
Proof.
  induction s as [|c t IH]; intros H; [apply wrap_nil|].
  simpl in H. rewrite wrap_comments_eq.
  rewrite find_close_none, IH by intuition.
  now destruct (open_glyph =? c)%N.
Qed.

Lemma find_close_app (t s : str) :
  find_close s = None ->
  find_close (t ++ s) =
  match find_close t with
  | Some (inner, rest') => Some (inner, rest' ++ s)
  | None => None
  end.
Proof.
  intros Hs. induction t as [|c t IH]; cbn [app find_close]; [exact Hs|].
  destruct (close_glyph =? c)%N; [reflexivity|].
  destruct (c =? nl)%N; [reflexivity|].
  rewrite IH. now destruct (find_close t) as [[i r]|].
Qed.

(** Before a text whose first line holds no closing glyph, wrapping is
    the wrapping of what comes before it. *)
Lemma wrap_app_unclosed (a s : str) :
  find_close s = None ->
  wrap_comments (a ++ s) = wrap_comments a ++ wrap_comments s.
Proof.
  intros Hs. induction a as [a IH] using length_ind. destruct a as [|c t].
  - now rewrite wrap_nil.
  - cbn [app].
    rewrite (wrap_comments_eq (c :: t ++ s)), (wrap_comments_eq (c :: t)).
    rewrite find_close_app by exact Hs.
    assert (Ht : wrap_comments (t ++ s) = wrap_comments t ++ wrap_comments s)
      by (apply IH; simpl; lia).
    destruct (open_glyph =? c)%N; [|now rewrite Ht].
    destruct (find_close t) as [[inner r]|] eqn:F; [|now rewrite Ht].
    destruct (find_close_some _ F) as (-> & _ & _).
    rewrite IH by (simpl; rewrite length_app; simpl; lia).
    list_nf. reflexivity.
Qed.

End CommentScan.

(** ** Escaping *)
Section Escaping.

Lemma replace_app (old : codepoint) (new a b : str) :
  Str.replace old new (a ++ b) = Str.replace old new a ++ Str.replace old new b.
Proof. apply flat_map_app. Qed.

Lemma replace_cons_other (old : codepoint) (new : str) (c : codepoint)
    (s : str) :
  (c =? old)%N = false ->
  Str.replace old new (c :: s) = c :: Str.replace old new s.
Proof. intros H. unfold Str.replace. cbn [flat_map]. now rewrite H. Qed.

Lemma escape_app (a b : str) : escape (a ++ b) = escape a ++ escape b.
Proof. unfold escape. now rewrite !replace_app. Qed.

(** A character other than the three reserved ones is left as it is. *)
Lemma escape_cons_other (c : codepoint) (s : str) :
  reserved c = false -> escape (c :: s) = c :: escape s.
Proof.
  unfold reserved. intros H.
  apply orb_false_iff in H as [H Hgt]. apply orb_false_iff in H as [Hamp Hlt].
  unfold escape. now rewrite !replace_cons_other.
Qed.

Lemma escape_keeps (x : codepoint) (s : str) :
  ~ In x (utf8 "<>&amp;&lt;&gt;") -> In x (escape s) <-> In x s.
Proof.
  intros Hx. induction s as [|c s IH]; [reflexivity|].
  destruct (reserved c) eqn:Hc.
  - change (c :: s) with ([c] ++ s). rewrite escape_app, in_app_iff, IH.
    cbn [app In]. unfold reserved in Hc.
    assert (Hout : ~ In x (escape [c]) /\ c <> x).
    { repeat (apply orb_true_iff in Hc as [Hc|Hc]);
        apply N.eqb_eq in Hc; subst c;
        (split; [vm_compute; intros H|intros H]);
        repeat (destruct H as [H|H]);
        try (subst x; apply Hx; vm_compute; tauto); exact H. }
    intuition congruence.
  - rewrite escape_cons_other by exact Hc. cbn [In]. now rewrite IH.
Qed.

Lemma escape_keeps_nl (s : str) : In nl (escape s) <-> In nl s.
Proof. apply escape_keeps. vm_compute. intuition discriminate. Qed.

Lemma escape_keeps_open (s : str) :
  In open_glyph (escape s) <-> In open_glyph s.
Proof. apply escape_keeps. vm_compute. intuition discriminate. Qed.

Lemma escape_keeps_close (s : str) :
  In close_glyph (escape s) <-> In close_glyph s.
Proof. apply escape_keeps. vm_compute. intuition discriminate. Qed.

End Escaping.

(** ** Spans over a line break (C10) *)

(** C10, as stated, does not hold for the closing glyph: in the text
    "【甲", line break, "【乙】" the first opening glyph and the next closing
    glyph are separated by a line break, yet the closing glyph comes out
    inside a comment marker, that of the span 【乙】 of its own line. *)
Lemma closing_glyph_in_later_span :
  let mid := utf8 "甲" ++ [nl] ++ utf8 "【乙" in
  In nl mid /\ ~ In close_glyph mid
  /\ wrap_comments (escape ([] ++ open_glyph :: mid ++ close_glyph :: [])) <>
       wrap_comments (escape []) ++ open_glyph :: wrap_comments (escape mid)
       ++ close_glyph :: wrap_comments (escape [])
  /\ wrap_comments (escape ([] ++ open_glyph :: mid ++ close_glyph :: [])) =
       utf8 "【甲" ++ [nl] ++ span_open ++ utf8 "【乙】" ++ span_close.
Proof.
  cbv zeta. split; [|split; [|split]].
  - vm_compute. tauto.
  - vm_compute. intuition discriminate.
  - vm_compute. discriminate.
  - vm_compute. reflexivity.
Qed.

(** C10 (amended): when an opening glyph is followed by a line break with
    no closing glyph in between, the wrapping step puts no marker at it: the
    output is the wrapping of the escaped text before it, the glyph, the
    escaped text up to the line break unchanged, the line break, and the
    wrapping of what follows.  When what follows runs to a closing glyph
    with no further opening glyph before it, that closing glyph too comes
    out with no marker around it, after the escaped text unchanged.  (A
    further opening glyph on the closing glyph's line forms a span with it,
    which is wrapped.) *)
Theorem cross_line_span (a m1 r : str) :
  ~ In close_glyph m1 ->
  wrap_comments (escape (a ++ open_glyph :: m1 ++ nl :: r)) =
    wrap_comments (escape a) ++ open_glyph :: escape m1
    ++ nl :: wrap_comments (escape r)
  /\ forall m2 b,
       r = m2 ++ close_glyph :: b -> ~ In open_glyph m2 ->
       wrap_comments (escape (a ++ open_glyph :: m1 ++ nl :: r)) =
         wrap_comments (escape a) ++ open_glyph :: escape m1
         ++ nl :: escape m2 ++ close_glyph :: wrap_comments (escape b).
Proof.
  intros Hm1.
  assert (H1 : wrap_comments (escape (a ++ open_glyph :: m1 ++ nl :: r)) =
               wrap_comments (escape a) ++ open_glyph :: escape m1
               ++ nl :: wrap_comments (escape r)).
  { rewrite escape_app, escape_cons_other, escape_app, escape_cons_other
      by reflexivity.
    assert (Hc : find_close (escape m1 ++ nl :: escape r) = None).
    { rewrite find_close_app_nl, find_close_none; [reflexivity|].
      now rewrite escape_keeps_close. }
    rewrite wrap_app_unclosed.
    - rewrite wrap_open_none by exact Hc. rewrite wrap_app_nl.
      rewrite (wrap_no_close (escape m1)) by now rewrite escape_keeps_close.
      reflexivity.
    - cbn [find_close]. rewrite N.eqb_sym, open_not_close, open_not_nl.
      now rewrite Hc. }
  split; [exact H1|].
  intros m2 b Hr Hm2. rewrite H1. do 4 f_equal. subst r.
  rewrite escape_app, escape_cons_other by reflexivity.
  rewrite wrap_no_open by now rewrite escape_keeps_open.
  now rewrite wrap_other by exact open_not_close.
Qed.

Lemma cross_line_span_witness :
  ~ In close_glyph (utf8 "甲")
  /\ wrap_comments
       (escape ([] ++ open_glyph :: utf8 "甲" ++ nl :: utf8 "乙】丙")) =
     wrap_comments (escape []) ++ open_glyph :: escape (utf8 "甲")
     ++ nl :: escape (utf8 "乙") ++ close_glyph :: wrap_comments (escape (utf8 "丙")).
Proof.
  assert (H : ~ In close_glyph (utf8 "甲"))
    by (vm_compute; intuition discriminate).
  split; [exact H|].
  refine (proj2 (cross_line_span [] (utf8 "甲") (utf8 "乙】丙") H)
            (utf8 "乙") (utf8 "丙") eq_refl _).
  vm_compute. intuition discriminate.
Defined.

(** ** Lines *)
Section Lines.

Lemma split_no_nl (s : str) : ~ In nl s -> Str.split nl s = [s].
Proof.
  induction s as [|c s IH]; intros H; [reflexivity|].
  simpl in H. cbn [Str.split].
  replace (c =? nl)%N with false
    by (symmetry; apply N.eqb_neq; intuition congruence).
  rewrite IH by intuition. reflexivity.
Qed.

Lemma split_line (h r : str) :
  ~ In nl h -> Str.split nl (h ++ nl :: r) = h :: Str.split nl r.
Proof.
  induction h as [|c h IH]; intros H; cbn [app Str.split].
  - now rewrite N.eqb_refl.
  - simpl in H.
    replace (c =? nl)%N with false
      by (symmetry; apply N.eqb_neq; intuition congruence).
    rewrite IH by intuition. reflexivity.
Qed.

(** A text is one line, or a first line, a line break and more text. *)
Lemma first_line (s : str) :
  ~ In nl s \/ exists h r, s = h ++ nl :: r /\ ~ In nl h.
Proof.
  induction s as [|c s IH]; [left; intros []|].
  destruct (N.eqb_spec c nl) as [->|Hc].
  - right. exists [], s. split; [reflexivity|intros []].
  - destruct IH as [IH|(h & r & -> & Hh)].
    + left. simpl. intuition congruence.
    + right. exists (c :: h), r. split; [reflexivity|].
      simpl. intuition congruence.
Qed.

(** A transformation that works line by line commutes with the split into
    lines. *)
Lemma split_map_lines (f : str -> str) :
  (forall h r, f (h ++ nl :: r) = f h ++ nl :: f r) ->
  (forall h, ~ In nl h -> ~ In nl (f h)) ->
  forall s, Str.split nl (f s) = map f (Str.split nl s).
Proof.
  intros Hnl Hline s. induction s as [s IH] using length_ind.
  destruct (first_line s) as [Hs|(h & r & -> & Hh)].
  - rewrite (split_no_nl s Hs). apply split_no_nl. now apply Hline.
  - rewrite Hnl, !split_line by auto. cbn [map]. f_equal.
    apply IH. rewrite length_app. simpl. lia.
Qed.

Lemma wrap_keeps_line (s : str) : ~ In nl s -> ~ In nl (wrap_comments s).
Proof.
  induction s as [s IH] using length_ind. intros Hs.
  rewrite wrap_comments_eq. destruct s as [|c t]; [exact Hs|].
  assert (Ht : ~ In nl (c :: wrap_comments t)).
  { simpl in Hs. simpl. intros [H|H]; [tauto|].
    revert H. apply IH; [simpl; lia|tauto]. }
  destruct (open_glyph =? c)%N; [|exact Ht].
  destruct (find_close t) as [[inner r]|] eqn:F; [|exact Ht].
  destruct (find_close_some _ F) as (-> & Hi & _).
  assert (Hr : ~ In nl (wrap_comments r)).
  { apply IH; [simpl; rewrite length_app; simpl; lia|].
    intros H. apply Hs. right. apply in_or_app. right. now right. }
  assert (Hc : c <> nl) by (intros ->; apply Hs; now left).
  rewrite in_app_iff. cbn [In]. rewrite in_app_iff. cbn [In].
  rewrite in_app_iff.
  assert (Ho : ~ In nl span_open) by (vm_compute; intuition discriminate).
  assert (Hcl : ~ In nl span_close) by (vm_compute; intuition discriminate).
  assert (Hg : close_glyph <> nl) by discriminate.
  intuition congruence.
Qed.

Lemma split_wrap (s : str) :
  Str.split nl (wrap_comments s) = map wrap_comments (Str.split nl s).
Proof. apply split_map_lines; [apply wrap_app_nl|apply wrap_keeps_line]. Qed.

Lemma split_escape (s : str) :
  Str.split nl (escape s) = map escape (Str.split nl s).
Proof.
  apply split_map_lines.
  - intros h r. now rewrite escape_app, escape_cons_other.
  - intros h. now rewrite escape_keeps_nl.
Qed.

End Lines.

(** ** Blank lines (C7) *)
Section Blank.

Lemma lstrip_nil_iff (s : str) :
  Str.lstrip s = [] <-> forallb isspace s = true.
Proof.
  induction s as [|c s IH]; [now split|].
  cbn [Str.lstrip forallb]. destruct (isspace c); cbn [andb];
    [exact IH|split; discriminate].
Qed.

Lemma forallb_lstrip (s : str) :
  forallb isspace (Str.lstrip s) = forallb isspace s.
Proof.
  induction s as [|c s IH]; [reflexivity|].
  cbn [Str.lstrip]. destruct (isspace c) eqn:E; cbn [forallb]; rewrite E;
    [exact IH|reflexivity].
Qed.

Lemma forallb_rev (f : codepoint -> bool) (s : str) :
  forallb f (rev s) = forallb f s.
Proof.
  induction s as [|c s IH]; [reflexivity|].
  cbn [rev forallb]. rewrite forallb_app, IH. cbn [forallb].
  rewrite andb_true_r. apply andb_comm.
Qed.

(** [strip] leaves nothing exactly of the empty and the whitespace-only
    lines. *)
Lemma blank_spaces (s : str) : blank s = forallb isspace s.
Proof.
  assert (H : Str.strip s = [] <-> forallb isspace s = true).
  { unfold Str.strip, Str.rstrip. split.
    - intros H. apply (f_equal (@rev codepoint)) in H.
      rewrite rev_involutive in H. cbn [rev] in H.
      apply lstrip_nil_iff in H. now rewrite forallb_rev, forallb_lstrip in H.
    - intros H. rewrite <- forallb_lstrip, <- forallb_rev in H.
      apply lstrip_nil_iff in H. now rewrite H. }
  unfold blank. destruct (Str.strip s) as [|c l].
  - symmetry. now apply H.
  - destruct (forallb isspace s); [|reflexivity].
    destruct H as [_ H]. discriminate (H eq_refl).
Qed.

Lemma spaces_escape (s : str) :
  forallb isspace (escape s) = forallb isspace s.
Proof.
  induction s as [|c s IH]; [reflexivity|].
  destruct (reserved c) eqn:Hc.
  - change (c :: s) with ([c] ++ s). rewrite escape_app, !forallb_app, IH.
    f_equal. unfold reserved in Hc.
    repeat (apply orb_true_iff in Hc as [Hc|Hc]);
      apply N.eqb_eq in Hc; subst c; reflexivity.
  - rewrite escape_cons_other by exact Hc. cbn [forallb]. now rewrite IH.
Qed.

Lemma spaces_wrap (s : str) :
  forallb isspace (wrap_comments s) = forallb isspace s.
Proof.
  induction s as [s IH] using length_ind.
  rewrite wrap_comments_eq. destruct s as [|c t]; [reflexivity|].
  assert (Ht : forallb isspace (c :: wrap_comments t) = forallb isspace (c :: t))
    by (cbn [forallb]; rewrite IH by (simpl; lia); reflexivity).
  destruct (open_glyph =? c)%N eqn:Ec; [|exact Ht].
  destruct (find_close t) as [[inner r]|]; [|exact Ht].
  apply N.eqb_eq in Ec. subst c.
  rewrite forallb_app. reflexivity.
Qed.

Lemma flat_map_map (A B C : Type) (f : B -> list C) (g : A -> B) (l : list A) :
  flat_map f (map g l) = flat_map (fun x => f (g x)) l.
Proof. induction l as [|x l IH]; [reflexivity|]. cbn. now rewrite IH. Qed.

Lemma flat_map_length_le (A B : Type) (f : A -> list B) (l : list A) :
  (forall x, length (f x) <= 1) -> length (flat_map f l) <= length l.
Proof.
  intros H. induction l as [|x l IH]; [reflexivity|].
  cbn [flat_map]. rewrite length_app. specialize (H x). simpl. lia.
Qed.

End Blank.

(** C7: the emitted lines are got from the lines of the source text one
    by one and in their order: an empty or whitespace-only line gives
    nothing, every other line gives exactly one emitted line, its escaped,
    wrapped and trimmed form; so there are as many emitted lines as source
    lines that are not blank, and at most as many as source lines. *)
Theorem one_line_per_nonblank_line (text : str) :
  typed_lines text =
    flat_map (fun raw =>
                if forallb isspace raw then []
                else [(classify_line (Str.strip (wrap_comments (escape raw))),
                       Str.strip (wrap_comments (escape raw)))])
             (Str.split nl text)
  /\ length (typed_lines text) =
       length (filter (fun raw => negb (forallb isspace raw))
                 (Str.split nl text))
  /\ length (typed_lines text) <= length (Str.split nl text).
Proof.
  assert (H : typed_lines text =
    flat_map (fun raw =>
                if forallb isspace raw then []
                else [(classify_line (Str.strip (wrap_comments (escape raw))),
                       Str.strip (wrap_comments (escape raw)))])
             (Str.split nl text)).
  { unfold typed_lines. rewrite split_wrap, split_escape, !flat_map_map.
    apply flat_map_ext. intros raw.
    pose proof (blank_spaces (wrap_comments (escape raw))) as Hb.
    rewrite spaces_wrap, spaces_escape in Hb. unfold blank in Hb.
    unfold line_step.
    destruct (Str.strip (wrap_comments (escape raw))); now rewrite <- Hb. }
  split; [exact H|]. rewrite H. clear H. split.
  - induction (Str.split nl text) as [|raw l IH]; [reflexivity|].
    cbn [flat_map filter]. rewrite length_app, IH.
    now destruct (forallb isspace raw).
  - apply flat_map_length_le. intros raw.
    destruct (forallb isspace raw); simpl; lia.
Qed.

(** ** The fallback split (C3) *)
Section Fallback.

Lemma nonempty_app (A : Type) (l1 l2 : list A) :
  nonempty (l1 ++ l2) = nonempty l1 || nonempty l2.
Proof. now destruct l1. Qed.

Lemma match_at_nonempty (r : Re.regex) (pos : nat) (rest : str) :
  is_some (Re.match_at r pos rest) =
  nonempty (Re.rmatch r (Re.MState pos rest [])).
Proof. unfold Re.match_at. now destruct (Re.rmatch r _). Qed.

(** After a greedy run of whitespace, a pattern that cannot start with
    whitespace goes on where the whitespace ends: giving back part of the
    run never helps. *)
Lemma greedy_then (r : Re.regex) :
  (forall p c t g, isspace c = true -> Re.rmatch r (Re.MState p (c :: t) g) = []) ->
  forall rest pos g,
  exists pos',
    flat_map (Re.rmatch r) (Re.greedy Re.ws pos rest g) =
    Re.rmatch r (Re.MState pos' (Str.lstrip rest) g).
Proof.
  intros Hr rest. induction rest as [|c t IH]; intros pos g.
  - exists pos. cbn. now rewrite app_nil_r.
  - cbn [Re.greedy Str.lstrip]. unfold Re.ws at 1.
    destruct (isspace c) eqn:Ec.
    + destruct (IH (S pos) g) as [pos' H]. exists pos'.
      rewrite flat_map_app, H. cbn [flat_map].
      rewrite (Hr _ _ _ _ Ec). now rewrite !app_nil_r.
    + exists pos. cbn. now rewrite app_nil_r.
Qed.

Lemma lit_then_no_space (c : codepoint) (r : Re.regex) :
  isspace c = false ->
  forall p c0 t g, isspace c0 = true ->
    Re.rmatch (Re.Seq (Re.Lit c) r) (Re.MState p (c0 :: t) g) = [].
Proof.
  intros Hc p c0 t g H0. cbn [Re.rmatch]. unfold Re.step.
  cbn [Re.m_rest]. destruct (N.eqb_spec c c0) as [->|_]; [congruence|].
  reflexivity.
Qed.

Lemma lit_no_space (c : codepoint) :
  isspace c = false ->
  forall p c0 t g, isspace c0 = true ->
    Re.rmatch (Re.Lit c) (Re.MState p (c0 :: t) g) = [].
Proof.
  intros Hc p c0 t g H0. cbn [Re.rmatch]. unfold Re.step.
  cbn [Re.m_rest]. destruct (N.eqb_spec c c0) as [->|_]; [congruence|].
  reflexivity.
Qed.

Lemma rmatch_lit (c : codepoint) (st : Re.mstate) :
  Re.rmatch (Re.Lit c) st = Re.step (N.eqb c) st.
Proof. reflexivity. Qed.

Lemma rmatch_star (p : codepoint -> bool) (st : Re.mstate) :
  Re.rmatch (Re.Star p) st =
  Re.greedy p (Re.m_pos st) (Re.m_rest st) (Re.m_groups st).
Proof. reflexivity. Qed.

Lemma chapter_one_tail (p : nat) (rest : str) (g : list (nat * (nat * nat))) :
  nonempty (Re.rmatch chapter_one_re (Re.MState p rest g)) =
  opens_chapter_one rest.
Proof.
  unfold chapter_one_re, opens_chapter_one.
  rewrite rmatch_seq, rmatch_lit. unfold Re.step.
  cbn [Re.m_rest Re.m_pos Re.m_groups].
  destruct rest as [|c t]; [reflexivity|].
  destruct (chr "第" =? c)%N; [|reflexivity].
  cbn [flat_map andb]. rewrite app_nil_r, rmatch_seq, rmatch_star.
  cbn [Re.m_rest Re.m_pos Re.m_groups].
  destruct (@greedy_then _ (@lit_then_no_space (chr "一")
              (Re.Seq (Re.Star Re.ws) (Re.Lit (chr "回"))) eq_refl) t (S p) g)
    as [p1 ->].
  rewrite rmatch_seq, rmatch_lit. unfold Re.step.
  cbn [Re.m_rest Re.m_pos Re.m_groups].
  destruct (Str.lstrip t) as [|c1 t1]; [reflexivity|].
  destruct (chr "一" =? c1)%N; [|reflexivity].
  cbn [flat_map andb]. rewrite app_nil_r, rmatch_seq, rmatch_star.
  cbn [Re.m_rest Re.m_pos Re.m_groups].
  destruct (@greedy_then _ (@lit_no_space (chr "回") eq_refl) t1 (S p1) g)
    as [p2 ->].
  rewrite rmatch_lit. unfold Re.step. cbn [Re.m_rest].
  destruct (Str.lstrip t1) as [|c2 t2]; [reflexivity|].
  now destruct (chr "回" =? c2)%N.
Qed.

(** Where the fallback pattern matches. *)
Lemma first_chapter_match (pos : nat) (rest : str) :
  is_some (Re.match_at first_chapter_re pos rest) = chapter_one_start pos rest.
Proof.
  rewrite match_at_nonempty.
  change first_chapter_re with
    (Re.Seq (Re.Grp 1 (Re.Alt Re.Bol (Re.Lit nl))) chapter_one_re).
  rewrite rmatch_seq, rmatch_grp. cbn [Re.rmatch Re.m_pos].
  rewrite map_app, flat_map_app, nonempty_app. unfold chapter_one_start.
  f_equal.
  - destruct (pos =? 0); [|reflexivity].
    cbn [map flat_map]. rewrite app_nil_r. apply chapter_one_tail.
  - unfold Re.step. cbn [Re.m_rest Re.m_pos Re.m_groups].
    destruct rest as [|c t]; [reflexivity|].
    destruct (nl =? c)%N; [|reflexivity].
    cbn [map flat_map]. rewrite app_nil_r. apply chapter_one_tail.
Qed.

(** [search] finds the first position at which the pattern matches. *)
Lemma search_from_first (r : Re.regex) (rest : str) :
  forall pos,
    match Re.search_from r pos rest with
    | Some m =>
        exists k, Re.mo_start m = pos + k /\ k <= length rest
                  /\ is_some (Re.match_at r (pos + k) (skipn k rest)) = true
                  /\ forall j, j < k ->
                       is_some (Re.match_at r (pos + j) (skipn j rest)) = false
    | None =>
        forall k, k <= length rest ->
                  is_some (Re.match_at r (pos + k) (skipn k rest)) = false
    end.
Proof.
  assert (Hstart : forall p s m, Re.match_at r p s = Some m -> Re.mo_start m = p).
  { intros p s m E. unfold Re.match_at in E.
    destruct (Re.rmatch r _); [discriminate|]. now injection E as <-. }
  induction rest as [|c t IH]; intros pos; cbn [Re.search_from].
  - destruct (Re.match_at r pos []) as [m|] eqn:E.
    + exists 0. rewrite Nat.add_0_r. cbn [skipn]. rewrite E.
      split; [now apply Hstart with (s := [])|].
      split; [lia|]. split; [reflexivity|]. intros j Hj. lia.
    + intros k Hk. simpl in Hk. replace k with 0 by lia.
      rewrite Nat.add_0_r. cbn [skipn]. now rewrite E.
  - destruct (Re.match_at r pos (c :: t)) as [m|] eqn:E.
    + exists 0. rewrite Nat.add_0_r. cbn [skipn]. rewrite E.
      split; [now apply Hstart with (s := c :: t)|].
      split; [lia|]. split; [reflexivity|]. intros j Hj. lia.
    + specialize (IH (S pos)).
      destruct (Re.search_from r (S pos) t) as [m|].
      * destruct IH as (k & H1 & H2 & H3 & H4). exists (S k).
        cbn [skipn]. replace (pos + S k) with (S pos + k) by lia.
        split; [exact H1|]. split; [simpl; lia|]. split; [exact H3|].
        intros [|j] Hj.
        -- rewrite Nat.add_0_r. cbn [skipn]. now rewrite E.
        -- cbn [skipn]. replace (pos + S j) with (S pos + j) by lia.
           apply H4. lia.
      * intros [|k] Hk.
        -- rewrite Nat.add_0_r. cbn [skipn]. now rewrite E.
        -- cbn [skipn]. replace (pos + S k) with (S pos + k) by lia.
           apply IH. simpl in Hk. lia.
Qed.

End Fallback.

(** C3, as stated, does not hold: a file without the marker that opens
    with chapter two, "第二回　标题", has a chapter header at its start, but the
    fallback does not find it; no body is split off and the parse returns
    nothing. *)
Lemma fallback_misses_chapter_two :
  let content := utf8 "第二回　标题" ++ [nl] ++ utf8 "这是正文。" in
  Str.contains split_marker content = false
  /\ is_some (Re.match_at chap_header_pattern 0 content) = true
  /\ snd (split_toc_body content) <> Some ([], content)
  /\ parse_full_text (Some content) = ([msg_no_marker; msg_no_split], ([], [])).
Proof.
  cbv zeta. repeat split; try (vm_compute; reflexivity).
  vm_compute. discriminate.
Qed.

(** C3 (amended): when the marker is absent, the fallback looks for the
    opening of chapter one only: the first position that is the start of the
    text or a line break and is followed by 第, any whitespace, 一, any
    whitespace and 回.  It prints the warning, and everything from that
    position on (the line break included) is the body, everything before it
    the table of contents region.  When there is no such position the two
    diagnostics are printed and the parse returns nothing. *)
Theorem fallback_chapter_one (content : str) :
  Str.contains split_marker content = false ->
  (forall k,
      k <= length content ->
      chapter_one_start k (skipn k content) = true ->
      (forall j, j < k -> chapter_one_start j (skipn j content) = false) ->
      split_toc_body content =
        ([msg_no_marker], Some (firstn k content, skipn k content)))
  /\ ((forall k, k <= length content ->
                 chapter_one_start k (skipn k content) = false) ->
      split_toc_body content = ([msg_no_marker; msg_no_split], None)
      /\ parse_full_text (Some content) =
           ([msg_no_marker; msg_no_split], ([], []))).
Proof.
  intros Hm.
  assert (Hsplit : Str.split_once split_marker content = None).
  { unfold Str.contains in Hm. unfold Str.split_once.
    now destruct (Str.find split_marker content). }
  pose proof (search_from_first first_chapter_re content 0) as Hs.
  fold (Re.search first_chapter_re content) in Hs.
  unfold parse_full_text, split_toc_body. rewrite Hsplit.
  destruct (Re.search first_chapter_re content) as [m|].
  - destruct Hs as (k & Hk & Hlen & Hat & Hbefore). cbn [Nat.add] in *.
    rewrite first_chapter_match in Hat. rewrite Hk. split.
    + intros k' Hlen' Hat' Hbefore'.
      assert (k = k'); [|now subst].
      destruct (Nat.lt_trichotomy k k') as [Hlt|[Heq|Hgt]]; [|exact Heq|].
      * rewrite (Hbefore' _ Hlt) in Hat. discriminate.
      * specialize (Hbefore _ Hgt). rewrite first_chapter_match in Hbefore.
        congruence.
    + intros Hnone. rewrite (Hnone _ Hlen) in Hat. discriminate.
  - split.
    + intros k Hlen Hat _. specialize (Hs _ Hlen). cbn [Nat.add] in Hs.
      rewrite first_chapter_match in Hs. congruence.
    + intros _. now split.
Qed.

Lemma fallback_chapter_one_witness :
  let content := utf8 "目录" ++ [nl] ++ utf8 "第 一 回　标题" in
  Str.contains split_marker content = false
  /\ split_toc_body content =
       ([msg_no_marker], Some (utf8 "目录", [nl] ++ utf8 "第 一 回　标题")).
Proof.
  intros content.
  assert (Hm : Str.contains split_marker content = false)
    by (vm_compute; reflexivity).
  split; [exact Hm|].
  refine (proj1 (fallback_chapter_one content Hm) 2 _ _ _).
  - vm_compute. lia.
  - vm_compute. reflexivity.
  - intros [|[|j]] Hj; [vm_compute; reflexivity ..|lia].
Defined.

(** ** No chapter found (C4) *)
Section NoChapters.

Lemma find_from_some (p s : str) :
  forall i n,
    Str.find_from p s i = Some n ->
    exists k, n = i + k /\ k <= length s
              /\ Str.startswith p (skipn k s) = true.
Proof.
  induction s as [|c s IH]; intros i n H; cbn [Str.find_from] in H.
  - destruct (Str.startswith p []) eqn:E; [|discriminate].
    injection H as <-. exists 0. now rewrite Nat.add_0_r.
  - destruct (Str.startswith p (c :: s)) eqn:E.
    + injection H as <-. exists 0. rewrite Nat.add_0_r.
      repeat split; [simpl; lia|exact E].
    + destruct (IH _ _ H) as (k & -> & Hk & Hsw). exists (S k).
      repeat split; [lia|simpl; lia|exact Hsw].
Qed.

Lemma split_once_some (p s before after : str) :
  Str.split_once p s = Some (before, after) -> s = before ++ p ++ after.
Proof.
  unfold Str.split_once, Str.find. intros H.
  destruct (Str.find_from p s 0) as [n|] eqn:E; [|discriminate].
  injection H as <- <-.
  destruct (find_from_some _ _ _ E) as (k & -> & Hk & Hsw).
  cbn [Nat.add]. apply startswith_iff in Hsw as [t Ht].
  rewrite Nat.add_comm, <- skipn_skipn, Ht.
  rewrite skipn_app, skipn_all, Nat.sub_diag. cbn [skipn app].
  rewrite <- Ht. symmetry. apply firstn_skipn.
Qed.

(** The two regions the split makes are the file cut in two. *)
Lemma split_toc_body_cut (content : str) (out : list str) (toc_text body_text : str) :
  split_toc_body content = (out, Some (toc_text, body_text)) ->
  content = toc_text ++ body_text.
Proof.
  unfold split_toc_body.
  destruct (Str.split_once split_marker content) as [[before after]|] eqn:E.
  - intros H.
    assert (Ht : toc_text = before) by congruence.
    assert (Hb : body_text = split_marker ++ after) by congruence.
    subst toc_text body_text. now apply split_once_some.
  - destruct (Re.search first_chapter_re content) as [m|]; [|discriminate].
    intros H. injection H as <- <- <-. symmetry. apply firstn_skipn.
Qed.

Lemma greedy_rests (p : codepoint -> bool) (rest : str) :
  forall pos g pos' g',
    map Re.m_rest (Re.greedy p pos rest g) =
    map Re.m_rest (Re.greedy p pos' rest g').
Proof.
  induction rest as [|c t IH]; intros pos g pos' g'; [reflexivity|].
  cbn [Re.greedy]. destruct (p c); [|reflexivity].
  rewrite !map_app. now rewrite (IH (S pos) g (S pos') g').
Qed.

Lemma lazy_rests (p : codepoint -> bool) (rest : str) :
  forall pos g pos' g',
    map Re.m_rest (Re.lazy p pos rest g) =
    map Re.m_rest (Re.lazy p pos' rest g').
Proof.
  induction rest as [|c t IH]; intros pos g pos' g'; [reflexivity|].
  cbn [Re.lazy map Re.m_rest]. destruct (p c); [|reflexivity].
  now rewrite (IH (S pos) g (S pos') g').
Qed.

Lemma flat_map_rests (f : Re.mstate -> list Re.mstate) :
  (forall st st', Re.m_rest st = Re.m_rest st' ->
                  map Re.m_rest (f st) = map Re.m_rest (f st')) ->
  forall l l',
    map Re.m_rest l = map Re.m_rest l' ->
    map Re.m_rest (flat_map f l) = map Re.m_rest (flat_map f l').
Proof.
  intros Hf l. induction l as [|st l IH]; intros [|st' l'] H;
    try discriminate H; [reflexivity|].
  cbn [map] in H. injection H as Hst Hl.
  cbn [flat_map]. rewrite !map_app. now rewrite (Hf _ _ Hst), (IH _ Hl).
Qed.

(** A pattern without [^] matches the same stretches of text wherever
    that text stands. *)
Lemma rmatch_rests (r : Re.regex) :
  bol_free r = true ->
  forall st st',
    Re.m_rest st = Re.m_rest st' ->
    map Re.m_rest (Re.rmatch r st) = map Re.m_rest (Re.rmatch r st').
Proof.
  induction r as [|c|p| | |r1 IH1 r2 IH2|r1 IH1 r2 IH2|p|p|n r1 IH1];
    intros Hr st st' H; cbn [bol_free] in Hr; cbn [Re.rmatch].
  - cbn. now rewrite H.
  - unfold Re.step. rewrite H. destruct (Re.m_rest st') as [|x t]; [reflexivity|].
    now destruct (c =? x)%N.
  - unfold Re.step. rewrite H. destruct (Re.m_rest st') as [|x t]; [reflexivity|].
    now destruct (p x).
  - discriminate Hr.
  - rewrite H. destruct (Re.m_rest st') as [|x [|y t]] eqn:E; cbn; rewrite ?H, ?E;
      try reflexivity.
    destruct (x =? nl)%N; cbn; now rewrite ?H, ?E.
  - apply andb_true_iff in Hr as [Hr1 Hr2].
    apply flat_map_rests; [now apply IH2|now apply IH1].
  - apply andb_true_iff in Hr as [Hr1 Hr2].
    rewrite !map_app. now rewrite (IH1 Hr1 _ _ H), (IH2 Hr2 _ _ H).
  - rewrite H. apply greedy_rests.
  - rewrite H. apply lazy_rests.
  - rewrite !map_map. cbn [Re.close_group Re.m_rest].
    change (fun x : Re.mstate => Re.m_rest x) with Re.m_rest.
    now apply IH1.
Qed.

Lemma nonempty_map (A B : Type) (f : A -> B) (l : list A) :
  nonempty (map f l) = nonempty l.
Proof. now destruct l. Qed.

Lemma header_tail_here (p : nat) (s : str) (g : list (nat * (nat * nat))) :
  nonempty (Re.rmatch header_tail (Re.MState p s g)) = header_here s.
Proof.
  unfold header_here.
  rewrite <- (nonempty_map Re.m_rest), <- (nonempty_map Re.m_rest (Re.rmatch _ (Re.MState 0 s []))).
  f_equal. now apply rmatch_rests.
Qed.

(** Where the chapter header pattern matches: at the start of the text or
    at a line break, when a header line follows. *)
Lemma chap_header_match (pos : nat) (rest : str) :
  is_some (Re.match_at chap_header_pattern pos rest) =
  (pos =? 0) && header_here rest
  || match rest with
     | c :: t => (nl =? c)%N && header_here t
     | [] => false
     end.
Proof.
  rewrite match_at_nonempty.
  change chap_header_pattern with
    (Re.Seq (Re.Grp 1 (Re.Alt Re.Bol (Re.Lit nl))) header_tail).
  rewrite rmatch_seq, rmatch_grp. cbn [Re.rmatch Re.m_pos].
  rewrite map_app, flat_map_app, nonempty_app. f_equal.
  - destruct (pos =? 0); [|reflexivity].
    cbn [map flat_map]. rewrite app_nil_r. apply header_tail_here.
  - unfold Re.step. cbn [Re.m_rest Re.m_pos Re.m_groups].
    destruct rest as [|c t]; [reflexivity|].
    destruct (nl =? c)%N; [|reflexivity].
    cbn [map flat_map]. rewrite app_nil_r. apply header_tail_here.
Qed.

(** A header line begins with 第. *)
Lemma header_here_first (c : codepoint) (t : str) :
  (chr "第" =? c)%N = false -> header_here (c :: t) = false.
Proof.
  intros Hc. unfold header_here, header_tail.
  rewrite rmatch_seq, rmatch_grp.
  unfold numeral_token. rewrite !rmatch_seq, rmatch_lit.
  unfold Re.step. cbn [Re.m_rest]. now rewrite Hc.
Qed.

Lemma finditer_from_nil (r : Re.regex) (rest : str) :
  forall pos,
    (forall k, k <= length rest ->
               is_some (Re.match_at r (pos + k) (skipn k rest)) = false) ->
    Re.finditer_from r 0 pos rest = [].
Proof.
  induction rest as [|c t IH]; intros pos H; cbn [Re.finditer_from].
  - specialize (H 0 (le_n _)). rewrite Nat.add_0_r in H. cbn [skipn] in H.
    now destruct (Re.match_at r pos []).
  - pose proof (H 0 (Nat.le_0_l _)) as H0. rewrite Nat.add_0_r in H0.
    cbn [skipn] in H0. destruct (Re.match_at r pos (c :: t)); [discriminate|].
    apply IH. intros k Hk. specialize (H (S k)). cbn [skipn] in H.
    replace (S pos + k) with (pos + S k) by lia. apply H. simpl. lia.
Qed.

(** The body region does not begin with a header line of its own making:
    it is the whole file, or it begins with the marker or a line break. *)
Lemma split_body_head (content : str) (out : list str) (toc_text body_text : str) :
  split_toc_body content = (out, Some (toc_text, body_text)) ->
  toc_text = [] \/ header_here body_text = false.
Proof.
  unfold split_toc_body.
  destruct (Str.split_once split_marker content) as [[before after]|] eqn:E.
  - intros H. right.
    assert (Hb : body_text = split_marker ++ after) by congruence.
    subst body_text. now apply header_here_first.
  - pose proof (search_from_first first_chapter_re content 0) as Hs.
    fold (Re.search first_chapter_re content) in Hs.
    destruct (Re.search first_chapter_re content) as [m|]; [|discriminate].
    destruct Hs as (k & Hk & Hlen & Hat & _). cbn [Nat.add] in *.
    rewrite first_chapter_match in Hat. rewrite Hk.
    intros H.
    assert (Ht : toc_text = firstn k content) by congruence.
    assert (Hb : body_text = skipn k content) by congruence.
    subst toc_text body_text.
    destruct k as [|k]; [now left|]. right.
    unfold chapter_one_start in Hat. cbn [Nat.eqb andb orb] in Hat.
    destruct (skipn (S k) content) as [|c t]; [discriminate|].
    apply andb_true_iff in Hat as [Hc _]. apply N.eqb_eq in Hc. subst c.
    now apply header_here_first.
Qed.

(** When the chapter header pattern matches nowhere in the file, it
    matches nowhere in the body region. *)
Lemma no_header_no_boundary (content : str) :
  Re.search chap_header_pattern content = None ->
  boundaries (Some content) = [].
Proof.
  intros Hnone. unfold boundaries.
  destruct (split_toc_body content) as [out [[toc_text body_text]|]] eqn:E;
    [|reflexivity].
  pose proof (search_from_first chap_header_pattern content 0) as Hs.
  fold (Re.search chap_header_pattern content) in Hs. rewrite Hnone in Hs.
  cbn [Nat.add] in Hs.
  pose proof (split_toc_body_cut _ E) as Hcut.
  pose proof (split_body_head _ E) as Hhead.
  apply finditer_from_nil. intros j Hj. cbn [Nat.add].
  specialize (Hs (length toc_text + j)).
  rewrite Hcut, length_app in Hs. specialize (Hs ltac:(lia)).
  rewrite Nat.add_comm, <- skipn_skipn in Hs.
  rewrite skipn_app, skipn_all, Nat.sub_diag in Hs. cbn [skipn app] in Hs.
  rewrite chap_header_match in Hs |- *.
  apply orb_false_iff in Hs as [Hs1 Hs2]. rewrite Hs2, orb_false_r.
  destruct j as [|j]; [|reflexivity]. cbn [Nat.eqb andb skipn].
  destruct Hhead as [->|Hh]; [|exact Hh].
  cbn [length Nat.add Nat.eqb andb skipn] in Hs1. exact Hs1.
Qed.

End NoChapters.

(** C4, as stated, does not hold: for a file with neither the marker nor
    any chapter header the parse returns no front matter record at all. *)
Lemma no_front_matter_without_marker :
  let content := utf8 "没有章节的文字" in
  Re.search chap_header_pattern content = None
  /\ Re.search first_chapter_re content = None
  /\ ~ (exists title filename,
          snd (snd (parse_full_text (Some content))) =
          [Intro title content filename])
  /\ parse_full_text (Some content) =
       ([msg_no_marker; msg_no_split], ([], [])).
Proof.
  cbv zeta. repeat split; try (vm_compute; reflexivity).
  intros (title & filename & H). vm_compute in H. discriminate H.
Qed.

(** When the scan of the body region finds no chapter header: what the
    parse returns. *)
Lemma no_boundary_parse (content : str) :
  boundaries (Some content) = [] ->
  match split_toc_body content with
  | (out, Some (toc_text, body_text)) =>
      content = toc_text ++ body_text
      /\ parse_full_text (Some content) =
           (out ++ [msg_no_headers],
            (parse_toc_text toc_text,
             [Intro (utf8 "全文") body_text (utf8 "full.html")]))
  | (out, None) =>
      Str.contains split_marker content = false
      /\ parse_full_text (Some content) =
           ([msg_no_marker; msg_no_split], ([], []))
  end.
Proof.
  unfold boundaries, parse_full_text. intros H.
  destruct (split_toc_body content) as [out [[toc_text body_text]|]] eqn:E.
  - split; [now apply split_toc_body_cut with (out := out)|].
    unfold parse_body. now rewrite H.
  - unfold split_toc_body in E. unfold Str.contains, Str.split_once in *.
    destruct (Str.find split_marker content); [discriminate|].
    destruct (Re.search first_chapter_re content); [discriminate|].
    injection E as <-. now split.
Qed.

(** C4 (amended): when the chapter header pattern matches nowhere in the
    file, the parse does not fail and returns no chapter record.  If the
    split found a body region (from the marker on, or from the chapter-one
    opening on), the file is the table of contents region followed by that
    body region, the warning that no header was found is printed last, and
    the one record returned is a front matter record titled 全文 that holds
    the whole body region (the entire file when the region starts the file).
    If the split found none, the marker is absent, the two diagnostics are
    printed and no record is returned. *)
Theorem no_chapters_found (content : str) :
  Re.search chap_header_pattern content = None ->
  boundaries (Some content) = []
  /\ match split_toc_body content with
     | (out, Some (toc_text, body_text)) =>
         content = toc_text ++ body_text
         /\ parse_full_text (Some content) =
              (out ++ [msg_no_headers],
               (parse_toc_text toc_text,
                [Intro (utf8 "全文") body_text (utf8 "full.html")]))
     | (out, None) =>
         Str.contains split_marker content = false
         /\ parse_full_text (Some content) =
              ([msg_no_marker; msg_no_split], ([], []))
     end.
Proof.
  intros H. apply no_header_no_boundary in H.
  split; [exact H|]. now apply no_boundary_parse.
Qed.

Lemma no_chapters_found_witness :
  let content := utf8 "目录" ++ [nl] ++ utf8 "扉页题诗：前言文字" in
  Re.search chap_header_pattern content = None
  /\ parse_full_text (Some content) =
       ([msg_no_headers],
        ([], [Intro (utf8 "全文") (utf8 "扉页题诗：前言文字") (utf8 "full.html")])).
Proof.
  intros content.
  assert (H : Re.search chap_header_pattern content = None)
    by (vm_compute; reflexivity).
  split; [exact H|].
  destruct (no_chapters_found content H) as [_ T].
  assert (E : split_toc_body content =
              ([], Some (utf8 "目录" ++ [nl], utf8 "扉页题诗：前言文字")))
    by (vm_compute; reflexivity).
  rewrite E in T. destruct T as [_ T]. exact T.
Defined.

(** * Further properties of the two scripts *)

Unset Implicit Arguments.

(** ** Trimming *)
Section Trimming.

Lemma lstrip_head (s : str) (c : codepoint) (t : str) :
  Str.lstrip s = c :: t -> isspace c = false.
Proof.
  induction s as [|x s IH]; [discriminate|].
  cbn [Str.lstrip]. destruct (isspace x) eqn:E; [exact IH|].
  intros H. injection H as <- _. exact E.
Qed.

Lemma lstrip_fixed (c : codepoint) (t : str) :
  isspace c = false -> Str.lstrip (c :: t) = c :: t.
Proof. intros H. cbn [Str.lstrip]. now rewrite H. Qed.

(** What [lstrip] leaves is an end of the text. *)
Lemma lstrip_suffix (s : str) : exists ws, s = ws ++ Str.lstrip s.
Proof.
  induction s as [|x s [ws IH]]; [now exists []|].
  cbn [Str.lstrip]. destruct (isspace x).
  - exists (x :: ws). cbn [app]. now f_equal.
  - now exists [].
Qed.

(** A text that ends with a character that is no whitespace keeps that
    end under [lstrip]. *)
Lemma lstrip_keeps_last (s : str) (c : codepoint) :
  isspace c = false -> exists w, Str.lstrip (s ++ [c]) = w ++ [c].
Proof.
  intros Hc. induction s as [|x s [w IH]].
  - exists []. cbn. now rewrite Hc.
  - cbn [app Str.lstrip]. destruct (isspace x).
    + now exists w.
    + now exists (x :: s).
Qed.

Lemma strip_trimmed (s : str) : trimmed (Str.strip s) = true.
Proof.
  unfold Str.strip, Str.rstrip.
  destruct (Str.lstrip s) as [|c t] eqn:E; [reflexivity|].
  pose proof (lstrip_head _ _ _ E) as Hc.
  cbn [rev]. destruct (lstrip_keeps_last (rev t) c Hc) as [w Hw].
  rewrite Hw, rev_app_distr. cbn [rev app]. unfold trimmed.
  cbn [rev]. rewrite rev_involutive.
  destruct w as [|d r]; cbn [app]; rewrite Hc; cbn [negb andb];
    [reflexivity|].
  now rewrite (lstrip_head _ _ _ Hw).
Qed.

Lemma trimmed_strip (s : str) : trimmed s = true -> Str.strip s = s.
Proof.
  unfold trimmed, Str.strip, Str.rstrip. destruct s as [|c t]; [reflexivity|].
  destruct (rev (c :: t)) as [|d r] eqn:E.
  - apply (f_equal (@length codepoint)) in E. rewrite length_rev in E.
    discriminate E.
  - intros H. apply andb_true_iff in H as [Hc Hd].
    apply negb_true_iff in Hc, Hd.
    rewrite (lstrip_fixed _ _ Hc), E, (lstrip_fixed _ _ Hd), <- E.
    apply rev_involutive.
Qed.

Lemma strip_strip (s : str) : Str.strip (Str.strip s) = Str.strip s.
Proof. apply trimmed_strip, strip_trimmed. Qed.

Lemma lstrip_incl (s : str) (x : codepoint) : In x (Str.lstrip s) -> In x s.
Proof.
  destruct (lstrip_suffix s) as [ws H]. intros Hx. rewrite H.
  apply in_or_app. now right.
Qed.

(** [strip] only takes characters away. *)
Lemma strip_incl (s : str) (x : codepoint) : In x (Str.strip s) -> In x s.
Proof.
  unfold Str.strip, Str.rstrip. intros H.
  apply in_rev, lstrip_incl, in_rev in H. now apply lstrip_incl.
Qed.

(** A text that begins with a character that is no whitespace still
    begins with it after [strip]. *)
Lemma strip_keeps_head (c : codepoint) (t : str) :
  isspace c = false -> exists t', Str.strip (c :: t) = c :: t'.
Proof.
  intros Hc. unfold Str.strip, Str.rstrip.
  rewrite (lstrip_fixed _ _ Hc). cbn [rev].
  destruct (lstrip_keeps_last (rev t) c Hc) as [w ->].
  rewrite rev_app_distr. cbn [rev app]. now exists (rev w).
Qed.

End Trimming.

(** ** Lines of a text *)
Section SplitJoin.

Lemma split_not_nil (c : codepoint) (s : str) : Str.split c s <> [].
Proof.
  destruct s as [|x t]; cbn [Str.split]; [discriminate|].
  destruct (x =? c)%N; [discriminate|].
  now destruct (Str.split c t).
Qed.

(** No line holds the separator. *)
Lemma split_no_sep (c : codepoint) (s l : str) :
  In l (Str.split c s) -> ~ In c l.
Proof.
  revert l. induction s as [|x t IH]; intros l H; cbn [Str.split] in H.
  - destruct H as [<-|[]]. intros [].
  - destruct (N.eqb_spec x c) as [->|Hx].
    + destruct H as [<-|H]; [intros []|now apply IH].
    + destruct (Str.split c t) as [|l0 ls] eqn:E.
      * destruct H as [<-|[]]. simpl. intuition.
      * destruct H as [<-|H].
        -- simpl. intros [?|?]; [congruence|].
           revert H. apply IH. now left.
        -- apply IH. now right.
Qed.

(** The lines hold the characters of the text, the separators apart. *)
Lemma split_incl (c : codepoint) (s l : str) (x : codepoint) :
  In l (Str.split c s) -> In x l -> In x s.
Proof.
  revert l. induction s as [|y t IH]; intros l H Hx; cbn [Str.split] in H.
  - destruct H as [<-|[]]. destruct Hx.
  - destruct (y =? c)%N.
    + destruct H as [<-|H]; [destruct Hx|]. right. now apply (IH l).
    + destruct (Str.split c t) as [|l0 ls] eqn:E.
      * destruct H as [<-|[]]. destruct Hx as [<-|[]]. now left.
      * destruct H as [<-|H].
        -- destruct Hx as [<-|Hx]; [now left|]. right.
           apply (IH l0); [now left|exact Hx].
        -- right. apply (IH l); [now right|exact Hx].
Qed.

Lemma split_covers (c : codepoint) (s : str) (x : codepoint) :
  In x s -> x <> c -> exists l, In l (Str.split c s) /\ In x l.
Proof.
  induction s as [|y t IH]; intros Hx Hc; [destruct Hx|].
  cbn [Str.split]. destruct (N.eqb_spec y c) as [->|Hy].
  - destruct Hx as [->|Hx]; [congruence|].
    destruct (IH Hx Hc) as (l & Hl & Hin). exists l. split; [now right|exact Hin].
  - destruct (Str.split c t) as [|l0 ls] eqn:E.
    + exact (False_ind _ (split_not_nil c t E)).
    + destruct Hx as [->|Hx].
      * exists (x :: l0). split; now left.
      * destruct (IH Hx Hc) as (l & [<-|Hl] & Hin).
        -- exists (y :: l0). split; [now left|now right].
        -- exists l. split; [now right|exact Hin].
Qed.

(** Joining lines and splitting again gives the lines back. *)
Lemma split_join (c : codepoint) (parts : list str) :
  parts <> [] ->
  (forall p, In p parts -> ~ In c p) ->
  Str.split c (Str.join [c] parts) = parts.
Proof.
  assert (Hone : forall p, ~ In c p -> Str.split c p = [p]).
  { induction p as [|x p IH]; intros H; [reflexivity|].
    simpl in H. cbn [Str.split].
    replace (x =? c)%N with false
      by (symmetry; apply N.eqb_neq; intuition congruence).
    rewrite IH by intuition. reflexivity. }
  assert (Hline : forall p r, ~ In c p ->
            Str.split c (p ++ c :: r) = p :: Str.split c r).
  { induction p as [|x p IH]; intros r H; cbn [app Str.split].
    - now rewrite N.eqb_refl.
    - simpl in H.
      replace (x =? c)%N with false
        by (symmetry; apply N.eqb_neq; intuition congruence).
      rewrite IH by intuition. reflexivity. }
  induction parts as [|p ps IH]; intros Hne H; [congruence|].
  destruct ps as [|q ps].
  - cbn [Str.join]. apply Hone. apply H. now left.
  - change (Str.join [c] (p :: q :: ps))
      with (p ++ [c] ++ Str.join [c] (q :: ps)).
    cbn [app]. rewrite Hline by (apply H; now left).
    f_equal. apply IH; [discriminate|]. intros r Hr. apply H. now right.
Qed.

(** Splitting a text into lines and joining them gives the text back. *)
Lemma join_split (c : codepoint) (s : str) :
  Str.join [c] (Str.split c s) = s.
Proof.
  induction s as [|x t IH]; [reflexivity|].
  cbn [Str.split]. destruct (N.eqb_spec x c) as [->|Hx].
  - pose proof (split_not_nil c t) as Hne.
    destruct (Str.split c t) as [|l ls]; [congruence|].
    change (Str.join [c] ([] :: l :: ls)) with ([] ++ [c] ++ Str.join [c] (l :: ls)).
    cbn [app]. now rewrite IH.
  - pose proof (split_not_nil c t) as Hne.
    destruct (Str.split c t) as [|l ls]; [congruence|].
    destruct ls as [|l' ls].
    + cbn [Str.join] in *. now rewrite IH.
    + change (Str.join [c] ((x :: l) :: l' :: ls))
        with (x :: (l ++ [c] ++ Str.join [c] (l' :: ls))).
      change (Str.join [c] (l :: l' :: ls))
        with (l ++ [c] ++ Str.join [c] (l' :: ls)) in IH.
      now rewrite IH.
Qed.

End SplitJoin.

(** ** The output of [process_text] *)
Section Output.

(** The emitted lines, source line by source line. *)
Lemma typed_lines_by_line (text : str) :
  typed_lines text =
  flat_map (fun raw =>
              if forallb isspace raw then []
              else [(classify_line (Str.strip (wrap_comments (escape raw))),
                     Str.strip (wrap_comments (escape raw)))])
           (Str.split nl text).
Proof.
  unfold typed_lines. rewrite split_wrap, split_escape, !flat_map_map.
  apply flat_map_ext. intros raw.
  pose proof (blank_spaces (wrap_comments (escape raw))) as Hb.
  rewrite spaces_wrap, spaces_escape in Hb. unfold blank in Hb.
  unfold line_step.
  destruct (Str.strip (wrap_comments (escape raw))); now rewrite <- Hb.
Qed.

Lemma render_not_nil (k : kind) (line : str) : render k line <> [].
Proof. destruct k; vm_compute; discriminate. Qed.

Lemma render_no_nl (k : kind) (line : str) :
  ~ In nl line -> ~ In nl (render k line).
Proof.
  intros H. destruct k; unfold render; rewrite !in_app_iff;
    intros [Hp|[Hl|Hs]]; try contradiction;
    revert Hp || revert Hs; vm_compute; intuition discriminate.
Qed.

Lemma join_cons (sep p : str) (ps : list str) :
  exists t, Str.join sep (p :: ps) = p ++ t.
Proof.
  destruct ps as [|q ps].
  - exists []. cbn. now rewrite app_nil_r.
  - eexists. reflexivity.
Qed.

Lemma typed_line_facts (text : str) (k : kind) (line : str) :
  In (k, line) (typed_lines text) ->
  line <> [] /\ trimmed line = true /\ ~ In nl line.
Proof.
  intros H. destruct (typed_lines_in _ _ _ H) as (raw & Hraw & -> & Hne & _).
  split; [exact Hne|]. split; [apply strip_trimmed|].
  intros Hnl. apply strip_incl in Hnl. revert Hnl.
  now apply (split_no_sep nl (wrap_comments (escape text))).
Qed.

End Output.

(** Some output is made for a text with a character that is not
    whitespace. *)
Lemma process_text_nonblank (text : str) :
  process_text text = [] -> forallb isspace text = true.
Proof.
  intros Hout. destruct (forallb isspace text) eqn:E; [reflexivity|].
  exfalso.
  assert (Hx : exists x, In x text /\ isspace x = false).
  { clear Hout. induction text as [|c t IH]; [discriminate|].
    cbn [forallb] in E. destruct (isspace c) eqn:Ec.
    - destruct (IH E) as (x & Hx & Hs). exists x. split; [now right|exact Hs].
    - exists c. split; [now left|exact Ec]. }
  destruct Hx as (x & Hx & Hs).
  assert (Hnl : x <> nl) by (intros ->; discriminate Hs).
  destruct (split_covers nl text x Hx Hnl) as (l & Hl & Hxl).
  assert (Hb : forallb isspace l = false).
  { destruct (forallb isspace l) eqn:El; [|reflexivity].
    rewrite forallb_forall in El. rewrite (El x Hxl) in Hs. discriminate. }
  assert (Hin : exists kl, In kl (typed_lines text)).
  { rewrite typed_lines_by_line. eexists. apply in_flat_map.
    exists l. split; [exact Hl|]. rewrite Hb. now left. }
  destruct Hin as (kl & Hin). unfold process_text in Hout.
  destruct (typed_lines text) as [|kl0 rest]; [destruct Hin|].
  cbn [map] in Hout.
  destruct (join_cons [nl] (render (fst kl0) (snd kl0))
              (map (fun kl => render (fst kl) (snd kl)) rest)) as [t Ht].
  rewrite Ht in Hout.
  apply app_eq_nil in Hout as [Hout _].
  now apply render_not_nil in Hout.
Qed.

(** X1: [process_text] returns the empty string exactly for the texts that
    are empty or hold whitespace only. *)
Theorem process_text_empty_iff (text : str) :
  process_text text = [] <-> forallb isspace text = true.
Proof.
  split; [apply process_text_nonblank|].
  intros Hs. unfold process_text. rewrite typed_lines_by_line.
  assert (H : forall ls : list str,
             (forall l, In l ls -> forallb isspace l = true) ->
             flat_map (fun raw =>
               if forallb isspace raw then []
               else [(classify_line (Str.strip (wrap_comments (escape raw))),
                      Str.strip (wrap_comments (escape raw)))]) ls = []).
  { induction ls as [|l ls IH]; intros Hl; [reflexivity|].
    cbn [flat_map]. rewrite (Hl l (or_introl eq_refl)). cbn [app].
    apply IH. intros l' Hl'. apply Hl. now right. }
  rewrite H; [reflexivity|].
  intros l Hl. apply forallb_forall. intros x Hx.
  rewrite forallb_forall in Hs. apply Hs.
  now apply (split_incl nl text l x).
Qed.

(** X2: every line [process_text] emits is non-empty, has no whitespace at
    either end and holds no line break. *)
Theorem emitted_lines_trimmed (text : str) (k : kind) (line : str) :
  In (k, line) (typed_lines text) ->
  line <> [] /\ trimmed line = true /\ Str.strip line = line /\ ~ In nl line.
Proof.
  intros H. destruct (typed_line_facts text k line H) as (Hne & Ht & Hnl).
  repeat split; try assumption. now apply trimmed_strip.
Qed.

Lemma emitted_lines_trimmed_witness :
  In (Paragraph, utf8 "宝玉 &amp; 黛玉") (typed_lines (utf8 "  宝玉 & 黛玉  "))
  /\ Str.strip (utf8 "宝玉 &amp; 黛玉") = utf8 "宝玉 &amp; 黛玉".
Proof.
  assert (H : In (Paragraph, utf8 "宝玉 &amp; 黛玉")
                (typed_lines (utf8 "  宝玉 & 黛玉  ")))
    by (vm_compute; left; reflexivity).
  split; [exact H|].
  exact (proj1 (proj2 (proj2 (emitted_lines_trimmed _ _ _ H)))).
Defined.

(** X3: for a text that is not blank, the output of [process_text] has one
    line for each emitted paragraph, in order: splitting the output at line
    breaks gives the paragraphs back, as many as the text has lines that are
    not blank. *)
Theorem output_lines (text : str) :
  forallb isspace text = false ->
  Str.split nl (process_text text) =
    map (fun kl => render (fst kl) (snd kl)) (typed_lines text)
  /\ length (Str.split nl (process_text text)) =
     length (filter (fun raw => negb (forallb isspace raw)) (Str.split nl text)).
Proof.
  intros Hs.
  assert (H : Str.split nl (process_text text) =
              map (fun kl => render (fst kl) (snd kl)) (typed_lines text)).
  { unfold process_text. apply split_join.
    - intros Hnil.
      assert (Hout : process_text text = [])
        by (unfold process_text; now rewrite Hnil).
      apply process_text_nonblank in Hout. congruence.
    - intros p Hp. apply in_map_iff in Hp as ([k line] & <- & Hin).
      apply render_no_nl. now apply (typed_line_facts text k line). }
  split; [exact H|]. rewrite H, length_map, typed_lines_by_line.
  induction (Str.split nl text) as [|raw l IH]; [reflexivity|].
  cbn [flat_map filter]. rewrite length_app, IH.
  now destruct (forallb isspace raw).
Qed.

Lemma output_lines_witness :
  forallb isspace (utf8 "诗曰" ++ [nl] ++ [nl] ++ utf8 "满纸荒唐言，") = false
  /\ length (Str.split nl (process_text
               (utf8 "诗曰" ++ [nl] ++ [nl] ++ utf8 "满纸荒唐言，"))) = 2.
Proof.
  assert (H : forallb isspace
                (utf8 "诗曰" ++ [nl] ++ [nl] ++ utf8 "满纸荒唐言，") = false)
    by (vm_compute; reflexivity).
  split; [exact H|].
  exact (proj2 (output_lines _ H)).
Defined.

(** ** Escaping, further *)
Section EscapeFacts.

Lemma escape_cons (c : codepoint) (s : str) :
  escape (c :: s) = escape [c] ++ escape s.
Proof. change (c :: s) with ([c] ++ s). apply escape_app. Qed.

Lemma reserved_cases (c : codepoint) :
  reserved c = true -> c = chr "&" \/ c = chr "<" \/ c = chr ">".
Proof.
  unfold reserved. rewrite !orb_true_iff, !N.eqb_eq. tauto.
Qed.

Lemma unescape_amp (r : str) :
  unescape (utf8 "&amp;" ++ r) = chr "&" :: unescape r.
Proof. reflexivity. Qed.

Lemma unescape_lt (r : str) :
  unescape (utf8 "&lt;" ++ r) = chr "<" :: unescape r.
Proof. destruct r; reflexivity. Qed.

Lemma unescape_gt (r : str) :
  unescape (utf8 "&gt;" ++ r) = chr ">" :: unescape r.
Proof. destruct r; reflexivity. Qed.

Lemma unescape_other (c : codepoint) (r : str) :
  (c =? chr "&")%N = false -> unescape (c :: r) = c :: unescape r.
Proof.
  intros H.
  change (utf8 "&amp;") with [chr "&"; 97; 109; 112; 59]%N in *.
  destruct r as [|c1 [|c2 [|c3 [|c4 r]]]]; cbn [unescape];
    change (utf8 "&amp;") with [chr "&"; 97; 109; 112; 59]%N;
    change (utf8 "&lt;") with [chr "&"; 108; 116; 59]%N;
    change (utf8 "&gt;") with [chr "&"; 103; 116; 59]%N;
    cbn [Str.eqb]; rewrite ?H; cbn [andb]; reflexivity.
Qed.

Lemma unescape_escape (s : str) : unescape (escape s) = s.
Proof.
  induction s as [|c s IH]; [reflexivity|].
  destruct (reserved c) eqn:Hc.
  - rewrite escape_cons.
    destruct (reserved_cases c Hc) as [-> | [-> | ->]].
    + change (escape [chr "&"]) with (utf8 "&amp;").
      now rewrite unescape_amp, IH.
    + change (escape [chr "<"]) with (utf8 "&lt;").
      now rewrite unescape_lt, IH.
    + change (escape [chr ">"]) with (utf8 "&gt;").
      now rewrite unescape_gt, IH.
  - rewrite escape_cons_other by exact Hc.
    rewrite unescape_other, IH; [reflexivity|].
    unfold reserved in Hc. apply orb_false_iff in Hc as [Hc _].
    now apply orb_false_iff in Hc as [Hc _].
Qed.

Lemma escape_length (s : str) :
  length s <= length (escape s)
  /\ (existsb reserved s = true -> length s < length (escape s)).
Proof.
  induction s as [|c s [IH1 IH2]]; [split; [reflexivity|discriminate]|].
  cbn [existsb]. destruct (reserved c) eqn:Hc.
  - rewrite escape_cons, length_app.
    assert (2 <= length (escape [c]))
      by (destruct (reserved_cases c Hc) as [-> | [-> | ->]]; vm_compute; lia).
    cbn [length orb]. split; [lia|intros _; lia].
  - rewrite escape_cons_other by exact Hc. cbn [length orb].
    split; [lia|]. intros H. specialize (IH2 H). lia.
Qed.

Lemma escape_plain (s : str) : existsb reserved s = false -> escape s = s.
Proof.
  induction s as [|c s IH]; [reflexivity|].
  cbn [existsb]. intros H. apply orb_false_iff in H as [Hc Hs].
  rewrite escape_cons_other by exact Hc. now rewrite IH.
Qed.

Lemma escape_reserved (s : str) :
  existsb reserved (escape s) = existsb reserved s.
Proof.
  induction s as [|c s IH]; [reflexivity|].
  destruct (reserved c) eqn:Hc.
  - rewrite escape_cons, existsb_app. cbn [existsb]. rewrite Hc.
    destruct (reserved_cases c Hc) as [-> | [-> | ->]]; reflexivity.
  - rewrite escape_cons_other by exact Hc. cbn [existsb]. now rewrite Hc, IH.
Qed.

End EscapeFacts.

(** X4: the escaped text holds no [<] and no [>], and holds a reserved
    character (then an ampersand) only if the text held one. *)
Theorem escape_no_angle (text : str) :
  ~ In (chr "<") (escape text) /\ ~ In (chr ">") (escape text)
  /\ (In (chr "&") (escape text) -> existsb reserved text = true).
Proof.
  assert (H : forall x, (x = chr "<" \/ x = chr ">") -> ~ In x (escape text)).
  { intros x Hx. induction text as [|c s IH]; [intros []|].
    destruct (reserved c) eqn:Hc.
    - rewrite escape_cons, in_app_iff. intros [Hin|Hin]; [|now apply IH].
      revert Hin.
      destruct (reserved_cases c Hc) as [-> | [-> | ->]];
        destruct Hx as [-> | ->]; vm_compute; intuition discriminate.
    - rewrite escape_cons_other by exact Hc. intros [->|Hin]; [|now apply IH].
      destruct Hx as [-> | ->]; discriminate Hc. }
  split; [apply H; now left|]. split; [apply H; now right|].
  intros Hin. destruct (existsb reserved text) eqn:E; [reflexivity|].
  rewrite (escape_plain text E) in Hin.
  assert (X : existsb reserved text = true)
    by (apply existsb_exists; exists (chr "&"); split; [exact Hin|reflexivity]).
  congruence.
Qed.

(** X5: escaping loses nothing: reading the three entities back gives the
    text again, so two texts with the same escaped form are the same text. *)
Theorem escape_injective (s t : str) :
  unescape (escape s) = s /\ (escape s = escape t -> s = t).
Proof.
  split; [apply unescape_escape|].
  intros H. rewrite <- (unescape_escape s), <- (unescape_escape t).
  now rewrite H.
Qed.

(** X6: escaping leaves a text as it is exactly when the text holds none
    of the three reserved characters; escaping is not repeatable: on a text
    that holds one, escaping twice differs from escaping once. *)
Theorem escape_fixed_iff (text : str) :
  (escape text = text <-> existsb reserved text = false)
  /\ (escape (escape text) = escape text <-> existsb reserved text = false).
Proof.
  assert (H : forall s, escape s = s <-> existsb reserved s = false).
  { intros s. split; [|apply escape_plain].
    intros Heq. destruct (existsb reserved s) eqn:E; [|reflexivity].
    destruct (escape_length s) as [_ Hlt]. specialize (Hlt E).
    rewrite Heq in Hlt. lia. }
  split; [apply H|]. rewrite H. now rewrite escape_reserved.
Qed.

(** ** Comment spans, further *)

(** X7: a span from an opening glyph to the nearest closing glyph of the
    same line is wrapped in one comment marker, both glyphs inside it, the
    text before it (if it holds no opening glyph) is left as it is, and the
    wrapping goes on after the span. *)
Theorem span_wrapped (a inner rest : str) :
  ~ In open_glyph a -> ~ In nl inner -> ~ In close_glyph inner ->
  wrap_comments (a ++ open_glyph :: inner ++ close_glyph :: rest) =
  a ++ span_open ++ open_glyph :: inner ++ close_glyph :: span_close
  ++ wrap_comments rest.
Proof.
  intros Ha Hnl Hcl. rewrite wrap_no_open by exact Ha. f_equal.
  apply wrap_open_some. now apply find_close_intro.
Qed.

Lemma span_wrapped_witness :
  (~ In open_glyph (utf8 "贾雨村") /\ ~ In nl (utf8 "批【注")
   /\ ~ In close_glyph (utf8 "批【注"))
  /\ wrap_comments (utf8 "贾雨村" ++ open_glyph :: utf8 "批【注" ++ close_glyph
                    :: utf8 "风尘】") =
     utf8 "贾雨村" ++ span_open ++ open_glyph :: utf8 "批【注" ++ close_glyph
     :: span_close ++ wrap_comments (utf8 "风尘】").
Proof.
  assert (H1 : ~ In open_glyph (utf8 "贾雨村"))
    by (vm_compute; intuition discriminate).
  assert (H2 : ~ In nl (utf8 "批【注")) by (vm_compute; intuition discriminate).
  assert (H3 : ~ In close_glyph (utf8 "批【注"))
    by (vm_compute; intuition discriminate).
  split; [now repeat split|].
  exact (span_wrapped _ _ _ H1 H2 H3).
Defined.

(** X8: a text without an opening glyph, or without a closing glyph, gets
    no marker: wrapping leaves it as it is. *)
Theorem no_span_no_marker (text : str) :
  ~ In open_glyph text \/ ~ In close_glyph text ->
  wrap_comments text = text.
Proof.
  intros [H|H].
  - rewrite <- (app_nil_r text) at 1. rewrite wrap_no_open by exact H.
    rewrite wrap_nil.
    apply app_nil_r.
  - now apply wrap_no_close.
Qed.

Lemma no_span_no_marker_witness :
  (~ In open_glyph (utf8 "只有【开头") \/ ~ In close_glyph (utf8 "只有【开头"))
  /\ wrap_comments (utf8 "只有【开头") = utf8 "只有【开头".
Proof.
  assert (H : ~ In open_glyph (utf8 "只有【开头")
              \/ ~ In close_glyph (utf8 "只有【开头"))
    by (right; vm_compute; intuition discriminate).
  split; [exact H|]. exact (no_span_no_marker _ H).
Defined.

(** ** The matching engine, further *)
Section Engine.

Lemma match_at_start (r : Re.regex) (p : nat) (s : str) (m : Re.rmatch_obj) :
  Re.match_at r p s = Some m -> Re.mo_start m = p.
Proof.
  unfold Re.match_at. destruct (Re.rmatch r _); [discriminate|].
  intros H. now injection H as <-.
Qed.

(** Every match of a scan is the match of the pattern at its own start. *)
Lemma finditer_from_matches (r : Re.regex) (rest : str) :
  forall skip pos m,
    In m (Re.finditer_from r skip pos rest) ->
    exists k, Re.mo_start m = pos + k /\ k <= length rest
              /\ Re.match_at r (pos + k) (skipn k rest) = Some m.
Proof.
  induction rest as [|c t IH]; intros skip pos m H.
  - destruct skip; cbn [Re.finditer_from] in H; [|destruct H].
    destruct (Re.match_at r pos []) as [m0|] eqn:E; [|destruct H].
    destruct H as [<-|[]]. exists 0. rewrite Nat.add_0_r. cbn [skipn].
    split; [now apply match_at_start with (r := r) (s := [])|].
    split; [lia|exact E].
  - assert (Hshift : forall sk, In m (Re.finditer_from r sk (S pos) t) ->
              exists k, Re.mo_start m = pos + k /\ k <= length (c :: t)
                        /\ Re.match_at r (pos + k) (skipn k (c :: t)) = Some m).
    { intros sk Hin. destruct (IH sk (S pos) m Hin) as (k & H1 & H2 & H3).
      exists (S k). cbn [skipn length].
      replace (pos + S k) with (S pos + k) by lia.
      split; [exact H1|]. split; [lia|exact H3]. }
    destruct skip as [|sk]; cbn [Re.finditer_from] in H.
    + destruct (Re.match_at r pos (c :: t)) as [m0|] eqn:E.
      * destruct H as [<-|H]; [|now apply Hshift in H].
        exists 0. rewrite Nat.add_0_r. cbn [skipn].
        split; [now apply match_at_start with (r := r) (s := c :: t)|].
        split; [lia|exact E].
      * now apply Hshift in H.
    + now apply Hshift in H.
Qed.

Lemma greedy_in (p : codepoint -> bool) (rest : str) :
  forall pos g st,
    In st (Re.greedy p pos rest g) ->
    pos <= Re.m_pos st /\ Re.m_groups st = g.
Proof.
  induction rest as [|c t IH]; intros pos g st H; cbn [Re.greedy] in H.
  - destruct H as [<-|[]]. now split.
  - destruct (p c).
    + apply in_app_iff in H as [H|[<-|[]]]; [|now split].
      destruct (IH _ _ _ H) as [H1 H2]. split; [lia|exact H2].
    + destruct H as [<-|[]]. now split.
Qed.

Lemma lazy_in (p : codepoint -> bool) (rest : str) :
  forall pos g st,
    In st (Re.lazy p pos rest g) ->
    pos <= Re.m_pos st /\ Re.m_groups st = g.
Proof.
  induction rest as [|c t IH]; intros pos g st H; cbn [Re.lazy] in H.
  - destruct H as [<-|[]]. now split.
  - destruct H as [<-|H]; [now split|].
    destruct (p c); [|destruct H].
    destruct (IH _ _ _ H) as [H1 H2]. split; [lia|exact H2].
Qed.

Lemma step_in (p : codepoint -> bool) (st st' : Re.mstate) :
  In st' (Re.step p st) ->
  Re.m_pos st' = S (Re.m_pos st) /\ Re.m_groups st' = Re.m_groups st
  /\ exists c, Re.m_rest st = c :: Re.m_rest st' /\ p c = true.
Proof.
  unfold Re.step. destruct (Re.m_rest st) as [|c t]; [intros []|].
  destruct (p c) eqn:E; [|intros []]. intros [<-|[]]. cbn.
  repeat split. now exists c.
Qed.

(** A match never moves backwards. *)
Lemma rmatch_pos (r : Re.regex) :
  forall st st', In st' (Re.rmatch r st) -> Re.m_pos st <= Re.m_pos st'.
Proof.
  induction r as [|c|p| | |r1 IH1 r2 IH2|r1 IH1 r2 IH2|p|p|n r1 IH1];
    intros st st' H; cbn [Re.rmatch] in H.
  - destruct H as [<-|[]]. lia.
  - apply step_in in H as (H & _). lia.
  - apply step_in in H as (H & _). lia.
  - destruct (Re.m_pos st =? 0); [|destruct H]. destruct H as [<-|[]]. lia.
  - destruct (Re.m_rest st) as [|x [|y t]]; [| |destruct H].
    + destruct H as [<-|[]]. lia.
    + destruct (x =? nl)%N; [|destruct H]. destruct H as [<-|[]]. lia.
  - apply in_flat_map in H as (st1 & H1 & H2).
    apply IH1 in H1. apply IH2 in H2. lia.
  - apply in_app_iff in H as [H|H]; [now apply IH1|now apply IH2].
  - now apply greedy_in in H.
  - now apply lazy_in in H.
  - apply in_map_iff in H as (st1 & <- & H1). apply IH1 in H1. exact H1.
Qed.

(** A pattern without groups records no group. *)
Lemma rmatch_groups (r : Re.regex) :
  grp_free r = true ->
  forall st st', In st' (Re.rmatch r st) -> Re.m_groups st' = Re.m_groups st.
Proof.
  induction r as [|c|p| | |r1 IH1 r2 IH2|r1 IH1 r2 IH2|p|p|n r1 IH1];
    intros Hr st st' H; cbn [grp_free] in Hr; cbn [Re.rmatch] in H.
  - now destruct H as [<-|[]].
  - now apply step_in in H as (_ & H & _).
  - now apply step_in in H as (_ & H & _).
  - destruct (Re.m_pos st =? 0); [|destruct H]. now destruct H as [<-|[]].
  - destruct (Re.m_rest st) as [|x [|y t]]; [| |destruct H].
    + now destruct H as [<-|[]].
    + destruct (x =? nl)%N; [|destruct H]. now destruct H as [<-|[]].
  - apply andb_true_iff in Hr as [Hr1 Hr2].
    apply in_flat_map in H as (st1 & H1 & H2).
    rewrite (IH2 Hr2 _ _ H2). now apply IH1.
  - apply andb_true_iff in Hr as [Hr1 Hr2].
    apply in_app_iff in H as [H|H]; [now apply IH1|now apply IH2].
  - now apply greedy_in in H.
  - now apply lazy_in in H.
  - discriminate Hr.
Qed.

End Engine.

(** ** Chapter boundaries and chapter records *)
Section Chapters.

Lemma header_here_starts (s : str) :
  header_here s = true -> exists t, s = chr "第" :: t.
Proof.
  destruct s as [|c t]; [discriminate|].
  destruct (N.eqb_spec (chr "第") c) as [<-|Hc]; [now exists t|].
  intros H. rewrite header_here_first in H; [discriminate|].
  now apply N.eqb_neq.
Qed.

(** A boundary is the start of the text or a line break, and 第 follows. *)
Lemma boundary_shape (body : str) (m : Re.rmatch_obj) :
  In m (Re.finditer chap_header_pattern body) ->
  (Re.mo_start m = 0 /\ exists t, body = chr "第" :: t)
  \/ exists t, skipn (Re.mo_start m) body = nl :: chr "第" :: t.
Proof.
  intros H.
  destruct (finditer_from_matches _ _ _ _ _ H) as (k & Hk & Hlen & Hm).
  cbn [Nat.add] in *. rewrite Hk.
  assert (Hs : is_some (Re.match_at chap_header_pattern k (skipn k body)) = true)
    by now rewrite Hm.
  clear Hk Hm.
  rewrite chap_header_match in Hs. apply orb_true_iff in Hs as [Hs|Hs].
  - apply andb_true_iff in Hs as [H0 Hh]. apply Nat.eqb_eq in H0. subst k.
    left. split; [reflexivity|]. now apply header_here_starts.
  - right. destruct (skipn k body) as [|c t]; [discriminate|].
    apply andb_true_iff in Hs as [Hc Hh]. apply N.eqb_eq in Hc. subst c.
    destruct (header_here_starts _ Hh) as [t' ->]. now exists t'.
Qed.

Lemma skipn_cons_length (s : str) (p : nat) (c : codepoint) (t : str) :
  skipn p s = c :: t -> p + 1 + length t = length s.
Proof.
  intros H. apply (f_equal (@length codepoint)) in H.
  rewrite length_skipn in H. simpl in H. lia.
Qed.

Lemma strip_nl_cons (s : str) : Str.strip (nl :: s) = Str.strip s.
Proof. reflexivity. Qed.

(** The chunk from a boundary to the next one, or to the end of the body,
    begins with 第 once trimmed. *)
Lemma chunk_head (body : str) (p q : nat) :
  ((p = 0 /\ exists t, body = chr "第" :: t)
   \/ exists t, skipn p body = nl :: chr "第" :: t) ->
  p < q ->
  (q = length body \/ exists t, skipn q body = nl :: t) ->
  exists t, Str.strip (Str.slice body p q) = chr "第" :: t.
Proof.
  intros Hp Hpq Hq. unfold Str.slice.
  destruct Hp as [[-> [t ->]]|[t Ht]].
  - cbn [skipn]. replace (q - 0) with (S (q - 1)) by lia. cbn [firstn].
    now apply strip_keeps_head.
  - rewrite Ht.
    assert (Hq2 : p + 2 <= q).
    { destruct Hq as [->|[t' Ht']].
      - apply skipn_cons_length in Ht. simpl in Ht. lia.
      - destruct (Nat.eq_dec q (p + 1)) as [->|]; [|lia].
        replace (p + 1) with (1 + p) in Ht' by lia.
        rewrite <- skipn_skipn, Ht in Ht'. cbn [skipn] in Ht'.
        discriminate Ht'. }
    replace (q - p) with (S (S (q - p - 2))) by lia. cbn [firstn].
    rewrite strip_nl_cons. now apply strip_keeps_head.
Qed.

Lemma split_head (c x : codepoint) (t : str) :
  x <> c -> exists l ls, Str.split c (x :: t) = (x :: l) :: ls.
Proof.
  intros Hx. cbn [Str.split].
  replace (x =? c)%N with false by (symmetry; now apply N.eqb_neq).
  destruct (Str.split c t) as [|l ls]; eexists; eexists; reflexivity.
Qed.

Lemma firstn_incl (s : str) (n : nat) (x : codepoint) :
  In x (firstn n s) -> In x s.
Proof.
  intros H. rewrite <- (firstn_skipn n s). apply in_or_app. now left.
Qed.

Lemma skipn_incl (s : str) (n : nat) (x : codepoint) :
  In x (skipn n s) -> In x s.
Proof.
  intros H. rewrite <- (firstn_skipn n s). apply in_or_app. now right.
Qed.

Lemma slice_incl (s : str) (a b : nat) (x : codepoint) :
  In x (Str.slice s a b) -> In x s.
Proof.
  unfold Str.slice. intros H. now apply firstn_incl, skipn_incl in H.
Qed.

Lemma group_str_incl (text : str) (m : Re.rmatch_obj) (n : nat) (x : codepoint) :
  In x (group_str text m n) -> In x text.
Proof.
  unfold group_str, Re.group.
  destruct (Re.span_of n _) as [[a b]|]; [apply slice_incl|intros []].
Qed.

Lemma replace_drop_incl (old : codepoint) (s : str) (x : codepoint) :
  In x (Str.replace old [] s) -> In x s /\ x <> old.
Proof.
  induction s as [|c s IH]; [intros []|].
  unfold Str.replace. cbn [flat_map]. fold (Str.replace old [] s).
  destruct (N.eqb_spec c old) as [->|Hc]; cbn [app].
  - intros H. destruct (IH H). split; [now right|assumption].
  - intros [<-|H]; [split; [now left|assumption]|].
    destruct (IH H). split; [now right|assumption].
Qed.

(** The first group of a header match starts the header and is not
    empty. *)
Lemma header_group_one (header : str) (m : Re.rmatch_obj) :
  Re.re_match header_re header = Some m ->
  exists e, 1 <= e /\ group_str header m 1 = firstn e header.
Proof.
  unfold Re.re_match, Re.match_at.
  destruct (Re.rmatch header_re (Re.MState 0 header [])) as [|st sts] eqn:E;
    [discriminate|].
  intros H. injection H as <-.
  assert (Hin : In st (Re.rmatch header_re (Re.MState 0 header [])))
    by (rewrite E; now left).
  clear E. unfold header_re in Hin.
  rewrite rmatch_seq, rmatch_grp in Hin.
  apply in_flat_map in Hin as (s1 & H1 & H2).
  apply in_map_iff in H1 as (s0 & <- & H0).
  unfold numeral_token in H0. rewrite rmatch_seq, rmatch_lit in H0.
  apply in_flat_map in H0 as (sa & Ha & Hb).
  apply step_in in Ha as (Hpa & Hga & _).
  pose proof (rmatch_pos _ _ _ Hb) as Hpb.
  assert (Hgb : Re.m_groups s0 = Re.m_groups sa)
    by (refine (rmatch_groups _ _ _ _ Hb); reflexivity).
  cbn [Re.m_pos Re.m_groups] in *.
  rewrite rmatch_seq in H2. apply in_flat_map in H2 as (s2 & Hc & Hd).
  pose proof (rmatch_groups (Re.Plus Re.ws) eq_refl _ _ Hc) as Hgc.
  rewrite rmatch_grp in Hd. apply in_map_iff in Hd as (s3 & <- & Hd).
  pose proof (rmatch_groups (Re.Star Re.dot) eq_refl _ _ Hd) as Hgd.
  exists (Re.m_pos s0). split; [lia|].
  unfold group_str, Re.group, Re.close_group in *.
  cbn [Re.mo_final Re.m_groups Re.span_of Nat.eqb Re.m_pos] in *.
  rewrite Hgd, Hgc. cbn [Re.span_of Nat.eqb].
  unfold Str.slice. cbn [skipn]. now rewrite Nat.sub_0_r.
Qed.

(** What [chapter_item] makes of a chunk that begins with 第 once
    trimmed. *)
Lemma chapter_item_head (chunk t : str) :
  Str.strip chunk = chr "第" :: t ->
  exists n' title content h',
    chapter_item chunk =
    Chapter (chr "第" :: n') title content (chr "第" :: h').
Proof.
  intros H. unfold chapter_item. rewrite H.
  destruct (split_head nl (chr "第") t) as (l & ls & ->); [discriminate|].
  cbn [hd tl].
  destruct (strip_keeps_head (chr "第") l eq_refl) as [h' ->].
  destruct (Re.re_match header_re (chr "第" :: h')) as [m|] eqn:E.
  - destruct (header_group_one _ _ E) as (e & He & ->).
    destruct e as [|e]; [lia|]. cbn [firstn].
    unfold Str.replace. cbn [flat_map].
    change (chr "第" =? chr " ")%N with false. cbn [app].
    now eexists _, _, _, _.
  - cbn [firstn]. now eexists _, _, _, _.
Qed.

Lemma chapter_items_in (body : str) (starts : list nat) :
  StronglySorted lt starts ->
  forall item,
    In item (chapter_items body starts) ->
    exists start stop,
      In start starts /\ item = chapter_item (Str.slice body start stop)
      /\ (stop = length body \/ (In stop starts /\ start < stop)).
Proof.
  induction 1 as [|s starts Hs IH Hlt]; intros item Hin; [destruct Hin|].
  cbn [chapter_items] in Hin. destruct Hin as [<-|Hin].
  - destruct starts as [|next rest].
    + exists s, (length body). split; [now left|]. split; [reflexivity|now left].
    + exists s, next. split; [now left|]. split; [reflexivity|]. right.
      split; [right; now left|]. apply Forall_inv in Hlt. exact Hlt.
  - destruct (IH item Hin) as (start & stop & H1 & H2 & H3).
    exists start, stop. split; [now right|]. split; [exact H2|].
    destruct H3 as [H3|[H3 H4]]; [now left|]. right. split; [now right|exact H4].
Qed.

Lemma chapter_item_fields (chunk : str) :
  exists n t c h,
    chapter_item chunk = Chapter n t c h
    /\ trimmed t = true /\ trimmed c = true /\ trimmed h = true
    /\ ~ In nl n /\ ~ In nl t /\ ~ In nl h
    /\ (t = h \/ ~ In (chr " ") n).
Proof.
  unfold chapter_item.
  set (lines := Str.split nl (Str.strip chunk)).
  set (header := Str.strip (hd [] lines)).
  assert (Hh : ~ In nl header).
  { unfold header. intros H. apply strip_incl in H. revert H.
    destruct lines as [|l ls] eqn:E; [intros []|]. cbn [hd].
    apply (split_no_sep nl (Str.strip chunk)). fold lines. rewrite E. now left. }
  destruct (Re.re_match header_re header) as [m|].
  - eexists _, _, _, _. split; [reflexivity|].
    repeat split; try apply strip_trimmed.
    + intros H. apply replace_drop_incl in H as [H _].
      now apply group_str_incl in H.
    + intros H. apply strip_incl, group_str_incl in H. contradiction.
    + exact Hh.
    + right. intros H. apply replace_drop_incl in H as [_ H]. now apply H.
  - eexists _, _, _, _. split; [reflexivity|].
    repeat split; try apply strip_trimmed.
    + intros H. apply firstn_incl in H. contradiction.
    + exact Hh.
    + exact Hh.
    + now left.
Qed.

End Chapters.

(** ** The split and the records of a parse *)
Section ParseFacts.

Lemma find_from_first (p s : str) :
  forall i n,
    Str.find_from p s i = Some n ->
    exists k, n = i + k /\ k <= length s
              /\ Str.startswith p (skipn k s) = true
              /\ forall j, j < k -> Str.startswith p (skipn j s) = false.
Proof.
  induction s as [|c s IH]; intros i n H; cbn [Str.find_from] in H.
  - destruct (Str.startswith p []) eqn:E; [|discriminate].
    injection H as <-. exists 0. rewrite Nat.add_0_r.
    split; [reflexivity|]. split; [lia|]. split; [exact E|]. intros j Hj. lia.
  - destruct (Str.startswith p (c :: s)) eqn:E.
    + injection H as <-. exists 0. rewrite Nat.add_0_r.
      split; [reflexivity|]. split; [simpl; lia|]. split; [exact E|].
      intros j Hj. lia.
    + destruct (IH _ _ H) as (k & -> & Hk & Hsw & Hbefore). exists (S k).
      split; [lia|]. split; [simpl; lia|]. split; [exact Hsw|].
      intros [|j] Hj; [exact E|]. cbn [skipn]. apply Hbefore. lia.
Qed.

Lemma chapter_one_start_nonempty (k : nat) (rest : str) :
  chapter_one_start k rest = true -> rest <> [].
Proof.
  intros H ->. unfold chapter_one_start in H. cbn in H.
  now rewrite andb_false_r in H.
Qed.

(** How the split comes about. *)
Lemma split_toc_body_cases (content : str) (out : list str)
    (toc_text body_text : str) :
  split_toc_body content = (out, Some (toc_text, body_text)) ->
  (out = [] /\ Str.find split_marker content = Some (length toc_text)
   /\ exists after, body_text = split_marker ++ after)
  \/ (out = [msg_no_marker] /\ Str.contains split_marker content = false
      /\ chapter_one_start (length toc_text) body_text = true).
Proof.
  unfold split_toc_body, Str.split_once, Str.contains.
  destruct (Str.find split_marker content) as [i|] eqn:E.
  - intros H. left.
    assert (Ho : out = []) by congruence.
    assert (Ht : toc_text = firstn i content) by congruence.
    assert (Hb : body_text = split_marker ++ skipn (i + length split_marker) content)
      by congruence.
    split; [exact Ho|]. split; [|eexists; exact Hb].
    unfold Str.find in E.
    destruct (find_from_first _ _ _ _ E) as (k & -> & Hk & _).
    cbn [Nat.add]. rewrite Ht, length_firstn. f_equal. lia.
  - pose proof (search_from_first first_chapter_re content 0) as Hs.
    fold (Re.search first_chapter_re content) in Hs.
    destruct (Re.search first_chapter_re content) as [m|]; [|discriminate].
    destruct Hs as (k & Hk & Hlen & Hat & _). cbn [Nat.add] in *.
    rewrite first_chapter_match in Hat. rewrite Hk.
    intros H. right.
    assert (Ho : out = [msg_no_marker]) by congruence.
    assert (Ht : toc_text = firstn k content) by congruence.
    assert (Hb : body_text = skipn k content) by congruence.
    split; [exact Ho|]. split; [reflexivity|].
    rewrite Ht, Hb, length_firstn. now replace (Nat.min k (length content)) with k by lia.
Qed.

Lemma chapter_items_item (body : str) (starts : list nat) (item : body_item) :
  In item (chapter_items body starts) ->
  exists chunk, item = chapter_item chunk.
Proof.
  induction starts as [|s starts IH]; [intros []|].
  cbn [chapter_items]. intros [<-|H]; [eexists; reflexivity|now apply IH].
Qed.

(** Where the chapter records of [parse_body] come from. *)
Lemma parse_body_items (body : str) (item : body_item) :
  In item (snd (parse_body body)) ->
  is_chapter item = true ->
  In item (chapter_items body
             (map Re.mo_start (Re.finditer chap_header_pattern body))).
Proof.
  unfold parse_body.
  destruct (Re.finditer chap_header_pattern body) as [|m0 ms].
  - cbn [snd]. intros [<-|[]]. discriminate.
  - cbn [snd]. intros H Hc. apply in_app_iff in H as [H|H]; [|exact H].
    destruct (Str.strip (firstn (Re.mo_start m0) body)); [destruct H|].
    destruct H as [<-|[]]. discriminate Hc.
Qed.

Lemma parsed_items (file : option str) (item : body_item) :
  In item (snd (snd (parse_full_text file))) ->
  exists body, In item (snd (parse_body body)).
Proof.
  destruct file as [content|]; [|intros []].
  unfold parse_full_text.
  destruct (split_toc_body content) as [out [[toc body]|]] eqn:E; [|intros []].
  destruct (parse_body body) as [out' items] eqn:Ep. cbn [snd].
  intros H. exists body. now rewrite Ep.
Qed.

End ParseFacts.

(** X9: the split loses no text and never gives an empty body: the file
    is the table of contents region followed by the body region.  With the
    marker in the file nothing is printed and the body begins with the first
    occurrence of the marker; without it the warning is printed and the body
    begins where chapter one opens. *)
Theorem split_keeps_text (content : str) (out : list str)
    (toc_text body_text : str) :
  split_toc_body content = (out, Some (toc_text, body_text)) ->
  content = toc_text ++ body_text /\ body_text <> []
  /\ ((out = [] /\ Str.startswith split_marker body_text = true
       /\ forall j, j < length toc_text ->
                    Str.startswith split_marker (skipn j content) = false)
      \/ (out = [msg_no_marker] /\ Str.contains split_marker content = false
          /\ chapter_one_start (length toc_text) body_text = true)).
Proof.
  intros H. pose proof (split_toc_body_cut _ H) as Hcut.
  split; [exact Hcut|].
  destruct (split_toc_body_cases _ _ _ _ H)
    as [(Ho & Hf & after & Hb)|(Ho & Hm & Hc)].
  - split; [rewrite Hb; discriminate|]. left. split; [exact Ho|].
    split; [rewrite Hb; apply startswith_app|].
    unfold Str.find in Hf.
    destruct (find_from_first _ _ _ _ Hf) as (k & Hk & _ & _ & Hbefore).
    cbn [Nat.add] in Hk. subst k. exact Hbefore.
  - split; [now apply chapter_one_start_nonempty in Hc|]. right. now repeat split.
Qed.

Lemma split_keeps_text_witness :
  let content := utf8 "目录扉页题诗：甲扉页题诗：乙" in
  split_toc_body content = ([], Some (utf8 "目录", utf8 "扉页题诗：甲扉页题诗：乙"))
  /\ content = utf8 "目录" ++ utf8 "扉页题诗：甲扉页题诗：乙".
Proof.
  intros content.
  assert (H : split_toc_body content =
              ([], Some (utf8 "目录", utf8 "扉页题诗：甲扉页题诗：乙")))
    by (vm_compute; reflexivity).
  split; [exact H|].
  exact (proj1 (split_keeps_text _ _ _ _ H)).
Defined.

(** X10: every chapter boundary the scan detects is the start of the body
    or a line break of it, and the character after it is 第. *)
Theorem boundary_at_line_start (body : str) (m : Re.rmatch_obj) :
  In m (Re.finditer chap_header_pattern body) ->
  (Re.mo_start m = 0 /\ exists t, body = chr "第" :: t)
  \/ exists t, skipn (Re.mo_start m) body = nl :: chr "第" :: t.
Proof. apply boundary_shape. Qed.

Lemma boundary_at_line_start_witness :
  let body := utf8 "序" ++ [nl] ++ utf8 "第一回 甲" ++ [nl] ++ utf8 "乙" in
  let m := Re.MatchObj 1 (Re.MState 8 (utf8 "乙")
                            [(3, (7, 8)); (2, (2, 7)); (1, (1, 2))]) in
  In m (Re.finditer chap_header_pattern body)
  /\ ((Re.mo_start m = 0 /\ exists t, body = chr "第" :: t)
      \/ exists t, skipn (Re.mo_start m) body = nl :: chr "第" :: t).
Proof.
  intros body m.
  assert (H : In m (Re.finditer chap_header_pattern body))
    by (vm_compute; left; reflexivity).
  split; [exact H|]. exact (boundary_at_line_start body m H).
Defined.

(** X11: in every parse, the numeral token and the header of every chapter
    record begin with 第; in particular the numeral token is never empty. *)
Theorem chapter_records_open_with_glyph (file : option str)
    (n t c h : str) :
  In (Chapter n t c h) (snd (snd (parse_full_text file))) ->
  exists n' h', n = chr "第" :: n' /\ h = chr "第" :: h'.
Proof.
  intros H. destruct (parsed_items _ _ H) as (body & Hin).
  apply parse_body_items in Hin; [|reflexivity].
  pose proof (finditer_from_starts chap_header_pattern body 0 0) as [_ Hsorted].
  fold (Re.finditer chap_header_pattern body) in Hsorted.
  destruct (chapter_items_in body _ Hsorted _ Hin)
    as (start & stop & Hstart & Hitem & Hstop).
  apply in_map_iff in Hstart as (m & <- & Hm).
  pose proof (boundary_shape _ _ Hm) as Hshape.
  assert (Hchunk : exists t', Str.strip (Str.slice body (Re.mo_start m) stop)
                              = chr "第" :: t').
  { destruct Hstop as [->|[Hq Hlt]].
    - apply chunk_head; [exact Hshape| |now left].
      destruct Hshape as [[-> [t' ->]]|[t' Ht']]; [simpl; lia|].
      apply skipn_cons_length in Ht'. lia.
    - apply chunk_head; [exact Hshape|exact Hlt|]. right.
      apply in_map_iff in Hq as (m' & <- & Hm').
      destruct (boundary_shape _ _ Hm') as [[H0 _]|[t' Ht']]; [lia|].
      eexists. exact Ht'. }
  destruct Hchunk as [t' Ht'].
  destruct (chapter_item_head _ _ Ht') as (n' & ti & co & h' & Heq).
  rewrite Heq in Hitem. injection Hitem as -> _ _ ->. now exists n', h'.
Qed.

Lemma chapter_records_open_with_glyph_witness :
  In (Chapter (utf8 "第一回") (utf8 "开篇之题　　这是正文。") []
              (utf8 "第一回　开篇之题　　这是正文。"))
     (snd (snd (parse_full_text (Some scenario_A))))
  /\ exists n' h', utf8 "第一回" = chr "第" :: n'
                   /\ utf8 "第一回　开篇之题　　这是正文。" = chr "第" :: h'.
Proof.
  assert (H : In (Chapter (utf8 "第一回") (utf8 "开篇之题　　这是正文。") []
                          (utf8 "第一回　开篇之题　　这是正文。"))
                 (snd (snd (parse_full_text (Some scenario_A)))))
    by (vm_compute; right; left; reflexivity).
  split; [exact H|].
  exact (chapter_records_open_with_glyph _ _ _ _ _ H).
Defined.

(** X12: in every parse, the title, the body and the header of every
    chapter record have no whitespace at either end; the numeral token, the
    title and the header hold no line break; and the numeral token holds no
    space character (U+0020) unless the header did not match the header
    pattern, in which case the title is the whole header. *)
Theorem chapter_record_fields (file : option str) (n t c h : str) :
  In (Chapter n t c h) (snd (snd (parse_full_text file))) ->
  trimmed t = true /\ trimmed c = true /\ trimmed h = true
  /\ ~ In nl n /\ ~ In nl t /\ ~ In nl h
  /\ (t = h \/ ~ In (chr " ") n).
Proof.
  intros H. destruct (parsed_items _ _ H) as (body & Hin).
  apply parse_body_items in Hin; [|reflexivity].
  apply chapter_items_item in Hin as [chunk Hitem].
  destruct (chapter_item_fields chunk) as (n0 & t0 & c0 & h0 & Heq & Hf).
  rewrite Heq in Hitem. injection Hitem as -> -> -> ->. exact Hf.
Qed.

Lemma chapter_record_fields_witness :
  In (Chapter (utf8 "第一回") (utf8 "开篇之题　　这是正文。") []
              (utf8 "第一回　开篇之题　　这是正文。"))
     (snd (snd (parse_full_text (Some scenario_A))))
  /\ trimmed (utf8 "开篇之题　　这是正文。") = true.
Proof.
  assert (H : In (Chapter (utf8 "第一回") (utf8 "开篇之题　　这是正文。") []
                          (utf8 "第一回　开篇之题　　这是正文。"))
                 (snd (snd (parse_full_text (Some scenario_A)))))
    by (vm_compute; right; left; reflexivity).
  split; [exact H|].
  exact (proj1 (chapter_record_fields _ _ _ _ _ H)).
Defined.

(** X13: in every parse only the first record can be a front matter
    record, and the body of a front matter record is never empty. *)
Theorem front_matter_first (file : option str) :
  let items := snd (snd (parse_full_text file)) in
  forallb is_chapter (tl items) = true
  /\ forall title content filename,
       In (Intro title content filename) items ->
       content <> []
       /\ hd_error items = Some (Intro title content filename).
Proof.
  cbv zeta. destruct file as [content|]; [|split; [reflexivity|intros ? ? ? []]].
  unfold parse_full_text.
  destruct (split_toc_body content) as [out [[toc body]|]] eqn:E;
    [|split; [reflexivity|intros ? ? ? []]].
  assert (Hbody : body <> []).
  { destruct (split_toc_body_cases _ _ _ _ E) as [(_ & _ & after & ->)|(_ & _ & Hc)].
    - discriminate.
    - now apply chapter_one_start_nonempty in Hc. }
  unfold parse_body.
  destruct (Re.finditer chap_header_pattern body) as [|m0 ms]; cbn [snd].
  - split; [reflexivity|]. intros title c f [Heq|[]].
    injection Heq as <- <- <-. now split.
  - set (starts := map Re.mo_start (m0 :: ms)).
    assert (Hall : forallb is_chapter (chapter_items body starts) = true).
    { apply forallb_forall. intros item Hi.
      apply chapter_items_item in Hi as [chunk ->].
      destruct (chapter_item_fields chunk) as (? & ? & ? & ? & -> & _).
      reflexivity. }
    assert (Hno : forall title c f,
               ~ In (Intro title c f) (chapter_items body starts)).
    { intros title c f Hi. rewrite forallb_forall in Hall.
      specialize (Hall _ Hi). discriminate Hall. }
    destruct (Str.strip (firstn (Re.mo_start m0) body)) as [|x l] eqn:Es;
      cbn [app tl].
    + split.
      * unfold starts. cbn [map chapter_items] in *. cbn [forallb] in Hall.
        now apply andb_true_iff in Hall as [_ Hall].
      * intros title c f Hi. now apply Hno in Hi.
    + split; [exact Hall|]. intros title c f [Heq|Hi]; [|now apply Hno in Hi].
      injection Heq as <- <- <-. split; [discriminate|reflexivity].
Qed.

(** ** The table of contents entries *)
Section TocEntries.

Lemma numbered_snoc (acc : list toc_entry) (num title : str) :
  numbered acc -> trimmed title = true -> ~ In (chr " ") num ->
  numbered (acc ++ [TocEntry (toc_id_of (length acc + 1)) num title
                             (toc_filename_of (length acc + 1))]).
Proof.
  intros (Hid & Hfn & Hall) Ht Hn. unfold numbered.
  rewrite !map_app, length_app. cbn [length map].
  rewrite Nat.add_1_r, seq_S, !map_app, <- Hid, <- Hfn.
  cbn [map Nat.add toc_id toc_filename].
  split; [reflexivity|]. split; [reflexivity|].
  intros e He. apply in_app_iff in He as [He|[<-|[]]]; [now apply Hall|].
  cbn [toc_title toc_num_str]. now split.
Qed.

Lemma fold_numbered (step : list toc_entry -> str -> list toc_entry) :
  appends_one step ->
  forall lines acc,
    numbered acc ->
    numbered (fold_left step lines acc)
    /\ length (fold_left step lines acc) <=
       length acc
       + length (filter (fun l => negb (forallb isspace l)) lines).
Proof.
  intros Hstep lines. induction lines as [|line lines IH]; intros acc Hacc.
  - cbn. split; [exact Hacc|lia].
  - cbn [fold_left filter].
    destruct (Hstep acc line) as [->|(Hb & num & title & Ht & Hn & ->)].
    + destruct (IH acc Hacc) as [H1 H2]. split; [exact H1|].
      destruct (negb (forallb isspace line)); simpl; lia.
    + destruct (IH _ (numbered_snoc acc num title Hacc Ht Hn)) as [H1 H2].
      split; [exact H1|]. rewrite Hb. cbn [negb length].
      rewrite length_app in H2. simpl in H2. lia.
Qed.

Lemma toc_id_of_inj (n m : nat) : toc_id_of n = toc_id_of m -> n = m.
Proof.
  unfold toc_id_of. intros H. apply app_inv_head in H. now apply of_nat_inj.
Qed.

Lemma strip_blank (line : str) :
  forallb isspace line = true -> Str.strip line = [].
Proof.
  intros H. pose proof (blank_spaces line) as Hb. rewrite H in Hb.
  unfold blank in Hb. now destruct (Str.strip line).
Qed.

Lemma replace_no_space (s : str) : ~ In (chr " ") (Str.replace (chr " ") [] s).
Proof. intros H. apply replace_drop_incl in H as [_ H]. now apply H. Qed.

Lemma full_text_step : appends_one FullText.toc_step.
Proof.
  intros acc line. unfold FullText.toc_step.
  destruct (forallb isspace line) eqn:Hb.
  - left. now rewrite (strip_blank line Hb).
  - destruct (Str.strip line) as [|c l]; [now left|].
    destruct (Re.re_match toc_pattern (c :: l)) as [m|]; [|now left].
    right. split; [reflexivity|]. eexists _, _.
    split; [apply strip_trimmed|]. split; [apply replace_no_space|].
    reflexivity.
Qed.

Lemma per_chapter_step : appends_one PerChapter.toc_step.
Proof.
  intros acc line. unfold PerChapter.toc_step.
  destruct (forallb isspace line) eqn:Hb.
  - left. now rewrite (strip_blank line Hb).
  - destruct (Str.strip line) as [|c l]; [now left|].
    destruct (Re.re_match PerChapter.toc_line_re (c :: l)) as [m|]; [|now left].
    right. split; [reflexivity|]. eexists _, _.
    split; [apply strip_trimmed|]. split; [apply replace_no_space|].
    reflexivity.
Qed.

Lemma numbered_nil : numbered [].
Proof. split; [reflexivity|split; [reflexivity|intros e []]]. Qed.

(** A round of the loop of [parse_full_text] appends what its line
    gives. *)
Lemma full_text_step_fields (acc : list toc_entry) (raw : str) :
  map (fun e => (toc_num_str e, toc_title e)) (FullText.toc_step acc raw) =
  map (fun e => (toc_num_str e, toc_title e)) acc
  ++ toc_fields toc_pattern raw.
Proof.
  unfold FullText.toc_step, toc_fields. cbv zeta.
  destruct (Str.strip raw) as [|c l]; [now rewrite app_nil_r|].
  destruct (Re.re_match toc_pattern (c :: l)) as [m|];
    [|now rewrite app_nil_r].
  rewrite map_app. reflexivity.
Qed.

Lemma per_chapter_step_fields (acc : list toc_entry) (raw : str) :
  map (fun e => (toc_num_str e, toc_title e)) (PerChapter.toc_step acc raw) =
  map (fun e => (toc_num_str e, toc_title e)) acc
  ++ toc_fields PerChapter.toc_line_re raw.
Proof.
  unfold PerChapter.toc_step, toc_fields. cbv zeta.
  destruct (Str.strip raw) as [|c l]; [now rewrite app_nil_r|].
  destruct (Re.re_match PerChapter.toc_line_re (c :: l)) as [m|];
    [|now rewrite app_nil_r].
  rewrite map_app. reflexivity.
Qed.

(** The entries of a loop are what its lines give, line after line. *)
Lemma fold_fields (r : Re.regex)
    (step : list toc_entry -> str -> list toc_entry) :
  (forall acc raw,
      map (fun e => (toc_num_str e, toc_title e)) (step acc raw) =
      map (fun e => (toc_num_str e, toc_title e)) acc ++ toc_fields r raw) ->
  forall lines acc,
    map (fun e => (toc_num_str e, toc_title e)) (fold_left step lines acc) =
    map (fun e => (toc_num_str e, toc_title e)) acc
    ++ flat_map (toc_fields r) lines.
Proof.
  intros Hstep lines. induction lines as [|raw lines IH]; intros acc.
  - cbn. now rewrite app_nil_r.
  - cbn [fold_left flat_map]. now rewrite IH, Hstep, app_assoc.
Qed.

End TocEntries.

(** X14: the table of contents entries [parse_full_text] makes come from
    the lines of the table of contents region in their order: the numeral
    tokens and titles of the entries are what the lines that match the
    pattern give, line after line.  The entries are numbered by their
    position, whatever chapter numbers the lines declare: the ids are chap1,
    chap2, ... and the file names chapter1.html, chapter2.html, ..., without
    repetition; there are at most as many entries as lines that are not
    blank; every title is trimmed and no numeral token holds a space
    character (U+0020). *)
Theorem toc_entries_numbered (toc_text : str) :
  let es := parse_toc_text toc_text in
  map (fun e => (toc_num_str e, toc_title e)) es =
    flat_map (toc_fields toc_pattern) (Str.split nl toc_text)
  /\ map toc_id es = map toc_id_of (seq 1 (length es))
  /\ map toc_filename es = map toc_filename_of (seq 1 (length es))
  /\ NoDup (map toc_id es)
  /\ length es <=
     length (filter (fun l => negb (forallb isspace l)) (Str.split nl toc_text))
  /\ forall e, In e es ->
       trimmed (toc_title e) = true /\ ~ In (chr " ") (toc_num_str e).
Proof.
  cbv zeta. unfold parse_toc_text.
  destruct (fold_numbered _ full_text_step (Str.split nl toc_text) [] numbered_nil)
    as [(Hid & Hfn & Hall) Hlen].
  split; [exact (fold_fields _ _ full_text_step_fields _ [])|].
  split; [exact Hid|]. split; [exact Hfn|]. split; [|split; [exact Hlen|exact Hall]].
  rewrite Hid. apply NoDup_map_injective; [|apply seq_NoDup].
  intros n m. apply toc_id_of_inj.
Qed.

(** X15: the same holds for [parse_toc] of the older script: the numeral
    tokens and titles of its entries are what the lines of [toc.txt] that
    match its pattern give, line after line; the entries are numbered chap1,
    chap2, ... with files chapter1.html, chapter2.html, ... in this order;
    and a missing file gives no entry and one warning. *)
Theorem older_toc_entries_numbered (file : option str) :
  let es := snd (PerChapter.parse_toc file) in
  map toc_id es = map toc_id_of (seq 1 (length es))
  /\ map toc_filename es = map toc_filename_of (seq 1 (length es))
  /\ NoDup (map toc_id es)
  /\ (forall e, In e es ->
        trimmed (toc_title e) = true /\ ~ In (chr " ") (toc_num_str e))
  /\ match file with
     | Some content =>
         fst (PerChapter.parse_toc file) = []
         /\ map (fun e => (toc_num_str e, toc_title e)) es =
            flat_map (toc_fields PerChapter.toc_line_re)
                     (Str.split nl content)
         /\ length es <=
            length (filter (fun l => negb (forallb isspace l))
                      (Str.split nl content))
     | None => PerChapter.parse_toc file = ([PerChapter.msg_no_toc], [])
     end.
Proof.
  cbv zeta. destruct file as [content|]; cbn [PerChapter.parse_toc snd fst].
  - destruct (fold_numbered _ per_chapter_step (Str.split nl content) []
                numbered_nil) as [(Hid & Hfn & Hall) Hlen].
    split; [exact Hid|]. split; [exact Hfn|].
    split; [|split; [exact Hall|split; [reflexivity|split; [|exact Hlen]]]].
    + rewrite Hid. apply NoDup_map_injective; [|apply seq_NoDup].
      intros n m. apply toc_id_of_inj.
    + exact (fold_fields _ _ per_chapter_step_fields _ []).
  - split; [reflexivity|]. split; [reflexivity|]. split; [constructor|].
    split; [intros e []|reflexivity].
Qed.

(** ** The pages of a book *)
Section Pages.

Lemma page_loop (items : list body_item) :
  forall st,
    map pg_play_order (pages (fold_left page_step items st)) =
      map pg_play_order (pages st) ++ seq (play_order st) (length items)
    /\ map pg_html (pages (fold_left page_step items st)) =
         map pg_html (pages st)
         ++ map (fun i => process_text (item_content i)) items.
Proof.
  induction items as [|item items IH]; intros st.
  - cbn. now rewrite !app_nil_r.
  - cbn [fold_left]. destruct (IH (page_step st item)) as [H1 H2].
    rewrite H1, H2.
    destruct item; cbn [page_step pages play_order map length seq item_content];
      rewrite !map_app, <- !app_assoc; cbn [map app pg_play_order pg_html];
      now rewrite Nat.add_1_r.
Qed.

(** When all items are chapters every page is a chapter page. *)
Lemma all_chapter_keys (chs : list body_item) :
  forallb is_chapter chs = true ->
  forall st,
    map page_key (pages (fold_left page_step chs st)) =
    map page_key (pages st)
    ++ map key_of (seq (chapter_index st + 1) (length chs)).
Proof.
  induction chs as [|item chs IH]; intros Hall st.
  - cbn. now rewrite app_nil_r.
  - cbn [forallb] in Hall. apply andb_true_iff in Hall as [Hi Hall].
    destruct item; [discriminate Hi|].
    cbn [fold_left]. rewrite (IH Hall).
    cbn [page_step pages chapter_index length seq map].
    rewrite map_app, <- app_assoc. cbn [map app].
    replace (chapter_index st + 1 + 1) with (S (chapter_index st + 1)) by lia.
    reflexivity.
Qed.

(** The records of a parse: chapters only, or one front matter record,
    whose file is intro.html or full.html, and then chapters only. *)
Lemma parsed_shape (file : option str) :
  let items := snd (snd (parse_full_text file)) in
  forallb is_chapter items = true
  \/ exists t c f chs,
       items = Intro t c f :: chs /\ forallb is_chapter chs = true
       /\ (f = utf8 "intro.html" \/ f = utf8 "full.html").
Proof.
  cbv zeta. destruct file as [content|]; [|now left].
  unfold parse_full_text.
  destruct (split_toc_body content) as [out [[toc body]|]]; [|now left].
  unfold parse_body.
  destruct (Re.finditer chap_header_pattern body) as [|m0 ms]; cbn [snd].
  - right. eexists _, _, _, []. split; [reflexivity|]. split; [reflexivity|].
    now right.
  - set (starts := map Re.mo_start (m0 :: ms)).
    assert (Hall : forallb is_chapter (chapter_items body starts) = true).
    { apply forallb_forall. intros item Hi.
      apply chapter_items_item in Hi as [chunk ->].
      destruct (chapter_item_fields chunk) as (? & ? & ? & ? & -> & _).
      reflexivity. }
    destruct (Str.strip (firstn (Re.mo_start m0) body)) as [|x l];
      cbn [app]; [now left|].
    right. eexists _, _, _, _. split; [reflexivity|]. split; [exact Hall|].
    now left.
Qed.

Lemma NoDup_append (A : Type) (l1 l2 : list A) :
  NoDup l1 -> NoDup l2 -> (forall x, In x l1 -> ~ In x l2) ->
  NoDup (l1 ++ l2).
Proof.
  intros H1 H2 Hd. induction H1 as [|x l1 Hx H1 IH]; [exact H2|].
  cbn [app]. constructor.
  - rewrite in_app_iff. intros [H|H]; [contradiction|].
    revert H. apply Hd. now left.
  - apply IH. intros y Hy. apply Hd. now right.
Qed.

Lemma chap_id_prefix (k : nat) : Str.startswith (utf8 "chap_") (chap_id k) = true.
Proof. apply startswith_app. Qed.

Lemma chap_filename_prefix (k : nat) :
  Str.startswith (utf8 "chapter_") (chap_filename k) = true.
Proof. apply startswith_app. Qed.

Lemma not_a_chap_id (x : str) (l : list nat) :
  Str.startswith (utf8 "chap_") x = false -> ~ In x (map chap_id l).
Proof.
  intros Hx Hin. apply in_map_iff in Hin as (k & <- & _).
  rewrite chap_id_prefix in Hx. discriminate.
Qed.

Lemma not_a_chap_filename (x : str) (l : list nat) :
  Str.startswith (utf8 "chapter_") x = false -> ~ In x (map chap_filename l).
Proof.
  intros Hx Hin. apply in_map_iff in Hin as (k & <- & _).
  rewrite chap_filename_prefix in Hx. discriminate.
Qed.

Lemma static_ids_nodup : NoDup (static_manifest_ids ++ [utf8 "intro"]).
Proof.
  repeat constructor; vm_compute; intuition discriminate.
Qed.

Lemma static_ids_not_chap (x : str) :
  In x (static_manifest_ids ++ [utf8 "intro"]) ->
  Str.startswith (utf8 "chap_") x = false.
Proof.
  intros H. vm_compute in H.
  repeat (destruct H as [<-|H]; [reflexivity|]). destruct H.
Qed.

End Pages.

(** X16: the page loop of [main] makes one page for each record, in the
    order of the records; the play orders run 2, 3, 4, ... and the text of
    each page is [process_text] of the text of its record. *)
Theorem pages_in_order (items : list body_item) :
  let ps := main_pages items in
  length ps = length items
  /\ map pg_play_order ps = seq 2 (length items)
  /\ map pg_html ps = map (fun i => process_text (item_content i)) items.
Proof.
  cbv zeta. unfold main_pages.
  destruct (page_loop items (LoopState 2 0 [])) as [H1 H2].
  cbn [pages play_order map app] in H1, H2.
  split; [|split; [exact H1|exact H2]].
  apply (f_equal (@length nat)) in H1. now rewrite length_map, length_seq in H1.
Qed.

(** X17: for every parse, the ids of the pages are pairwise distinct and
    distinct from the ids the manifest template has of its own (ncx, style,
    cover, cover-image, toc), and the file names of the pages are pairwise
    distinct. *)
Theorem page_ids_unique (file : option str) :
  let ps := main_pages (snd (snd (parse_full_text file))) in
  NoDup (static_manifest_ids ++ map pg_id ps)
  /\ NoDup (map pg_filename ps).
Proof.
  cbv zeta.
  destruct (parsed_shape file) as [Hall|(t & c & f & chs & -> & Hall & Hf)].
  - unfold main_pages.
    pose proof (all_chapter_keys _ Hall (LoopState 2 0 [])) as HK.
    cbn [pages chapter_index map app Nat.add] in HK.
    assert (Hid : map pg_id (pages (fold_left page_step
                    (snd (snd (parse_full_text file))) (LoopState 2 0 []))) =
                  map chap_id (seq 1 (length (snd (snd (parse_full_text file)))))).
    { apply (f_equal (map (fun k => snd (fst k)))) in HK.
      now rewrite !map_map in HK. }
    assert (Hfn : map pg_filename (pages (fold_left page_step
                    (snd (snd (parse_full_text file))) (LoopState 2 0 []))) =
                  map chap_filename (seq 1 (length (snd (snd (parse_full_text file)))))).
    { apply (f_equal (map (fun k => snd k))) in HK.
      now rewrite !map_map in HK. }
    rewrite Hid, Hfn. split.
    + apply NoDup_append.
      * pose proof static_ids_nodup as H. now apply NoDup_remove_1 in H; rewrite app_nil_r in H.
      * apply NoDup_map_injective; [|apply seq_NoDup].
        intros n m. apply chap_id_inj.
      * intros x Hx. apply not_a_chap_id, static_ids_not_chap.
        apply in_or_app. now left.
    + apply NoDup_map_injective; [|apply seq_NoDup].
      intros n m. apply chap_filename_inj.
  - unfold main_pages. cbn [fold_left page_step].
    pose proof (all_chapter_keys _ Hall
                  (LoopState (2 + 1) 0
                     ([] ++ [Page None (utf8 "intro") f t (process_text c) 2])))
      as HK.
    cbn [pages chapter_index map app Nat.add play_order] in HK |- *.
    assert (Hid : map pg_id (pages (fold_left page_step chs
                    (LoopState 3 0 [Page None (utf8 "intro") f t (process_text c) 2]))) =
                  utf8 "intro" :: map chap_id (seq 1 (length chs))).
    { apply (f_equal (map (fun k => snd (fst k)))) in HK.
      cbn [map] in HK. rewrite !map_map in HK. exact HK. }
    assert (Hfn : map pg_filename (pages (fold_left page_step chs
                    (LoopState 3 0 [Page None (utf8 "intro") f t (process_text c) 2]))) =
                  f :: map chap_filename (seq 1 (length chs))).
    { apply (f_equal (map (fun k => snd k))) in HK.
      cbn [map] in HK. rewrite !map_map in HK. exact HK. }
    rewrite Hid, Hfn. split.
    + change (static_manifest_ids ++ utf8 "intro" :: map chap_id (seq 1 (length chs)))
        with (static_manifest_ids ++ [utf8 "intro"] ++ map chap_id (seq 1 (length chs))).
      rewrite app_assoc. apply NoDup_append.
      * apply static_ids_nodup.
      * apply NoDup_map_injective; [|apply seq_NoDup].
        intros n m. apply chap_id_inj.
      * intros x Hx. now apply not_a_chap_id, static_ids_not_chap.
    + constructor.
      * apply not_a_chap_filename. now destruct Hf as [-> | ->].
      * apply NoDup_map_injective; [|apply seq_NoDup].
        intros n m. apply chap_filename_inj.
Qed.

(** ** The chunks of the body *)
Section Chunks.

Lemma chapter_items_chunks (body : str) (starts : list nat) :
  chapter_items body starts = map chapter_item (chunks body starts).
Proof.
  induction starts as [|s starts IH]; [reflexivity|].
  cbn [chapter_items chunks map]. now rewrite IH.
Qed.

Lemma slice_then_rest (body : str) (a b : nat) :
  a <= b -> Str.slice body a b ++ skipn b body = skipn a body.
Proof.
  intros H. unfold Str.slice.
  replace b with ((b - a) + a) at 2 by lia.
  rewrite <- skipn_skipn. apply firstn_skipn.
Qed.

Lemma chunks_concat (body : str) (starts : list nat) :
  StronglySorted lt starts ->
  Forall (fun s => s <= length body) starts ->
  concat (chunks body starts) = skipn (hd (length body) starts) body.
Proof.
  induction 1 as [|s starts Hs IH Hlt]; intros Hb.
  - cbn. now rewrite skipn_all.
  - apply Forall_cons_iff in Hb as [Hsb Hb]. cbn [chunks concat hd].
    rewrite (IH Hb). destruct starts as [|next rest]; cbn [hd].
    + rewrite skipn_all, app_nil_r. unfold Str.slice.
      apply firstn_all2. rewrite length_skipn. lia.
    + apply slice_then_rest. apply Forall_inv in Hlt. lia.
Qed.

Lemma finditer_starts_bounded (r : Re.regex) (body : str) :
  Forall (fun s => s <= length body) (map Re.mo_start (Re.finditer r body)).
Proof.
  apply Forall_forall. intros s Hs. apply in_map_iff in Hs as (m & <- & Hm).
  destruct (finditer_from_matches _ _ _ _ _ Hm) as (k & Hk & Hlen & _).
  cbn [Nat.add] in Hk. lia.
Qed.

End Chunks.

(** X18: the chapter loop cuts the body at the boundaries and drops
    nothing: the chapter records are made, one each and in order, from
    chunks which, put one after the other behind the text before the first
    boundary, are the body again. *)
Theorem chunks_tile_body (body_text : str) :
  let starts := map Re.mo_start (Re.finditer chap_header_pattern body_text) in
  chapter_items body_text starts = map chapter_item (chunks body_text starts)
  /\ length (chunks body_text starts) = length starts
  /\ firstn (hd (length body_text) starts) body_text
     ++ concat (chunks body_text starts) = body_text.
Proof.
  cbv zeta. split; [apply chapter_items_chunks|]. split.
  - induction (map Re.mo_start (Re.finditer chap_header_pattern body_text))
      as [|s l IH]; [reflexivity|]. cbn [chunks length]. now rewrite IH.
  - rewrite chunks_concat.
    + apply firstn_skipn.
    + apply (finditer_from_starts chap_header_pattern body_text 0 0).
    + apply finditer_starts_bounded.
Qed.

(** ** The two versions of [process_text] *)

Section TwoVersions.

Lemma render_open_tag (k : kind) (line : str) :
  render k line = open_tag k ++ line ++ utf8 "</p>".
Proof. destruct k; unfold render, open_tag; reflexivity. Qed.

(** What the two loops append, by the lines the newer one emits. *)
Lemma both_loops (lines : list str) :
  flat_map PerChapter.line_step lines =
    map (fun l => open_tag (older_kind l) ++ l ++ utf8 "</p>")
        (map snd (flat_map line_step lines))
  /\ map (fun kl => render (fst kl) (snd kl)) (flat_map line_step lines) =
    map (fun l => open_tag (classify_line l) ++ l ++ utf8 "</p>")
        (map snd (flat_map line_step lines)).
Proof.
  induction lines as [|raw lines [IH1 IH2]]; [now split|].
  cbn [flat_map]. rewrite !map_app, IH1, IH2.
  destruct (Str.strip raw) as [|c l] eqn:E.
  - unfold PerChapter.line_step, line_step. cbv zeta. rewrite E. now split.
  - assert (Hne : Str.strip raw <> []) by (rewrite E; discriminate).
    rewrite (@older_line_step raw Hne), render_open_tag.
    unfold line_step. cbv zeta. rewrite E.
    cbn [map fst snd app]. rewrite render_open_tag. now split.
Qed.

(** A line that ends with 。 or ， does not end with 曰：. *)
Lemma older_final_not_intro (line : str) :
  ends_with_one_of older_sentence_final line ->
  Str.endswith (utf8 "曰：") line = false.
Proof.
  intros (pre & g & Hg & ->).
  destruct (Str.endswith (utf8 "曰：") (pre ++ [g])) eqn:E; [|reflexivity].
  apply endswith_iff in E as [pre' E].
  change (utf8 "曰：") with ([chr "曰"] ++ [chr "："]) in E.
  rewrite app_assoc in E. apply app_inj_tail in E as [_ ->].
  exfalso. vm_compute in Hg. destruct Hg as [H|[H|[]]]; discriminate H.
Qed.

End TwoVersions.

(** X19: the two versions of [process_text] emit a paragraph for exactly
    the same lines, in the same order and with the same text: each output is
    the lines the newer version emits, each between an opening tag and the
    closing tag, joined by line breaks.  The versions differ in the opening
    tag only: the older one never uses the tag of a poem introduction, and
    every line it emits as a poem line the newer one emits as a poem line
    too. *)
Theorem older_process_text_lines (text : str) :
  let ls := map snd (typed_lines text) in
  PerChapter.process_text text =
    Str.join [nl]
      (map (fun l => open_tag (older_kind l) ++ l ++ utf8 "</p>") ls)
  /\ process_text text =
    Str.join [nl]
      (map (fun l => open_tag (classify_line l) ++ l ++ utf8 "</p>") ls)
  /\ (forall l, older_kind l <> PoemIntro)
  /\ (forall l, older_kind l = PoemLine -> classify_line l = PoemLine).
Proof.
  cbv zeta. unfold PerChapter.process_text, process_text, typed_lines.
  destruct (both_loops (Str.split nl (wrap_comments (escape text))))
    as [H1 H2].
  split; [now rewrite H1|]. split; [now rewrite H2|]. split.
  - intros l. unfold older_kind.
    destruct (PerChapter.is_poem_intro l);
      [|destruct (PerChapter.is_short_verse l)]; discriminate.
  - intros l. unfold older_kind, classify_line.
    destruct (PerChapter.is_poem_intro l) eqn:Ei; [discriminate|].
    destruct (PerChapter.is_short_verse l) eqn:Es; [|discriminate].
    intros _. apply older_short_verse_iff in Es as [Hlen Hend].
    assert (Hi : is_poem_intro l = false).
    { unfold is_poem_intro. unfold PerChapter.is_poem_intro in Ei.
      rewrite Ei. cbn [orb]. now apply older_final_not_intro. }
    assert (Hs : is_short_verse l = true).
    { apply short_verse_iff. split; [lia|].
      destruct Hend as (pre & g & Hg & ->). exists pre, g.
      split; [|reflexivity]. unfold sentence_final.
      unfold older_sentence_final in Hg.
      destruct Hg as [<-|[<-|[]]]; [now left|right; now left]. }
    now rewrite Hi, Hs.
Qed.

(** ** The listings of the older script *)
Section OlderListings.

Import OlderBook.









End OlderListings.

Section OlderBookFacts.

Import OlderBook.



End OlderBookFacts.


(** A table of contents of three entries with the text of chapter two
    only: page chapter2.html alone is written and listed. *)
Example older_book_second_only :
  let toc := utf8 "第一回 甲 1" ++ [nl] ++ utf8 "第二回 乙 9" ++ [nl]
             ++ utf8 "第三回 丙 20" in
  let texts := fun k => if k =? 2 then Some (utf8 "正文。") else None in
  let run := OlderBook.main (utf8 "/book/dist/Guiyou_Hongloumeng.epub")
                            (Some toc) texts in
  let bk := snd run in
  fst run = [utf8 "EPUB generated at: /book/dist/Guiyou_Hongloumeng.epub"]
  /\ map (fun w => toc_filename (fst w)) (OlderBook.chapter_files bk) =
    [utf8 "chapter2.html"]
  /\ OlderBook.spine bk =
       [html "<itemref idref='toc'/>"; html "<itemref idref='chap2'/>"]
  /\ map OlderBook.np_order (OlderBook.nav bk) = [1; 2]
  /\ OlderBook.toc_html_items bk =
       [utf8 "<li>第一回 甲 (待补)</li>";
        html "<li><a href='chapter2.html'>第二回 乙</a></li>";
        utf8 "<li>第三回 丙 (待补)</li>"].
Proof.
  cbv zeta. split; [|split; [|split; [|split]]]; vm_compute; reflexivity.
Qed.
